(** * Texture storage-scope annotation (relay/transforms/annotate_texture_storage.cc)

    A shallow embedding of the [StorageInfo] analysis, of the device
    enumeration and of the dispatch done by [AnnotateMemoryScopeExpr],
    followed by the properties established about them. *)

From Stdlib Require Import ZArith String List Bool Lia.
From stdpp Require Import base option list gmap strings.

#[local] Set Warnings "-register-all,-clear-no-such-hyp".

Local Open Scope string_scope.
Local Open Scope Z_scope.

(** ** Outcomes

    A run of the C++ code either returns a value, stops on a failed
    [ICHECK] (the message is kept), or leaves defined behaviour: a null
    [as<T>()] result that is dereferenced, an index into an empty vector. *)

Inductive result (A : Type) : Type :=
| Ok (a : A)
| ICheckFail (msg : string)
| Fault (what : string).

Arguments Ok {A} a.
Arguments ICheckFail {A} msg.
Arguments Fault {A} what.

#[global] Instance result_ret : MRet result := fun A a => Ok a.

#[global] Instance result_bind : MBind result := fun A B k r =>
  match r with
  | Ok a => k a
  | ICheckFail msg => ICheckFail msg
  | Fault what => Fault what
  end.

Section FoldM.
Context {A S : Type}.
Variable f : A -> S -> result S.

(** A [for] loop over a sequence whose body may stop the run. *)
Fixpoint foldM (l : list A) (s : S) : result S :=
  match l with
  | [] => Ok s
  | a :: l' => s' ← f a s; foldM l' s'
  end.
End FoldM.

(** ** Strings *)

(** [std::string::find]: the index of the first occurrence, [None] for
    [npos]. *)
Fixpoint find (s needle : string) : option nat :=
  if String.prefix needle s then Some 0%nat
  else match s with
       | EmptyString => None
       | String _ s' => option_map S (find s' needle)
       end.

Definition found (s needle : string) : bool :=
  match find s needle with Some _ => true | None => false end.

Definition found_at_0 (s needle : string) : bool :=
  match find s needle with Some O => true | _ => false end.

(** ** C [int]

    [IntImmNode::value] is an [int64_t]; the code stores it in [int]
    locals.  The narrowing keeps the low 32 bits.  Products and
    differences are taken in 32 bits; where they overflow, which C++
    leaves undefined, the model takes the wrapped value, and the
    properties below are stated where no overflow occurs. *)

Definition int_min : Z := - 2 ^ 31.
Definition int_max : Z := 2 ^ 31 - 1.

Definition to_int (z : Z) : Z := (z + 2 ^ 31) mod 2 ^ 32 - 2 ^ 31.

Definition int_mul (a b : Z) : Z := to_int (a * b).
Definition int_sub (a b : Z) : Z := to_int (a - b).

Definition fits_int (z : Z) : Prop := int_min <= z <= int_max.

(** ** Data model *)

(** A [PrimExpr] dimension: an integer literal or anything else
    (a symbolic size). *)
Inductive PrimExpr : Type :=
| IntImm (value : Z)
| SizeVar (name : string).

(** [e.as<IntImmNode>()]: null unless [e] is a literal. *)
Definition as_IntImm (e : PrimExpr) : option Z :=
  match e with
  | IntImm v => Some v
  | SizeVar _ => None
  end.

(** [e.as<IntImmNode>()->value] *)
Definition IntImm_value (e : PrimExpr) : result Z :=
  match as_IntImm e with
  | Some v => Ok v
  | None => Fault "null IntImmNode dereferenced"
  end.

Inductive RelayType : Type :=
| TensorType (shape : list PrimExpr)
| TupleType (fields : list RelayType)
| OtherType.

Record Target : Type := mkTarget {
  kind_name : string;
  device_attr : option string;
  texture_spatial_limit : option Z
}.

Record VirtualDevice : Type := mkVirtualDevice {
  device_type : Z;
  virtual_device_id : Z;
  target : option Target;
  memory_scope : string
}.

#[global] Instance PrimExpr_eq_dec : EqDecision PrimExpr.
Proof. solve_decision. Defined.

#[global] Instance Target_eq_dec : EqDecision Target.
Proof. solve_decision. Defined.

#[global] Instance VirtualDevice_eq_dec : EqDecision VirtualDevice.
Proof.
  intros [d1 i1 t1 m1] [d2 i2 t2 m2].
  refine (match decide (t1 = t2) with
          | right _ => right _
          | left _ =>
              match decide (d1 = d2), decide (i1 = i2), decide (m1 = m2) with
              | left _, left _, left _ => left _
              | _, _, _ => right _
              end
          end); congruence.
Defined.

(** [VirtualDevice::FullyUnconstrained()]: invalid device type, no
    identifier, no target, empty memory scope.  Virtual devices are
    interned, so comparing two of them compares their fields. *)
Definition FullyUnconstrained : VirtualDevice :=
  mkVirtualDevice (-1) (-1) None "".

Definition is_constrained (vd : VirtualDevice) : bool :=
  bool_decide (vd <> FullyUnconstrained).

(** ** [std::map<int, std::string>]

    Kept as a list sorted by key; [diffs[k] = v] replaces the value of a
    key already present, [begin()] is the head. *)
Fixpoint map_assign (key : Z) (value : string) (m : list (Z * string)) : list (Z * string) :=
  match m with
  | [] => [(key, value)]
  | entry :: rest =>
      if key <? fst entry then (key, value) :: m
      else if key =? fst entry then (key, value) :: rest
      else entry :: map_assign key value rest
  end.

(** ** [StorageInfo::Scope] *)

Definition default_texture_spatial_limit : Z := 16384.

(** [vd->target->GetAttr<Integer>("texture_spatial_limit")
      .value_or(Integer(16384))->value], stored in an [int]. *)
Definition spatial_limit (vd : VirtualDevice) : result Z :=
  match target vd with
  | None => Fault "null Target dereferenced"
  | Some t =>
      Ok (to_int (default default_texture_spatial_limit (texture_spatial_limit t)))
  end.

Definition abs_diff (l r : Z) : Z :=
  if l >? r then int_sub l r else int_sub r l.

Definition Scope (shape : list PrimExpr) (vd : VirtualDevice) : result string :=
  if is_constrained vd && (length shape =? 5)%nat then
    last_dim ← IntImm_value (nth 4 shape (SizeVar ""));
    if last_dim =? 4 then
      let diffs : list (Z * string) := [] in
      limit ← spatial_limit vd;
      v0 ← IntImm_value (nth 0 shape (SizeVar ""));
      v1 ← IntImm_value (nth 1 shape (SizeVar ""));
      v2 ← IntImm_value (nth 2 shape (SizeVar ""));
      v3 ← IntImm_value (nth 3 shape (SizeVar ""));
      let a0 := to_int v0 in
      let a1 := to_int v1 in
      let a2 := to_int v2 in
      let a3 := to_int v3 in
      let d3l := int_mul (int_mul a0 a1) a2 in
      let d3r := a3 in
      let diff3 := abs_diff d3l d3r in
      let diffs := if (d3l <? limit) && (d3r <? limit)
                   then map_assign diff3 "" diffs else diffs in
      let d2l := int_mul a0 a1 in
      let d2r := int_mul a2 a3 in
      let diff2 := abs_diff d2l d2r in
      let diffs := if (d2l <? limit) && (d2r <? limit)
                   then map_assign diff2 "nhwc" diffs else diffs in
      let d1l := a0 in
      let d1r := int_mul (int_mul a1 a2) a3 in
      let diff1 := abs_diff d1l d1r in
      let diffs := if (d1l <? limit) && (d1r <? limit)
                   then map_assign diff1 "weight" diffs else diffs in
      match diffs with
      | (_, layout) :: _ =>
          let scope := "global.texture" in
          Ok (if negb (String.eqb layout "") then scope ++ "-" ++ layout else scope)
      | [] => Ok "global"
      end
    else Ok "global"
  else Ok "global".

(** ** Expressions

    Nodes are identified by their address ([const ExprNode*]); a node
    reached along several edges carries the same address on each of them. *)

Abbreviation ExprPtr := positive.

Record RelayExprNode : Type := mkNode {
  addr : ExprPtr;
  checked_type_ : RelayType;
  virtual_device_ : VirtualDevice
}.

Inductive Attrs : Type :=
| NoAttrs
| Conv2DAttrs (data_layout kernel_layout : string)
| Conv2DWinogradAttrs (data_layout kernel_layout : string)
| GlobalPool2DAttrs (layout : string)
| MaxPool2DAttrs (layout : string)
| AvgPool2DAttrs (layout : string)
| OtherAttrs (type_key : string).

Record Var : Type := mkVar {
  var_node : RelayExprNode;
  vid : string
}.

Inductive Expr : Type :=
| VarNode (v : Var)
| ConstantNode (n : RelayExprNode)
| CallNode (n : RelayExprNode) (op : Expr) (args : list Expr) (attrs : Attrs)
| FunctionNode (n : RelayExprNode) (params : list Var) (body : Expr) (primitive : bool)
| OpNode (n : RelayExprNode) (name : string).

Definition node_of (e : Expr) : RelayExprNode :=
  match e with
  | VarNode v => var_node v
  | ConstantNode n => n
  | CallNode n _ _ _ => n
  | FunctionNode n _ _ _ => n
  | OpNode n _ => n
  end.

(** [expr.get()] / [arg.operator->()] *)
Definition ptr (e : Expr) : ExprPtr := addr (node_of e).

(** Modelled from the spec: [GetVirtualDevice] of the device-aware base
    visitor, which is not part of this file.  Every node comes with the
    placement descriptor an earlier stage resolved for it. *)
Definition GetVirtualDevice (n : RelayExprNode) : VirtualDevice := virtual_device_ n.

(** ** The analysis state *)

Record StorageInfo : Type := mkStorageInfo {
  primitive_supports_texture_ : bool;
  storage_scope_ : gmap positive (list string);
  consumer_storage_scopes_ : gmap positive (list string);
  args_to_vars_ : gmap positive (list Var);
  (** the memo of the base [ExprVisitor]: nodes already dispatched *)
  visit_counter_ : gset positive
}.

Definition StorageInfo_init : StorageInfo :=
  mkStorageInfo false ∅ ∅ ∅ ∅.

Definition set_flag (b : bool) (st : StorageInfo) : StorageInfo :=
  mkStorageInfo b (storage_scope_ st) (consumer_storage_scopes_ st)
                (args_to_vars_ st) (visit_counter_ st).

Definition set_storage_scope (m : gmap positive (list string)) (st : StorageInfo) : StorageInfo :=
  mkStorageInfo (primitive_supports_texture_ st) m (consumer_storage_scopes_ st)
                (args_to_vars_ st) (visit_counter_ st).

Definition set_consumer_storage_scopes (m : gmap positive (list string)) (st : StorageInfo)
  : StorageInfo :=
  mkStorageInfo (primitive_supports_texture_ st) (storage_scope_ st) m
                (args_to_vars_ st) (visit_counter_ st).

Definition set_args_to_vars (m : gmap positive (list Var)) (st : StorageInfo) : StorageInfo :=
  mkStorageInfo (primitive_supports_texture_ st) (storage_scope_ st)
                (consumer_storage_scopes_ st) m (visit_counter_ st).

Definition mark_visited (p : positive) (st : StorageInfo) : StorageInfo :=
  mkStorageInfo (primitive_supports_texture_ st) (storage_scope_ st)
                (consumer_storage_scopes_ st) (args_to_vars_ st)
                ({[ p ]} ∪ visit_counter_ st).

(** [table[key].push_back(x)]: [operator[]] creates the empty vector
    when the key is new. *)
Definition push_back {A : Type} (key : positive) (x : A) (table : gmap positive (list A))
  : gmap positive (list A) :=
  <[ key := (default [] (table !! key) ++ [x])%list ]> table.

Definition has_key {A : Type} (key : positive) (table : gmap positive A) : bool :=
  bool_decide (is_Some (table !! key)).

(** ** Demand unification *)

Definition texture_tag : string := "global.texture".

(** [StorageInfo::GetConsumerScope] *)
Definition GetConsumerScope (consumer_scopes : list string) : string :=
  match consumer_scopes with
  | [] => "global"
  | _ =>
      if forallb (fun consumer_scope => found consumer_scope texture_tag) consumer_scopes
      then texture_tag
      else "global"
  end.

(** [StorageInfo::CanConsumeTextures] *)
Definition CanConsumeTextures (consumer_scopes : list string) : bool :=
  existsb (fun consumer_scope => found_at_0 consumer_scope texture_tag) consumer_scopes.

(** [StorageInfo::HasMixedStorageOutputs], on the candidate table.
    [storage_scope_[expr][0]] of an empty vector is outside defined
    behaviour. *)
Definition HasMixedStorageOutputs (storage_scope : gmap positive (list string))
    (expr : positive) : result bool :=
  match storage_scope !! expr with
  | Some scopes =>
      match scopes with
      | [] => Fault "front of an empty vector"
      | ref_scope :: _ =>
          Ok (existsb (fun scope => negb (String.eqb scope ref_scope)) scopes)
      end
  | None => Ok false
  end.

(** [StorageInfo::SupportsTextureStorage], on the attributes of the call *)
Definition SupportsTextureStorage (attrs : Attrs) : bool :=
  match attrs with
  | Conv2DAttrs data_layout kernel_layout =>
      if String.eqb data_layout "NCHW4c" && String.eqb kernel_layout "OIHW4o" then true
      else if String.eqb data_layout "NHWC4c" &&
              (String.eqb kernel_layout "HWOI4o" || String.eqb kernel_layout "HWIO4o" ||
               String.eqb kernel_layout "OIHW4o") then true
      else false
  | Conv2DWinogradAttrs data_layout kernel_layout =>
      (String.eqb data_layout "NCHW4c" || String.eqb data_layout "NHWC4c") &&
      (String.eqb kernel_layout "OIHW4o" || String.eqb kernel_layout "HWIO4o")
  | GlobalPool2DAttrs layout => String.eqb layout "NCHW4c"
  | MaxPool2DAttrs layout => String.eqb layout "NCHW4c"
  | AvgPool2DAttrs layout => String.eqb layout "NCHW4c"
  | NoAttrs | OtherAttrs _ => false
  end.

(** ** Leaves: [StorageInfo::ApplyConsumerScopeToInputs] *)

(** The first half of the body: the scope fitting the leaf's own type
    and whether the leaf is "rgba vectorizable". *)
Definition own_scope (expr : RelayExprNode) : result (string * bool) :=
  match checked_type_ expr with
  | TensorType shape =>
      scope ← Scope shape (GetVirtualDevice expr);
      if negb (String.eqb scope "global") then
        match as_IntImm (List.last shape (SizeVar "")) with
        | Some inner_dim => Ok (scope, inner_dim =? 4)
        | None => Ok (scope, false)
        end
      else Ok (scope, false)
  | _ => Ok ("", false)
  end.

Definition ApplyConsumerScopeToInputs (expr : RelayExprNode) (st : StorageInfo)
  : result StorageInfo :=
  match consumer_storage_scopes_ st !! addr expr with
  | Some consumer_scopes =>
      let consumer_scope := GetConsumerScope consumer_scopes in
      if has_key (addr expr) (storage_scope_ st)
      then ICheckFail "Already propagated consumer scopes to input"
      else
        '(scope, expr_is_rgba_vectorizable) ← own_scope expr;
        if found consumer_scope "global.texture" then
          if expr_is_rgba_vectorizable : bool
          then Ok (set_storage_scope (push_back (addr expr) scope (storage_scope_ st)) st)
          else Ok st
        else Ok (set_storage_scope (push_back (addr expr) consumer_scope (storage_scope_ st)) st)
  | None => Ok st
  end.

(** ** Calls: the pieces of [StorageInfo::DeviceAwareVisitExpr_] *)

(** Lines 119-135: the candidate scope of a call whose primitive
    supports textures.  [type_as<TupleTypeNode>()] checks its result. *)
Definition AssignCallScope (call : RelayExprNode) (st : StorageInfo) : result StorageInfo :=
  match checked_type_ call with
  | TensorType shape =>
      scope ← Scope shape (GetVirtualDevice call);
      Ok (set_storage_scope (push_back (addr call) scope (storage_scope_ st)) st)
  | TupleType fields =>
      Ok (set_storage_scope
            (fold_left (fun table _ => push_back (addr call) "global.texture" table)
                       fields (storage_scope_ st)) st)
  | OtherType => ICheckFail "tuple_type"
  end.

(** Lines 136-138: [args_to_vars_[call->args[i]].push_back(fn->params[i])];
    [Array::operator[]] checks the index. *)
Fixpoint BindArgsToVars (args : list Expr) (params : list Var)
    (table : gmap positive (list Var)) {struct params} : result (gmap positive (list Var)) :=
  match params with
  | [] => Ok table
  | param :: params' =>
      match args with
      | [] => ICheckFail "index out of bounds"
      | arg :: args' => BindArgsToVars args' params' (push_back (ptr arg) param table)
      end
  end.

(** Lines 141-149, one iteration. *)
Definition RecordConsumerScope (call : RelayExprNode) (arg : Expr) (st : StorageInfo)
  : result StorageInfo :=
  if has_key (addr call) (storage_scope_ st) then
    mixed ← HasMixedStorageOutputs (storage_scope_ st) (addr call);
    if mixed : bool then ICheckFail "Mixed output storage scopes are not currently supported"
    else Ok (set_consumer_storage_scopes
               (push_back (ptr arg) "global.texture" (consumer_storage_scopes_ st)) st)
  else Ok (set_consumer_storage_scopes
             (push_back (ptr arg) "global" (consumer_storage_scopes_ st)) st).

Definition RecordConsumerScopes (call : RelayExprNode) (args : list Expr) (st : StorageInfo)
  : result StorageInfo :=
  foldM (RecordConsumerScope call) args st.

(** Lines 163-173, one iteration. *)
Definition RetractArg (st : StorageInfo) (arg : Expr) : StorageInfo :=
  match consumer_storage_scopes_ st !! ptr arg with
  | Some consumer_scopes =>
      if negb (String.eqb (GetConsumerScope consumer_scopes) "global.texture") then
        let table := delete (ptr arg) (storage_scope_ st) in
        match arg with
        | CallNode _ (FunctionNode _ _ body _) _ _ =>
            set_storage_scope (delete (ptr body) table) st
        | _ => set_storage_scope table st
        end
      else st
  | None => st
  end.

Definition RetractArgs (args : list Expr) (st : StorageInfo) : StorageInfo :=
  fold_left RetractArg args st.

(** ** The traversal *)

(** [VisitExpr] on a parameter: the memo of the base visitor, then
    the [VarNode] case of [VisitExpr_]. *)
Definition VisitVar (v : Var) (st : StorageInfo) : result StorageInfo :=
  if bool_decide (addr (var_node v) ∈ visit_counter_ st) then Ok st
  else
    st' ← ApplyConsumerScopeToInputs (var_node v) st;
    Ok (mark_visited (addr (var_node v)) st').

(** [VisitExpr] is the entry point of the base [ExprVisitor], which is
    not part of this file: a node already dispatched is skipped, and the
    default case of a function visits its parameters, then its body.
    [Visit] (lines 95-106) goes through the body of a function before
    its parameters; the call case is [DeviceAwareVisitExpr_]
    (lines 112-174). *)
Fixpoint VisitExpr (expr : Expr) (st : StorageInfo) {struct expr} : result StorageInfo :=
  if bool_decide (ptr expr ∈ visit_counter_ st) then Ok st
  else
    st' ← match expr with
          | VarNode v => ApplyConsumerScopeToInputs (var_node v) st
          | ConstantNode n => ApplyConsumerScopeToInputs n st
          | OpNode _ _ => Ok st
          | FunctionNode _ params body _ =>
              st1 ← foldM VisitVar params st;
              VisitExpr body st1
          | CallNode call op args attrs =>
              st1 ← match op with
                    | FunctionNode _ params body true =>
                        let st := set_flag false st in
                        st ← VisitExpr body st;
                        st ← foldM VisitVar params st;
                        st ← (if primitive_supports_texture_ st then
                                st ← AssignCallScope call st;
                                table ← BindArgsToVars args params (args_to_vars_ st);
                                Ok (set_args_to_vars table st)
                              else Ok st);
                        RecordConsumerScopes call args st
                    | _ => Ok st
                    end;
              let st2 := set_flag (SupportsTextureStorage attrs) st1 in
              st3 ← foldM (fun arg st =>
                             match arg with
                             | FunctionNode _ params body _ =>
                                 st ← VisitExpr body st;
                                 foldM VisitVar params st
                             | _ => VisitExpr arg st
                             end) args st2;
              Ok (RetractArgs args st3)
          end;
    Ok (mark_visited (ptr expr) st').

(** The traversal, piece by piece.  [Visit] is lines 95-106,
    [VisitPrimitive] the body of the test on [attr::kPrimitive]
    (lines 116-149) and [DeviceAwareVisitExpr_] the whole call case;
    [VisitExpr] unfolds to them. *)
Definition Visit (expr : Expr) (st : StorageInfo) : result StorageInfo :=
  match expr with
  | FunctionNode _ params body _ =>
      st ← VisitExpr body st;
      foldM VisitVar params st
  | _ => VisitExpr expr st
  end.

Definition AssignAndBind (call : RelayExprNode) (params : list Var) (args : list Expr)
    (st : StorageInfo) : result StorageInfo :=
  if primitive_supports_texture_ st then
    st ← AssignCallScope call st;
    table ← BindArgsToVars args params (args_to_vars_ st);
    Ok (set_args_to_vars table st)
  else Ok st.

Definition VisitPrimitive (call : RelayExprNode) (params : list Var) (body : Expr)
    (args : list Expr) (st : StorageInfo) : result StorageInfo :=
  let st := set_flag false st in
  st ← VisitExpr body st;
  st ← foldM VisitVar params st;
  st ← AssignAndBind call params args st;
  RecordConsumerScopes call args st.

Definition DeviceAwareVisitExpr_ (call : RelayExprNode) (op : Expr) (args : list Expr)
    (attrs : Attrs) (st : StorageInfo) : result StorageInfo :=
  st1 ← match op with
        | FunctionNode _ params body true => VisitPrimitive call params body args st
        | _ => Ok st
        end;
  let st2 := set_flag (SupportsTextureStorage attrs) st1 in
  st3 ← foldM Visit args st2;
  Ok (RetractArgs args st3).

(** ** Where the traversal can record something

    The addresses of the arguments of calls to primitive functions, of
    those calls themselves, and of the parameters of the primitive
    functions called. *)
Fixpoint demand_sites (expr : Expr) : gset positive :=
  match expr with
  | CallNode _ op args _ =>
      (match op with
       | FunctionNode _ _ _ true => list_to_set (ptr <$> args)
       | _ => ∅
       end) ∪ demand_sites op ∪ ⋃ (demand_sites <$> args)
  | FunctionNode _ _ body _ => demand_sites body
  | _ => ∅
  end.

Fixpoint primitive_calls (expr : Expr) : gset positive :=
  match expr with
  | CallNode call op args _ =>
      (match op with
       | FunctionNode _ _ _ true => {[ addr call ]}
       | _ => ∅
       end) ∪ primitive_calls op ∪ ⋃ (primitive_calls <$> args)
  | FunctionNode _ _ body _ => primitive_calls body
  | _ => ∅
  end.

Fixpoint primitive_params (expr : Expr) : gset positive :=
  match expr with
  | CallNode _ op args _ =>
      (match op with
       | FunctionNode _ params _ true => list_to_set ((fun v => addr (var_node v)) <$> params)
       | _ => ∅
       end) ∪ primitive_params op ∪ ⋃ (primitive_params <$> args)
  | FunctionNode _ _ body _ => primitive_params body
  | _ => ∅
  end.

(** ** [StorageInfo::LegalizeProducerStorage] *)

(** One iteration of the loop over [consumer_storage_scopes_]. *)
Definition LegalizeProducer (kv : positive * list string)
    (storage_scope : gmap positive (list string)) : result (gmap positive (list string)) :=
  let producer := fst kv in
  let legal_scope := GetConsumerScope (snd kv) in
  match storage_scope !! producer with
  | Some scopes =>
      mixed ← HasMixedStorageOutputs storage_scope producer;
      if mixed : bool then ICheckFail "Mixed output storage scopes are not currently supported"
      else
        match scopes with
        | [] => Fault "front of an empty vector"
        | first :: _ =>
            if negb (found first legal_scope)
            then Ok (<[ producer := map (fun _ => legal_scope) scopes ]> storage_scope)
            else Ok storage_scope
        end
  | None => Ok storage_scope
  end.

Definition LegalizeProducerStorage (st : StorageInfo) : result StorageInfo :=
  table ← foldM LegalizeProducer (map_to_list (consumer_storage_scopes_ st)) (storage_scope_ st);
  Ok (set_storage_scope table st).

(** ** [StorageInfo::GetStorageMap] *)

(** Lines 72-80, one iteration. *)
Definition FillInput (storage_map : gmap positive (list string)) (cs : positive * list string)
  : gmap positive (list string) :=
  if CanConsumeTextures (snd cs) && negb (has_key (fst cs) storage_map)
  then <[ fst cs := ["global"] ]> storage_map
  else storage_map.

Definition FillInputs (consumer_storage_scopes storage_map : gmap positive (list string))
  : gmap positive (list string) :=
  fold_left FillInput (map_to_list consumer_storage_scopes) storage_map.

(** Lines 84-90, one iteration. *)
Definition AddVars (storage_map : gmap positive (list string)) (a : positive * list Var)
  : gmap positive (list string) :=
  match storage_map !! fst a with
  | Some _ =>
      fold_left (fun m v => match m !! fst a with
                            | Some scopes => <[ addr (var_node v) := scopes ]> m
                            | None => m
                            end) (snd a) storage_map
  | None => storage_map
  end.

Definition AddVarsAll (args_to_vars : gmap positive (list Var))
    (storage_map : gmap positive (list string)) : gmap positive (list string) :=
  fold_left AddVars (map_to_list args_to_vars) storage_map.

(** The state after the traversal and the legalization. *)
Definition Analyze (expr : Expr) : result StorageInfo :=
  storage_info ← VisitExpr expr StorageInfo_init;
  LegalizeProducerStorage storage_info.

Definition GetStorageMap (expr : Expr) : result (gmap positive (list string)) :=
  storage_info ← Analyze expr;
  let storage_map := storage_scope_ storage_info in
  let storage_map := FillInputs (consumer_storage_scopes_ storage_info) storage_map in
  let storage_map := AddVarsAll (args_to_vars_ storage_info) storage_map in
  Ok storage_map.

Definition CollectTextureStorage (expr : Expr) : result (gmap positive (list string)) :=
  GetStorageMap expr.

(** ** [CollectVirtualDevices] *)

(** [std::set<std::string>::insert]: a list kept sorted, without
    repetition. *)
Fixpoint set_insert (x : string) (s : list string) : list string :=
  match s with
  | [] => [x]
  | y :: s' =>
      match String.compare x y with
      | Lt => x :: s
      | Eq => s
      | Gt => y :: set_insert x s'
      end
  end.

Record CollectVirtualDevices : Type := mkCollectVirtualDevices {
  devices_ : list string;
  seen_ : gset positive
}.

(** The head of [CollectVirtualDevices::DeviceAwareVisitExpr_]
    (lines 461-466). *)
Definition AddDevice (call : RelayExprNode) (devices : list string) : result (list string) :=
  let vd := GetVirtualDevice call in
  if is_constrained vd then
    match target vd with
    | None => Fault "null Target dereferenced"
    | Some t =>
        match device_attr t with
        | Some t_device => Ok (set_insert (kind_name t ++ "." ++ t_device)%string devices)
        | None => Ok devices
        end
    end
  else Ok devices.

Definition seen (p : positive) (c : CollectVirtualDevices) : CollectVirtualDevices :=
  mkCollectVirtualDevices (devices_ c) ({[ p ]} ∪ seen_ c).

(** Parameters and constants have the default (empty) case of the base
    visitor; only the memo is touched. *)
Definition RunVar (v : Var) (c : CollectVirtualDevices) : result CollectVirtualDevices :=
  Ok (seen (addr (var_node v)) c).

Fixpoint Run (expr : Expr) (c : CollectVirtualDevices) {struct expr}
  : result CollectVirtualDevices :=
  if bool_decide (ptr expr ∈ seen_ c) then Ok c
  else
    c' ← match expr with
         | VarNode _ | ConstantNode _ | OpNode _ _ => Ok c
         | FunctionNode _ params body _ =>
             c1 ← foldM RunVar params c;
             Run body c1
         | CallNode call _ args _ =>
             devices ← AddDevice call (devices_ c);
             foldM (fun arg c =>
                      match arg with
                      | FunctionNode _ params body _ =>
                          c ← Run body c;
                          foldM RunVar params c
                      | _ => Run arg c
                      end) args (mkCollectVirtualDevices devices (seen_ c))
         end;
    Ok (seen (ptr expr) c').

Definition GetDevices (expr : Expr) : result (list string) :=
  c ← Run expr (mkCollectVirtualDevices [] ∅);
  Ok (devices_ c).

(** ** Dispatch: [CollectStorageInfo] and [AnnotateMemoryScopeExpr] *)

Abbreviation StorageMap := (gmap positive (list string)).

Section Dispatch.
(** [runtime::Registry::Get]: the analyses registered by name. *)
Variable Registry_Get : string -> option (Expr -> result StorageMap).

(** [RewriteVDStorageScopes(storage_scope).Rewrite]: the rewriting is
    built on [DeviceAwareExprMutator] and [OnDevice], which are not
    part of this file. *)
Variable Rewrite : StorageMap -> Expr -> result Expr.

Definition registry_key (device_types : list string) : string :=
  (fold_left (fun ftarget_prefix dev_id => ftarget_prefix ++ ("." ++ dev_id))
             device_types "relay.backend" ++ "._CollectStorageInfo")%string.

Definition CollectStorageInfo (expr : Expr) : result StorageMap :=
  device_types ← GetDevices expr;
  match Registry_Get (registry_key device_types) with
  | Some f => f expr
  | None => Ok ∅
  end.

Definition AnnotateMemoryScopeExpr (expr : Expr) : result Expr :=
  storage_scope ← CollectStorageInfo expr;
  if negb (size storage_scope =? 0)%nat
  then Rewrite storage_scope expr
  else Ok expr.
End Dispatch.

(** [TVM_REGISTER_GLOBAL("relay.backend.opencl.adreno._CollectStorageInfo")]:
    the one entry this file registers. *)
Definition registered : string -> option (Expr -> result StorageMap) :=
  fun name =>
    if String.eqb name "relay.backend.opencl.adreno._CollectStorageInfo"
    then Some CollectTextureStorage
    else None.

(** ** Scenario graphs *)

Definition adreno : Target := mkTarget "opencl" (Some "adreno") None.
Definition vd_adreno : VirtualDevice := mkVirtualDevice 4 0 (Some adreno) "".

Definition tensor (dims : list Z) : RelayType := TensorType (map IntImm dims).

(** A primitive function [fn (p0, p1) { nn.conv2d(p0, p1) }] applied to
    two variables; [out] is the type of the result. *)
Definition parameter_p0 : Var :=
  mkVar (mkNode 11 (tensor [1; 1; 8; 8; 4]) FullyUnconstrained) "p0".

Definition parameter_p1 : Var :=
  mkVar (mkNode 12 (tensor [1; 1; 3; 3; 4]) FullyUnconstrained) "p1".

Definition conv_primitive (data_layout kernel_layout : string) (out : RelayType) : Expr :=
  let p0 := parameter_p0 in
  let p1 := parameter_p1 in
  FunctionNode (mkNode 10 OtherType FullyUnconstrained) [p0; p1]
    (CallNode (mkNode 13 out FullyUnconstrained)
              (OpNode (mkNode 14 OtherType FullyUnconstrained) "nn.conv2d")
              [VarNode p0; VarNode p1]
              (Conv2DAttrs data_layout kernel_layout))
    true.

Definition conv_call (vd : VirtualDevice) (data weight out : RelayType) : Expr :=
  CallNode (mkNode 1 out vd)
           (conv_primitive "NCHW4c" "OIHW4o" out)
           [VarNode (mkVar (mkNode 2 data vd) "data");
            VarNode (mkVar (mkNode 3 weight vd) "weight")]
           NoAttrs.

Definition scenario_A_on (vd : VirtualDevice) : Expr :=
  conv_call vd (tensor [1; 1; 8; 8; 4]) (tensor [1; 1; 3; 3; 4]) (tensor [1; 4; 8; 8; 4]).

Definition scenario_A : Expr := scenario_A_on vd_adreno.

(** The same call as the body of a function of its two arguments. *)
Definition scenario_A_function_on (vd : VirtualDevice) : Expr :=
  FunctionNode (mkNode 20 OtherType vd)
    [mkVar (mkNode 2 (tensor [1; 1; 8; 8; 4]) vd) "data";
     mkVar (mkNode 3 (tensor [1; 1; 3; 3; 4]) vd) "weight"]
    (scenario_A_on vd) false.

(** ** The fit test as a selection among reshapes

    Candidates are evaluated in the order 3-vs-1, 2-vs-2, 1-vs-3; the
    eligible one of least [|rows - cols|] gives the label, a later
    candidate winning an exact tie. *)

Record candidate : Type := mkCandidate {
  rows : Z;
  cols : Z;
  label : string
}.

Definition eligible (limit : Z) (c : candidate) : bool :=
  (rows c <? limit) && (cols c <? limit).

Definition diff (c : candidate) : Z := Z.abs (rows c - cols c).

(** The later candidate replaces the current best unless it is strictly
    worse. *)
Definition better (best c : candidate) : candidate :=
  if diff c <=? diff best then c else best.

Definition suffixed (c : candidate) : string :=
  if String.eqb (label c) "" then "global.texture"
  else ("global.texture" ++ "-" ++ label c)%string.

Definition select (limit : Z) (candidates : list candidate) : string :=
  match List.filter (eligible limit) candidates with
  | [] => "global"
  | c :: cs => suffixed (fold_left better cs c)
  end.

(** The reshapes of the four dimensions in front of the vector lane. *)
Definition reshapes (a0 a1 a2 a3 : Z) : list candidate :=
  [ mkCandidate (a0 * a1 * a2) a3 "";
    mkCandidate (a0 * a1) (a2 * a3) "nhwc";
    mkCandidate a0 (a1 * a2 * a3) "weight" ].

Definition FitScope (a0 a1 a2 a3 limit : Z) : string :=
  select limit (reshapes a0 a1 a2 a3).

(** The reshapes read off the five dimensions, as in the worked
    scenario of the specification: the first three against the last one,
    the first two against the last two, the first against the last
    three. *)
Definition reshapes_of_five (a0 a1 a2 a3 a4 : Z) : list candidate :=
  [ mkCandidate (a0 * a1 * a2) a4 "";
    mkCandidate (a0 * a1) (a3 * a4) "nhwc";
    mkCandidate a0 (a2 * a3 * a4) "weight" ].

(** Every value the evaluator computes in [int] is representable. *)
Definition in_int_range (a0 a1 a2 a3 : Z) : Prop :=
  fits_int a0 /\ fits_int a1 /\ fits_int a2 /\ fits_int a3 /\
  fits_int (a0 * a1) /\ fits_int (a0 * a1 * a2) /\
  fits_int (a2 * a3) /\
  fits_int (a1 * a2) /\ fits_int (a1 * a2 * a3) /\
  fits_int (Z.abs (a0 * a1 * a2 - a3)) /\
  fits_int (Z.abs (a0 * a1 - a2 * a3)) /\
  fits_int (Z.abs (a0 - a1 * a2 * a3)).

(** ** Vocabulary of the legalization properties *)

(** Two entries of a scope vector differ. *)
Definition mixed (scopes : list string) : Prop :=
  exists a b, a ∈ scopes /\ b ∈ scopes /\ a <> b.

(** What the legalization makes of the scopes of a producer with
    demand [demand]. *)
Definition legalized (demand scopes : list string) : list string :=
  match scopes with
  | [] => scopes
  | first :: _ =>
      if found first (GetConsumerScope demand) then scopes
      else map (fun _ => GetConsumerScope demand) scopes
  end.

Definition mixed_message : string := "Mixed output storage scopes are not currently supported".

(** A state with a two-output candidate that did not fit and unanimous
    texture demand. *)
Definition legalize_example : StorageInfo :=
  mkStorageInfo false {[ 1%positive := ["global"; "global"] ]}
                {[ 1%positive := ["global.texture"; "global.texture"] ]} ∅ ∅.

(** How many of the argument edges of a call lead to [p]. *)
Definition occurrences (p : positive) (l : list positive) : nat :=
  length (filter (fun q => q = p) l).

(** The demand a call records for each of its arguments. *)
Definition recorded_entry (call : RelayExprNode) (st : StorageInfo) : string :=
  if has_key (addr call) (storage_scope_ st) then "global.texture" else "global".

(** The convolution of scenario A on a feature map too large for a
    texture: 20000 exceeds the spatial limit in each of the reshapes. *)
Definition conv_large : Expr :=
  conv_call vd_adreno (tensor [1; 1; 20000; 20000; 4]) (tensor [1; 1; 3; 3; 4])
            (tensor [1; 1; 20000; 20000; 4]).

(** ** Nodes of a graph

    The nodes reachable from an expression; a shared node is listed once
    per edge.  Addresses identify nodes when two reachable nodes with the
    same address are the same node. *)
Fixpoint subterms (expr : Expr) : list Expr :=
  expr ::
  match expr with
  | CallNode _ op args _ => subterms op ++ concat (subterms <$> args)
  | FunctionNode _ params body _ => (VarNode <$> params) ++ subterms body
  | _ => []
  end.

Definition addresses_identify (expr : Expr) : Prop :=
  forall e1 e2, e1 ∈ subterms expr -> e2 ∈ subterms expr -> ptr e1 = ptr e2 -> e1 = e2.

Definition is_primitive_function (op : Expr) : bool :=
  match op with
  | FunctionNode _ _ _ true => true
  | _ => false
  end.

(** A Reference or a Literal. *)
Definition is_leaf (expr : Expr) : bool :=
  match expr with
  | VarNode _ | ConstantNode _ => true
  | _ => false
  end.

(** The calls of the graph that have [leaf] as an argument all apply
    something other than a primitive function. *)
Definition consumed_by_bare_calls_only (expr leaf : Expr) : Prop :=
  forall call op args attrs,
    CallNode call op args attrs ∈ subterms expr -> leaf ∈ args ->
    is_primitive_function op = false.

(** ** What holds of the tables throughout a traversal

    [sites], [calls] and [params] bound the addresses that may occur:
    demand is kept for [sites] only and consists of the two tags the
    collector writes; a candidate belongs to a node with demand or to one
    of [calls] and is never the empty vector; the variables bound to
    arguments are among [params]. *)
Record collected (sites calls params : gset positive) (st : StorageInfo) : Prop := mkCollected {
  demand_tags :
    map_Forall (fun _ demand => Forall (fun s => s = "global" \/ s = "global.texture") demand)
               (consumer_storage_scopes_ st);
  demand_keys : dom (consumer_storage_scopes_ st) ⊆ sites;
  scope_keys : dom (storage_scope_ st) ⊆ dom (consumer_storage_scopes_ st) ∪ calls;
  scope_nonempty : map_Forall (fun _ scopes => scopes <> []) (storage_scope_ st);
  bound_vars :
    map_Forall (fun _ vars => Forall (fun v => addr (var_node v) ∈ params) vars)
               (args_to_vars_ st)
}.

(** A state whose producer has two different candidate scopes. *)
Definition mixed_example : StorageInfo :=
  mkStorageInfo false {[ 1%positive := ["global.texture"; "global"] ]}
                {[ 1%positive := ["global"] ]} ∅ ∅.

From Stdlib Require Import Ascii Sorted.

(** ** Vocabulary of the further properties *)

(** The four storage scopes the analysis writes. *)
Definition is_scope (s : string) : Prop :=
  s = "global" \/ s = "global.texture" \/ s = "global.texture-nhwc" \/
  s = "global.texture-weight".

(** A scope other than ["global"]. *)
Definition is_texture_scope (s : string) : Prop :=
  s = "global.texture" \/ s = "global.texture-nhwc" \/ s = "global.texture-weight".

(** All entries of a scope vector are the same. *)
Definition uniform (scopes : list string) : Prop :=
  forall a b, a ∈ scopes -> b ∈ scopes -> a = b.

(** A leaf fitting a texture, with one consumer that accepts textures. *)
Definition leaf_example_node : RelayExprNode := mkNode 2 (tensor [1; 1; 8; 8; 4]) vd_adreno.

Definition leaf_example_state : StorageInfo :=
  mkStorageInfo false ∅ {[ 2%positive := ["global.texture"] ]} ∅ ∅.

(** The variables bound to the arguments at address [p]: [params[i]] for
    every [i] with [args[i]] at [p]. *)
Fixpoint bound_to (p : positive) (args : list Expr) (params : list Var) {struct params}
  : list Var :=
  match params, args with
  | param :: params', arg :: args' =>
      if decide (ptr arg = p) then param :: bound_to p args' params'
      else bound_to p args' params'
  | _, _ => []
  end.

(** A scope vector the rewriting can index at 0 and whose entries are
    scopes. *)
Definition scope_vector (scopes : list string) : Prop :=
  scopes <> [] /\ Forall is_scope scopes.

(** ** The devices of a graph

    The calls [CollectVirtualDevices] reaches: it descends through the
    arguments of a call and the body of a function, never through the
    operator of a call. *)
Fixpoint device_calls (expr : Expr) : list RelayExprNode :=
  match expr with
  | CallNode call _ args _ => call :: concat (device_calls <$> args)
  | FunctionNode _ _ body _ => device_calls body
  | _ => []
  end.

(** The name a call contributes: its placement is constrained and its
    target has a [device] attribute. *)
Definition device_name (call : RelayExprNode) : option string :=
  let vd := GetVirtualDevice call in
  if is_constrained vd then
    match target vd with
    | Some t =>
        match device_attr t with
        | Some t_device => Some (kind_name t ++ "." ++ t_device)%string
        | None => None
        end
    | None => None
    end
  else None.

Definition before (a b : string) : Prop := String.compare a b = Lt.

(** The number of dots of a name. *)
Fixpoint dots (s : string) : nat :=
  match s with
  | EmptyString => 0
  | String c s' => (if Ascii.eqb c "."%char then 1 else 0) + dots s'
  end.

(** The names of the calls reached from [expr] are among [devices]. *)
Definition names_in (expr : Expr) (devices : list string) : Prop :=
  forall n d, n ∈ device_calls expr -> device_name n = Some d -> d ∈ devices.

(** The memo of the collector is sound for the graph [root]: a node it
    skips has contributed its names already. *)
Definition seen_names (root : Expr) (c : CollectVirtualDevices) : Prop :=
  forall e, e ∈ subterms root -> ptr e ∈ seen_ c -> names_in e (devices_ c).

(** [CollectVirtualDevices::Visit] (lines 447-458). *)
Definition VisitDevices (arg : Expr) (c : CollectVirtualDevices) : result CollectVirtualDevices :=
  match arg with
  | FunctionNode _ params body _ =>
      c ← Run body c;
      foldM RunVar params c
  | _ => Run arg c
  end.

(** What one traversal from [e] does to the collector. *)
Record collects (root e : Expr) (c c' : CollectVirtualDevices) : Prop := mkCollects {
  collects_sorted : StronglySorted before (devices_ c) -> StronglySorted before (devices_ c');
  collects_sound :
    forall d, d ∈ devices_ c' ->
              d ∈ devices_ c \/ exists n, n ∈ device_calls e /\ device_name n = Some d;
  collects_keeps : forall d, d ∈ devices_ c -> d ∈ devices_ c';
  collects_complete :
    addresses_identify root -> e ∈ subterms root -> seen_names root c ->
    seen_names root c' /\ names_in e (devices_ c')
}.

(** The part of the registry key made from the devices. *)
Fixpoint dotted (devices : list string) : string :=
  match devices with
  | [] => ""
  | d :: devices => "." ++ d ++ dotted devices
  end.

(** ** Producers whose consumers are still being visited

    While a call is visited the candidates of its arguments are
    provisional: the loop of lines 163-173 settles them when the
    arguments have been visited.  [pending] holds of a state when, apart
    from the arguments [waiting] of the calls being visited, a node
    with demand that is not unanimously for textures has no candidate and
    every node with demand has been visited (or is a function, which is
    never a producer). *)
Definition addresses (expr : Expr) : gset positive := list_to_set (ptr <$> subterms expr).

Definition function_address (root : Expr) (p : positive) : Prop :=
  exists fn params body primitive,
    FunctionNode fn params body primitive ∈ subterms root /\ addr fn = p.

Record pending (root : Expr) (waiting : gset positive) (st : StorageInfo) : Prop := mkPending {
  pending_candidate :
    forall p demand,
      p ∉ waiting -> consumer_storage_scopes_ st !! p = Some demand ->
      GetConsumerScope demand <> "global.texture" -> storage_scope_ st !! p = None;
  pending_visited :
    forall p demand,
      p ∉ waiting -> consumer_storage_scopes_ st !! p = Some demand ->
      p ∈ visit_counter_ st \/ function_address root p
}.

(** What a visit of [e] does, whatever is waiting. *)
Record visits (root e : Expr) (st st' : StorageInfo) : Prop := mkVisits {
  visits_pending : forall waiting, pending root waiting st -> pending root waiting st';
  visits_grows : visit_counter_ st ⊆ visit_counter_ st';
  visits_frame : visit_counter_ st' ⊆ visit_counter_ st ∪ addresses e
}.

(** A primitive function whose operator has no texture variant, and a
    graph in which the data of scenario A is also read by a call of it. *)
Definition plain_primitive : Expr :=
  let q0 := mkVar (mkNode 31 (tensor [1; 1; 8; 8; 4]) FullyUnconstrained) "q0" in
  FunctionNode (mkNode 30 OtherType FullyUnconstrained) [q0]
    (CallNode (mkNode 33 (tensor [1; 1; 8; 8; 4]) FullyUnconstrained)
              (OpNode (mkNode 34 OtherType FullyUnconstrained) "nn.relu")
              [VarNode q0] NoAttrs)
    true.

Definition shared_input : Expr :=
  CallNode (mkNode 40 (tensor [1; 4; 8; 8; 4]) vd_adreno)
           (OpNode (mkNode 41 OtherType FullyUnconstrained) "add")
           [scenario_A;
            CallNode (mkNode 5 (tensor [1; 1; 8; 8; 4]) vd_adreno) plain_primitive
                     [VarNode (mkVar (mkNode 2 (tensor [1; 1; 8; 8; 4]) vd_adreno) "data")]
                     NoAttrs]
           NoAttrs.

(** A demand table and a candidate table for the loop of lines 72-80:
    node 1 has a demand entry that starts with the texture tag, node 2
    one that only contains it, node 3 has a candidate already. *)
Definition demand_example : gmap positive (list string) :=
  {[ 1%positive := ["global"; "global.texture-weight"];
     2%positive := ["global"; "my.global.texture"];
     3%positive := ["global.texture"] ]}.

Definition candidates_example : gmap positive (list string) :=
  {[ 3%positive := ["global.texture-nhwc"] ]}.

(** The call of [plain_primitive] alone: its input has one consumer,
    which asks for ["global"]. *)
Definition plain_call : Expr :=
  CallNode (mkNode 5 (tensor [1; 1; 8; 8; 4]) vd_adreno) plain_primitive
           [VarNode (mkVar (mkNode 2 (tensor [1; 1; 8; 8; 4]) vd_adreno) "data")]
           NoAttrs.

(** The same call as the body of a function of its argument. *)
Definition plain_function : Expr :=
  FunctionNode (mkNode 20 OtherType vd_adreno)
    [mkVar (mkNode 2 (tensor [1; 1; 8; 8; 4]) vd_adreno) "data"]
    plain_call false.

(** ** Stops

    A result that is a value satisfying [post], or a stop that [stop]
    admits; [stop true msg] is a failed check with message [msg],
    [stop false what] an access outside defined behaviour. *)
Definition stops_with {A : Type} (stop : bool -> string -> Prop) (post : A -> Prop)
    (r : result A) : Prop :=
  match r with
  | Ok a => post a
  | ICheckFail msg => stop true msg
  | Fault what => stop false what
  end.

(** The stops for which the graph is responsible: a type that is neither
    a tensor nor a tuple, fewer arguments than parameters, a dimension
    that is no integer literal, a constrained placement without target. *)
Definition graph_stop (check : bool) (msg : string) : Prop :=
  if check then msg = "tuple_type" \/ msg = "index out of bounds"
  else msg = "null IntImmNode dereferenced" \/ msg = "null Target dereferenced".

Definition no_stop (check : bool) (msg : string) : Prop := False.

(** A node whose scope can be evaluated: the dimensions of a tensor are
    integer literals and a constrained placement has a target. *)
Definition resolved (n : RelayExprNode) : Prop :=
  match checked_type_ n with
  | TensorType shape =>
      Forall (fun d => is_Some (as_IntImm d)) shape /\
      (is_constrained (GetVirtualDevice n) = true -> is_Some (target (GetVirtualDevice n)))
  | _ => True
  end.

(** The leaves of the graph are resolved, and so are the calls of
    primitive functions, which have a tensor or tuple type and an
    argument for each parameter. *)
Definition well_formed (expr : Expr) : Prop :=
  forall e, e ∈ subterms expr ->
            match e with
            | VarNode _ | ConstantNode _ => resolved (node_of e)
            | CallNode call (FunctionNode _ params _ true) args _ =>
                resolved call /\ checked_type_ call <> OtherType /\
                (length params <= length args)%nat
            | _ => True
            end.

(** The calls the device collector reaches have a target when their
    placement is constrained. *)
Definition targeted (expr : Expr) : Prop :=
  forall n, n ∈ device_calls expr ->
            is_constrained (GetVirtualDevice n) = true -> is_Some (target (GetVirtualDevice n)).

(** ** The candidate of a leaf

    [fitted n scopes]: the one scope of [scopes] is the texture scope
    the evaluator gives for the type and placement of [n].
    [refused demand]: some consumer did not ask for a texture. *)
Definition fitted (n : RelayExprNode) (scopes : list string) : Prop :=
  exists shape scope,
    checked_type_ n = TensorType shape /\
    Scope shape (GetVirtualDevice n) = Ok scope /\
    is_texture_scope scope /\ scopes = [scope].

Definition refused (demand : list string) : Prop :=
  exists x, x ∈ demand /\ found x texture_tag = false.

Record leaf_candidate (n : RelayExprNode) (st : StorageInfo) : Prop := mkLeafCandidate {
  leaf_demand :
    forall demand, consumer_storage_scopes_ st !! addr n = Some demand -> demand <> [];
  leaf_scopes :
    forall scopes,
      storage_scope_ st !! addr n = Some scopes ->
      (scopes = ["global"] /\
       exists demand, consumer_storage_scopes_ st !! addr n = Some demand /\ refused demand) \/
      fitted n scopes
}.

(** A node visited before any demand was recorded for it. *)
Definition passed (p : positive) (st : StorageInfo) : Prop :=
  p ∈ visit_counter_ st /\ storage_scope_ st !! p = None.

(** The types for which lines 119-135 write an entry. *)
Definition gives_entry (t : RelayType) : bool :=
  match t with
  | TensorType _ => true
  | TupleType fields => negb (Nat.eqb (length fields) 0)
  | OtherType => false
  end.

(** ** Where the candidates come from

    [candidate_of e scopes]: [scopes] is what the visit of [e] writes as
    the candidate of [e].  For a leaf it is ["global"] or the texture
    scope fitting the leaf; for a call of a primitive function it is the
    scope fitting a tensor result, or ["global.texture"] for each field
    of a tuple result. *)
Definition candidate_of (e : Expr) (scopes : list string) : Prop :=
  match e with
  | VarNode _ | ConstantNode _ => scopes = ["global"] \/ fitted (node_of e) scopes
  | CallNode call op _ _ =>
      is_primitive_function op = true /\
      match checked_type_ call with
      | TensorType shape =>
          exists scope, Scope shape (GetVirtualDevice call) = Ok scope /\ scopes = [scope]
      | TupleType fields =>
          fields <> [] /\ scopes = replicate (length fields) "global.texture"
      | OtherType => False
      end
  | _ => False
  end.

(** The candidates are where the traversal of [root] put them: at nodes
    visited or at the calls [active] being visited, each the candidate
    of the node of [root] at that address. *)
Record placed (root : Expr) (active : gset positive) (st : StorageInfo) : Prop := mkPlaced {
  placed_keys :
    forall p scopes, storage_scope_ st !! p = Some scopes ->
                     p ∈ visit_counter_ st \/ p ∈ active;
  placed_shape :
    forall p scopes, storage_scope_ st !! p = Some scopes ->
                     exists e, e ∈ subterms root /\ ptr e = p /\ candidate_of e scopes
}.
(** * Properties *)

(** ** Arithmetic in [int] *)

Lemma to_int_id (z : Z) : fits_int z -> to_int z = z.
Proof.
  unfold fits_int, int_min, int_max, to_int. intros H.
  rewrite Z.mod_small; lia.
Qed.

Lemma int_mul_exact (a b : Z) : fits_int (a * b) -> int_mul a b = a * b.
Proof. apply to_int_id. Qed.

Lemma abs_diff_exact (l r : Z) : fits_int (Z.abs (l - r)) -> abs_diff l r = Z.abs (l - r).
Proof.
  unfold abs_diff, int_sub. intros H.
  destruct (Z.gtb_spec l r).
  - rewrite Z.abs_eq in * by lia. now apply to_int_id.
  - rewrite Z.abs_neq in * by lia. rewrite <- to_int_id by eassumption. f_equal. lia.
Qed.

Lemma is_constrained_true (vd : VirtualDevice) :
  vd <> FullyUnconstrained -> is_constrained vd = true.
Proof. intros H. unfold is_constrained. now apply bool_decide_eq_true_2. Qed.

Lemma is_constrained_target (vd : VirtualDevice) (t : Target) :
  target vd = Some t -> is_constrained vd = true.
Proof. intros H. apply is_constrained_true. intros ->. discriminate H. Qed.

(** ** The evaluator against the specification's fit test *)

(** Case analysis on the comparisons of a selection, innermost first,
    and their reading as order facts. *)
Ltac split_test :=
  match goal with
  | |- context [diff (if ?c then _ else _)] => destruct c eqn:?
  | |- context [if ?c then _ else _] =>
      lazymatch c with
      | Z.ltb _ _ => destruct c eqn:?
      | Z.eqb _ _ => destruct c eqn:?
      | Z.leb _ _ => destruct c eqn:?
      end
  end.

Ltac order_facts :=
  repeat match goal with
         | H : (_ <? _) = true |- _ => apply Z.ltb_lt in H
         | H : (_ <? _) = false |- _ => apply Z.ltb_ge in H
         | H : (_ =? _) = true |- _ => apply Z.eqb_eq in H
         | H : (_ =? _) = false |- _ => apply Z.eqb_neq in H
         | H : (_ <=? _) = true |- _ => apply Z.leb_le in H
         | H : (_ <=? _) = false |- _ => apply Z.leb_gt in H
         end.


Lemma Scope_FitScope (a0 a1 a2 a3 : Z) (vd : VirtualDevice) (t : Target) :
  target vd = Some t ->
  fits_int (default default_texture_spatial_limit (texture_spatial_limit t)) ->
  in_int_range a0 a1 a2 a3 ->
  Scope [IntImm a0; IntImm a1; IntImm a2; IntImm a3; IntImm 4] vd
  = Ok (FitScope a0 a1 a2 a3 (default default_texture_spatial_limit (texture_spatial_limit t))).
Proof.
  intros Ht Hl (H0 & H1 & H2 & H3 & H01 & H012 & H23 & H12 & H123 & Hd3 & Hd2 & Hd1).
  unfold Scope. rewrite (is_constrained_target _ _ Ht). cbn [length Nat.eqb andb nth].
  unfold IntImm_value, spatial_limit. rewrite Ht. cbn [as_IntImm mbind result_bind Z.eqb Pos.eqb].
  set (limit := default _ _) in *.
  rewrite !to_int_id by assumption.
  rewrite (int_mul_exact a0 a1) by assumption.
  rewrite (int_mul_exact (a0 * a1) a2) by assumption.
  rewrite (int_mul_exact a2 a3) by assumption.
  rewrite (int_mul_exact a1 a2) by assumption.
  rewrite (int_mul_exact (a1 * a2) a3) by assumption.
  rewrite !abs_diff_exact by assumption.
  unfold FitScope, select, reshapes, eligible. cbn [List.filter rows cols].
  set (D3 := Z.abs (a0 * a1 * a2 - a3)).
  set (D2 := Z.abs (a0 * a1 - a2 * a3)).
  set (D1 := Z.abs (a0 - a1 * a2 * a3)).
  assert (E3 : diff (mkCandidate (a0 * a1 * a2) a3 "") = D3) by reflexivity.
  assert (E2 : diff (mkCandidate (a0 * a1) (a2 * a3) "nhwc") = D2) by reflexivity.
  assert (E1 : diff (mkCandidate a0 (a1 * a2 * a3) "weight") = D1) by reflexivity.
  clearbody D3 D2 D1.
  destruct (a0 * a1 * a2 <? limit), (a3 <? limit), (a0 * a1 <? limit), (a2 * a3 <? limit),
    (a0 <? limit), (a1 * a2 * a3 <? limit);
    cbn [andb map_assign fold_left fst]; unfold better; rewrite ?E1, ?E2, ?E3;
    repeat (split_test; cbn [map_assign fold_left fst]; rewrite ?E1, ?E2, ?E3);
    order_facts; first [reflexivity | lia].
Qed.

(** [fold_left better] keeps the least difference, and of equal
    differences the last one. *)
Lemma fold_better_split (cs : list candidate) :
  forall (before : list candidate) (best : candidate) (after : list candidate),
    Forall (fun c => diff best <= diff c) before ->
    Forall (fun c => diff best < diff c) after ->
    exists before' after',
      (before ++ best :: after ++ cs = before' ++ fold_left better cs best :: after')%list /\
      Forall (fun c => diff (fold_left better cs best) <= diff c) before' /\
      Forall (fun c => diff (fold_left better cs best) < diff c) after'.
Proof.
  induction cs as [|c cs IH]; intros before best after Hb Ha.
  - exists before, after. rewrite app_nil_r. auto.
  - cbn [fold_left]. unfold better at 2 4 6. destruct (Z.leb_spec (diff c) (diff best)) as [Hle|Hlt].
    + destruct (IH (before ++ best :: after)%list c []) as (b' & a' & E & Hb' & Ha').
      * apply Forall_app. split.
        -- eapply Forall_impl; [exact Hb|]. cbn. intros; lia.
        -- constructor; [lia|]. eapply Forall_impl; [exact Ha|]. cbn. intros; lia.
      * constructor.
      * exists b', a'. split; [|auto]. rewrite <- E. cbn [app].
        rewrite <- !app_assoc. reflexivity.
    + destruct (IH before best (after ++ [c])%list) as (b' & a' & E & Hb' & Ha').
      * exact Hb.
      * apply Forall_app. split; [exact Ha|]. constructor; [lia|constructor].
      * exists b', a'. split; [|auto]. rewrite <- E.
        rewrite <- !app_assoc. reflexivity.
Qed.

Lemma Scope_short_circuit (shape : list PrimExpr) (vd : VirtualDevice) :
  (length shape <> 5%nat \/ vd = FullyUnconstrained \/
   exists v, nth_error shape 4 = Some (IntImm v) /\ v <> 4) ->
  Scope shape vd = Ok "global".
Proof.
  intros H. unfold Scope.
  destruct (is_constrained vd) eqn:Hc; [|reflexivity].
  destruct (Nat.eqb_spec (length shape) 5) as [Hlen|Hlen]; [|reflexivity].
  cbn [andb].
  destruct H as [H|[H|(v & Hv & Hne)]].
  - contradiction.
  - subst vd. discriminate Hc.
  - rewrite (nth_error_nth _ _ _ Hv). cbn.
    destruct (Z.eqb_spec v 4); [contradiction|reflexivity].
Qed.

(** C3 as amended.  For a shape of five integer literals ending in 4, a
    placement with a target, and dimensions for which every value the
    evaluator computes is representable in [int], the evaluator returns
    ["global"] when no reshape of the four leading dimensions
    (3-vs-1, 2-vs-2, 1-vs-3) has rows and cols below the limit, and
    otherwise ["global.texture"] with the label of the eligible reshape
    of least [|rows - cols|], every later eligible reshape being strictly
    worse (a tie goes to the later one).  For a shape that does not have
    five dimensions, an unconstrained placement, or a literal last
    dimension other than 4, it returns ["global"]. *)
Theorem Scope_fit_test :
  (forall (a0 a1 a2 a3 : Z) (vd : VirtualDevice) (t : Target),
      target vd = Some t ->
      fits_int (default default_texture_spatial_limit (texture_spatial_limit t)) ->
      in_int_range a0 a1 a2 a3 ->
      exists scope,
        Scope [IntImm a0; IntImm a1; IntImm a2; IntImm a3; IntImm 4] vd = Ok scope /\
        let limit := default default_texture_spatial_limit (texture_spatial_limit t) in
        match List.filter (eligible limit) (reshapes a0 a1 a2 a3) with
        | [] => scope = "global"
        | _ :: _ =>
            exists before best after,
              List.filter (eligible limit) (reshapes a0 a1 a2 a3)
              = (before ++ best :: after)%list /\
              Forall (fun c => diff best <= diff c) before /\
              Forall (fun c => diff best < diff c) after /\
              scope = suffixed best
        end) /\
  (forall (shape : list PrimExpr) (vd : VirtualDevice),
      (length shape <> 5%nat \/ vd = FullyUnconstrained \/
       exists v, nth_error shape 4 = Some (IntImm v) /\ v <> 4) ->
      Scope shape vd = Ok "global").
Proof.
  split; [|exact Scope_short_circuit].
  intros a0 a1 a2 a3 vd t Ht Hl Hr.
  eexists. split; [apply (Scope_FitScope _ _ _ _ _ _ Ht Hl Hr)|].
  cbn zeta. unfold FitScope, select.
  destruct (List.filter _ _) as [|c cs]; [reflexivity|].
  destruct (fold_better_split cs [] c []) as (b' & a' & E & Hb & Ha); [constructor..|].
  exists b', (fold_left better cs c), a'. cbn [app] in E. auto.
Qed.

Lemma Scope_fit_test_witness :
  (exists scope,
      Scope [IntImm 2; IntImm 2; IntImm 2; IntImm 2; IntImm 4] vd_adreno = Ok scope /\
      exists before best after,
        List.filter (eligible 16384) (reshapes 2 2 2 2) = (before ++ best :: after)%list /\
        Forall (fun c => diff best <= diff c) before /\
        Forall (fun c => diff best < diff c) after /\
        scope = suffixed best) /\
  Scope [IntImm 1; IntImm 4; IntImm 8; IntImm 8] vd_adreno = Ok "global".
Proof.
  destruct Scope_fit_test as [Hfit Hshort]. split.
  - apply (Hfit 2 2 2 2 vd_adreno adreno).
    + reflexivity.
    + vm_compute. split; discriminate.
    + vm_compute. repeat split; discriminate.
  - apply Hshort. left. cbn. lia.
Defined.

(** C3 as stated fails.  With the reshapes read off the five
    dimensions, [1,4,8,8,4] has the differences 28, 28 and 255 and the
    tie would give "-nhwc"; the evaluator groups the four leading
    dimensions and returns ["global.texture"].  And whichever grouping
    is meant, a dimension beyond [int] is narrowed: no reshape of
    [4294967297,1,1,1,4] is below the limit, yet it gets a texture
    scope. *)
Lemma Scope_fit_counterexample :
  (select 16384 (reshapes_of_five 1 4 8 8 4) = "global.texture-nhwc" /\
   Scope [IntImm 1; IntImm 4; IntImm 8; IntImm 8; IntImm 4] vd_adreno = Ok "global.texture") /\
  (select 16384 (reshapes_of_five 4294967297 1 1 1 4) = "global" /\
   select 16384 (reshapes 4294967297 1 1 1) = "global" /\
   Scope [IntImm 4294967297; IntImm 1; IntImm 1; IntImm 1; IntImm 4] vd_adreno
   = Ok "global.texture-weight").
Proof. repeat split; vm_compute; reflexivity. Qed.

(** A symbolic dimension in front of a last dimension other than 4 is
    not looked at: the scope is ["global"]. *)
Lemma Scope_symbolic_counterexample :
  Scope [SizeVar "n"; IntImm 4; IntImm 8; IntImm 8; IntImm 5] vd_adreno = Ok "global".
Proof. vm_compute. reflexivity. Qed.

(** C8.  On the shape [[n,4,8,8,4]] with a constrained placement the
    evaluator reads the value of the first dimension, which is no
    integer literal, through [as<IntImmNode>()] without a null test: the
    run leaves defined behaviour there and gives no message, where a
    descriptive error is asked for.  The leaf rule tests the same
    pointer before it reads it (lines 241-242). *)
Theorem Scope_symbolic_fault :
  Scope [SizeVar "n"; IntImm 4; IntImm 8; IntImm 8; IntImm 4] vd_adreno
  = Fault "null IntImmNode dereferenced".
Proof. vm_compute. reflexivity. Qed.

(** ** Demand unification *)

Lemma GetConsumerScope_forallb (l : list string) :
  GetConsumerScope l =
  if forallb (fun s => found s texture_tag) l && negb (Nat.eqb (length l) 0)
  then texture_tag else "global".
Proof.
  destruct l as [|s l]; [reflexivity|].
  unfold GetConsumerScope. cbn [length Nat.eqb negb]. now rewrite andb_true_r.
Qed.

(** C5.  The unification gives ["global"] for the empty list and for a
    list with an entry that does not contain the texture tag, and the
    texture tag for a non-empty list all of whose entries contain it. *)
Theorem GetConsumerScope_unanimity :
  GetConsumerScope [] = "global" /\
  (forall l : list string,
      Exists (fun s => found s texture_tag = false) l -> GetConsumerScope l = "global") /\
  (forall l : list string,
      l <> [] -> Forall (fun s => found s texture_tag = true) l ->
      GetConsumerScope l = "global.texture").
Proof.
  split; [reflexivity|]. split.
  - intros l H. rewrite GetConsumerScope_forallb.
    replace (forallb _ l) with false; [reflexivity|].
    symmetry. induction H as [s l Hs|s l _ IH]; cbn [forallb].
    + now rewrite Hs.
    + rewrite IH. apply andb_false_r.
  - intros l Hne H. rewrite GetConsumerScope_forallb.
    replace (forallb _ l) with true.
    + destruct l; [contradiction|reflexivity].
    + symmetry. clear Hne. induction H as [|s l Hs _ IH]; cbn [forallb]; [reflexivity|].
      now rewrite Hs, IH.
Qed.

Lemma GetConsumerScope_unanimity_witness :
  GetConsumerScope ["global.texture"; "global"; "global.texture-nhwc"] = "global" /\
  GetConsumerScope ["global.texture"; "global.texture-weight"] = "global.texture".
Proof.
  destruct GetConsumerScope_unanimity as (_ & Hsome & Hall). split.
  - apply Hsome. right. left. reflexivity.
  - apply Hall; [discriminate|]. repeat constructor.
Defined.

(** ** Legalization *)

Lemma existsb_differs (ref : string) (scopes : list string) :
  existsb (fun scope => negb (String.eqb scope ref)) scopes = true <->
  exists s, s ∈ scopes /\ s <> ref.
Proof.
  induction scopes as [|x scopes IH]; cbn [existsb].
  - split; [discriminate|]. intros (s & Hs & _). inversion Hs.
  - rewrite orb_true_iff, IH. split.
    + intros [H|(s & Hs & Hne)].
      * exists x. split; [left|]. apply negb_true_iff in H. now apply String.eqb_neq in H.
      * exists s. split; [now right|exact Hne].
    + intros (s & Hs & Hne). apply elem_of_cons in Hs as [->|Hs].
      * left. apply negb_true_iff. now apply String.eqb_neq.
      * right. eauto.
Qed.

Lemma HasMixedStorageOutputs_spec (table : gmap positive (list string)) (p : positive)
    (scopes : list string) :
  table !! p = Some scopes -> scopes <> [] ->
  exists b, HasMixedStorageOutputs table p = Ok b /\ (b = true <-> mixed scopes).
Proof.
  intros Hp Hne. unfold HasMixedStorageOutputs. rewrite Hp.
  destruct scopes as [|ref scopes]; [contradiction|].
  eexists. split; [reflexivity|]. rewrite existsb_differs. split.
  - intros (s & Hs & Hd). exists s, ref. split; [exact Hs|]. split; [left|exact Hd].
  - intros (a & b & Ha & Hb & Hab).
    destruct (decide (a = ref)) as [->|Hne'].
    + exists b. split; [exact Hb|]. congruence.
    + exists a. auto.
Qed.

(** One iteration touches the entry of its producer only. *)
Lemma LegalizeProducer_ok (p : positive) (demand : list string)
    (table : gmap positive (list string)) :
  (forall scopes, table !! p = Some scopes -> scopes <> [] /\ ~ mixed scopes) ->
  exists table',
    LegalizeProducer (p, demand) table = Ok table' /\
    table' !! p = legalized demand <$> table !! p /\
    forall q, q <> p -> table' !! q = table !! q.
Proof.
  intros H. unfold LegalizeProducer. cbn [fst snd].
  destruct (table !! p) as [scopes|] eqn:Hp.
  - destruct (H scopes eq_refl) as [Hne Hnm].
    destruct (HasMixedStorageOutputs_spec _ _ _ Hp Hne) as (b & -> & Hb).
    cbn [mbind result_bind]. destruct b; [exfalso; apply Hnm; now apply Hb|].
    destruct scopes as [|first scopes]; [contradiction|]. cbn [legalized fmap option_fmap option_map].
    destruct (found first (GetConsumerScope demand)); cbn [negb].
    + eexists. split; [reflexivity|]. rewrite Hp. auto.
    + eexists. split; [reflexivity|]. rewrite lookup_insert_eq. split; [reflexivity|].
      intros q Hq. now rewrite lookup_insert_ne.
  - eexists. split; [reflexivity|]. rewrite Hp. auto.
Qed.

Lemma LegalizeProducer_mixed (p : positive) (demand scopes : list string)
    (table : gmap positive (list string)) :
  table !! p = Some scopes -> scopes <> [] -> mixed scopes ->
  LegalizeProducer (p, demand) table = ICheckFail mixed_message.
Proof.
  intros Hp Hne Hm. unfold LegalizeProducer. cbn [fst snd]. rewrite Hp.
  destruct (HasMixedStorageOutputs_spec _ _ _ Hp Hne) as (b & -> & Hb).
  apply Hb in Hm. subst b. reflexivity.
Qed.

Lemma legalized_nonempty (demand scopes : list string) :
  scopes <> [] -> legalized demand scopes <> [].
Proof.
  destruct scopes as [|first scopes]; [contradiction|]. intros _. cbn [legalized].
  destruct (found _ _); discriminate.
Qed.

Lemma Legalize_loop_ok (l : list (positive * list string)) :
  NoDup l.*1 ->
  forall table : gmap positive (list string),
    (forall p demand scopes, (p, demand) ∈ l -> table !! p = Some scopes ->
                             scopes <> [] /\ ~ mixed scopes) ->
    exists table',
      foldM LegalizeProducer l table = Ok table' /\
      (forall p demand, (p, demand) ∈ l -> table' !! p = legalized demand <$> table !! p) /\
      (forall p, p ∉ l.*1 -> table' !! p = table !! p).
Proof.
  induction l as [|[p0 d0] l IH]; intros Hnd table Hok.
  - exists table. split; [reflexivity|]. split; [|reflexivity].
    intros p demand H. inversion H.
  - cbn [fmap list_fmap fst] in Hnd. apply NoDup_cons in Hnd as [Hp0 Hnd].
    assert (forall p demand, (p, demand) ∈ l -> p <> p0) as Hfresh.
    { intros p demand Hl ->. apply Hp0. apply list_elem_of_fmap. exists (p0, demand). auto. }
    destruct (LegalizeProducer_ok p0 d0 table) as (t1 & E1 & Hsame & Hother).
    { intros scopes Hs. eapply Hok; [left|exact Hs]. }
    destruct (IH Hnd t1) as (t2 & E2 & Hin & Hout).
    { intros p demand scopes Hl Hs.
      rewrite Hother in Hs by (eapply Hfresh; exact Hl).
      eapply Hok; [right; exact Hl|exact Hs]. }
    exists t2. cbn [foldM]. rewrite E1. cbn [mbind result_bind]. split; [exact E2|]. split.
    + intros p demand Hl. apply elem_of_cons in Hl as [Heq|Hl].
      * injection Heq as -> ->. rewrite Hout by exact Hp0. exact Hsame.
      * rewrite (Hin _ _ Hl). rewrite Hother; [reflexivity|]. eapply Hfresh; exact Hl.
    + intros p Hp. cbn [fmap list_fmap fst] in Hp. apply not_elem_of_cons in Hp as [Hp Hl].
      rewrite Hout by exact Hl. now apply Hother.
Qed.

Lemma Legalize_loop_mixed (l : list (positive * list string)) :
  NoDup l.*1 ->
  forall table : gmap positive (list string),
    (forall p demand scopes, (p, demand) ∈ l -> table !! p = Some scopes -> scopes <> []) ->
    (exists p demand scopes, (p, demand) ∈ l /\ table !! p = Some scopes /\ mixed scopes) ->
    foldM LegalizeProducer l table = ICheckFail mixed_message.
Proof.
  induction l as [|[p0 d0] l IH]; intros Hnd table Hne (p & demand & scopes & Hl & Hs & Hm).
  - inversion Hl.
  - cbn [fmap list_fmap fst] in Hnd. apply NoDup_cons in Hnd as [Hp0 Hnd]. cbn [foldM].
    assert (forall p demand, (p, demand) ∈ l -> p <> p0) as Hfresh.
    { intros q d Hq ->. apply Hp0. apply list_elem_of_fmap. exists (p0, d). auto. }
    assert (forall t1, (forall q, q <> p0 -> t1 !! q = table !! q) ->
                       (p, demand) ∈ l ->
                       foldM LegalizeProducer l t1 = ICheckFail mixed_message) as Hrest.
    { intros t1 Hother Hl'. apply IH; [exact Hnd| |].
      - intros q d sq Hq Hsq. rewrite Hother in Hsq by (eapply Hfresh; exact Hq).
        eapply Hne; [right; exact Hq|exact Hsq].
      - exists p, demand, scopes. rewrite Hother by (eapply Hfresh; exact Hl'). auto. }
    destruct (table !! p0) as [s0|] eqn:E0.
    + assert (s0 <> []) as Hs0 by (eapply Hne; [left|exact E0]).
      destruct (HasMixedStorageOutputs_spec _ _ _ E0 Hs0) as (b & Eb & Hb).
      destruct b.
      * rewrite (LegalizeProducer_mixed _ _ _ _ E0 Hs0); [reflexivity|now apply Hb].
      * destruct (LegalizeProducer_ok p0 d0 table) as (t1 & E1 & Hsame & Hother).
        { intros s Es. rewrite E0 in Es. injection Es as <-. split; [exact Hs0|].
          intros Hmx. apply Hb in Hmx. discriminate. }
        rewrite E1. cbn [mbind result_bind].
        apply elem_of_cons in Hl as [Heq|Hl].
        { injection Heq as -> ->. rewrite E0 in Hs. injection Hs as <-.
          apply Hb in Hm. discriminate. }
        now apply Hrest.
    + apply elem_of_cons in Hl as [Heq|Hl].
      { injection Heq as -> ->. rewrite E0 in Hs. discriminate. }
      destruct (LegalizeProducer_ok p0 d0 table) as (t1 & E1 & Hsame & Hother).
      { intros s Es. rewrite E0 in Es. discriminate. }
      rewrite E1. cbn [mbind result_bind]. now apply Hrest.
Qed.

Lemma map_const_replicate {A B : Type} (x : B) (l : list A) :
  map (fun _ => x) l = replicate (length l) x.
Proof. induction l as [|a l IH]; cbn; [reflexivity|now rewrite IH]. Qed.

(** C4.  With every candidate vector non-empty: if some producer with
    demand has a candidate vector with two different entries, the
    legalization stops on the failed check; otherwise it returns, and
    for a producer with demand a candidate vector whose first entry does
    not contain the unified demand is overwritten with it in every
    position, one that contains it is kept, and a producer without a
    candidate gets none; producers without demand and the other tables
    are untouched. *)
Theorem LegalizeProducerStorage_spec (st : StorageInfo) :
  (forall p demand scopes,
      consumer_storage_scopes_ st !! p = Some demand ->
      storage_scope_ st !! p = Some scopes -> scopes <> []) ->
  ((exists p demand scopes,
       consumer_storage_scopes_ st !! p = Some demand /\
       storage_scope_ st !! p = Some scopes /\ mixed scopes) ->
   LegalizeProducerStorage st
   = ICheckFail "Mixed output storage scopes are not currently supported") /\
  ((forall p demand scopes,
       consumer_storage_scopes_ st !! p = Some demand ->
       storage_scope_ st !! p = Some scopes -> ~ mixed scopes) ->
   exists st',
     LegalizeProducerStorage st = Ok st' /\
     consumer_storage_scopes_ st' = consumer_storage_scopes_ st /\
     args_to_vars_ st' = args_to_vars_ st /\
     (forall p demand first rest,
         consumer_storage_scopes_ st !! p = Some demand ->
         storage_scope_ st !! p = Some (first :: rest) ->
         storage_scope_ st' !! p =
         Some (if found first (GetConsumerScope demand) then first :: rest
               else replicate (length (first :: rest)) (GetConsumerScope demand))) /\
     (forall p, storage_scope_ st !! p = None -> storage_scope_ st' !! p = None) /\
     (forall p, consumer_storage_scopes_ st !! p = None ->
                storage_scope_ st' !! p = storage_scope_ st !! p)).
Proof.
  intros Hne. unfold LegalizeProducerStorage.
  pose proof (NoDup_fst_map_to_list (consumer_storage_scopes_ st)) as Hnd.
  split.
  - intros (p & demand & scopes & Hc & Hs & Hm).
    rewrite (Legalize_loop_mixed _ Hnd (storage_scope_ st)); [reflexivity| |].
    + intros q d sq Hq. apply elem_of_map_to_list in Hq. eauto.
    + exists p, demand, scopes. rewrite elem_of_map_to_list. auto.
  - intros Hnm.
    destruct (Legalize_loop_ok _ Hnd (storage_scope_ st)) as (table & E & Hin & Hout).
    { intros p demand scopes Hl Hs. apply elem_of_map_to_list in Hl. eauto. }
    rewrite E. cbn [mbind result_bind]. eexists. split; [reflexivity|].
    cbn [set_storage_scope consumer_storage_scopes_ args_to_vars_ storage_scope_].
    split; [reflexivity|]. split; [reflexivity|]. split; [|split].
    + intros p demand first rest Hc Hs.
      rewrite (Hin p demand) by now apply elem_of_map_to_list.
      rewrite Hs. cbn [fmap option_fmap option_map legalized].
      destruct (found first (GetConsumerScope demand)); [reflexivity|].
      now rewrite map_const_replicate.
    + intros p Hs. destruct (consumer_storage_scopes_ st !! p) as [demand|] eqn:Hc.
      * rewrite (Hin p demand) by now apply elem_of_map_to_list. now rewrite Hs.
      * rewrite Hout; [exact Hs|]. intros Hl. apply list_elem_of_fmap in Hl as ([q d] & -> & Hl).
        apply elem_of_map_to_list in Hl. cbn in Hc. congruence.
    + intros p Hc. apply Hout. intros Hl. apply list_elem_of_fmap in Hl as ([q d] & -> & Hl).
      apply elem_of_map_to_list in Hl. cbn in Hc. congruence.
Qed.

Lemma LegalizeProducerStorage_spec_witness :
  LegalizeProducerStorage mixed_example
  = ICheckFail "Mixed output storage scopes are not currently supported" /\
  exists st',
    LegalizeProducerStorage legalize_example = Ok st' /\
    storage_scope_ st' !! 1%positive = Some ["global.texture"; "global.texture"].
Proof.
  split.
  - apply (LegalizeProducerStorage_spec mixed_example).
    + intros p demand scopes _ Hs. unfold mixed_example in Hs. cbn [storage_scope_] in Hs.
      apply lookup_singleton_Some in Hs as [_ <-]. discriminate.
    + exists 1%positive, ["global"], ["global.texture"; "global"].
      split; [reflexivity|]. split; [reflexivity|].
      exists "global.texture", "global". split; [left|]. split; [right; left|discriminate].
  - destruct (LegalizeProducerStorage_spec legalize_example) as [_ H].
    + intros p demand scopes _ Hs. unfold legalize_example in Hs. cbn [storage_scope_] in Hs.
      apply lookup_singleton_Some in Hs as [_ <-]. discriminate.
    + destruct H as (st' & E & _ & _ & Hover & _).
      * intros p demand scopes _ Hs (a & b & Ha & Hb & Hab).
        unfold legalize_example in Hs. cbn [storage_scope_] in Hs.
        apply lookup_singleton_Some in Hs as [_ <-].
        apply elem_of_cons in Ha as [->|Ha]; apply elem_of_cons in Hb as [->|Hb];
          repeat match goal with
                 | H : _ ∈ [_] |- _ => apply list_elem_of_singleton in H; subst
                 end; congruence.
      * exists st'. split; [exact E|].
        rewrite (Hover 1%positive ["global.texture"; "global.texture"] "global"
                       ["global"]) by reflexivity.
        reflexivity.
Defined.

(** ** Demand recorded by a call *)

Lemma RecordConsumerScope_ok (call : RelayExprNode) (arg : Expr) (st : StorageInfo) :
  (forall scopes, storage_scope_ st !! addr call = Some scopes ->
                  scopes <> [] /\ ~ mixed scopes) ->
  RecordConsumerScope call arg st
  = Ok (set_consumer_storage_scopes
          (push_back (ptr arg) (recorded_entry call st) (consumer_storage_scopes_ st)) st).
Proof.
  intros H. unfold RecordConsumerScope, recorded_entry, has_key.
  case_bool_decide as Hk; [|reflexivity].
  destruct Hk as [scopes Hs]. destruct (H _ Hs) as [Hne Hnm].
  destruct (HasMixedStorageOutputs_spec _ _ _ Hs Hne) as (b & -> & Hb).
  destruct b; [exfalso; apply Hnm; now apply Hb|reflexivity].
Qed.

Lemma lookup_push_back {A : Type} (k p : positive) (x : A) (table : gmap positive (list A)) :
  push_back k x table !! p =
  if decide (k = p) then Some (default [] (table !! p) ++ [x])%list else table !! p.
Proof.
  unfold push_back. case_decide as Hk.
  - subst. apply lookup_insert_eq.
  - now apply lookup_insert_ne.
Qed.

(** C2 as amended.  When the candidate vector of the call, if there is
    one, is non-empty and uniform, the loop returns, leaves the candidate
    table alone, and appends to the demand of every argument, once per
    edge, ["global.texture"] if the call has an entry in the candidate
    table (whatever scope it holds) and ["global"] if it has none. *)
Theorem RecordConsumerScopes_entries (call : RelayExprNode) (args : list Expr) :
  forall st : StorageInfo,
    (forall scopes, storage_scope_ st !! addr call = Some scopes ->
                    scopes <> [] /\ ~ mixed scopes) ->
    exists st',
      RecordConsumerScopes call args st = Ok st' /\
      storage_scope_ st' = storage_scope_ st /\
      forall p,
        consumer_storage_scopes_ st' !! p =
        match occurrences p (ptr <$> args) with
        | O => consumer_storage_scopes_ st !! p
        | S _ as n =>
            Some (default [] (consumer_storage_scopes_ st !! p)
                  ++ replicate n (if has_key (addr call) (storage_scope_ st)
                                  then "global.texture" else "global"))%list
        end.
Proof.
  unfold RecordConsumerScopes.
  induction args as [|arg args IH]; intros st H.
  - exists st. repeat split.
  - cbn [foldM]. rewrite (RecordConsumerScope_ok _ _ _ H). cbn [mbind result_bind].
    set (st1 := set_consumer_storage_scopes _ st).
    destruct (IH st1 H) as (st' & E & Hs & Hc). exists st'.
    split; [exact E|]. split; [exact Hs|]. intros p. rewrite Hc.
    fold (recorded_entry call st1). fold (recorded_entry call st).
    change (recorded_entry call st1) with (recorded_entry call st).
    subst st1. cbn [set_consumer_storage_scopes consumer_storage_scopes_].
    rewrite lookup_push_back. unfold occurrences. cbn [fmap list_fmap].
    rewrite filter_cons. case_decide as Hp.
    + subst p. cbn [length default].
      destruct (length _) as [|n]; cbn [replicate]; [reflexivity|].
      unfold id. now rewrite <- app_assoc.
    + reflexivity.
Qed.

Lemma RecordConsumerScopes_entries_witness :
  exists st',
    RecordConsumerScopes (mkNode 1 OtherType FullyUnconstrained)
      [ConstantNode (mkNode 2 OtherType FullyUnconstrained)]
      (mkStorageInfo true {[ 1%positive := ["global"] ]} ∅ ∅ ∅) = Ok st' /\
    consumer_storage_scopes_ st' !! 2%positive = Some ["global.texture"].
Proof.
  destruct (RecordConsumerScopes_entries (mkNode 1 OtherType FullyUnconstrained)
              [ConstantNode (mkNode 2 OtherType FullyUnconstrained)]
              (mkStorageInfo true {[ 1%positive := ["global"] ]} ∅ ∅ ∅))
    as (st' & E & _ & Hc).
  - intros scopes Hs. cbn [storage_scope_ addr] in Hs.
    apply lookup_singleton_Some in Hs as [_ <-]. split; [discriminate|].
    intros (a & b & Ha & Hb & Hab).
    apply list_elem_of_singleton in Ha, Hb. congruence.
  - exists st'. split; [exact E|]. rewrite Hc. reflexivity.
Defined.

(** C2 as stated fails: a convolution whose result is too large for a
    texture is given the candidate ["global"], which is no texture
    scope, and its arguments are still sent ["global.texture"]. *)
Lemma demand_without_texture_counterexample :
  exists st,
    VisitExpr conv_large StorageInfo_init = Ok st /\
    storage_scope_ st !! 1%positive = Some ["global"] /\
    found "global" "global.texture" = false /\
    consumer_storage_scopes_ st !! 2%positive = Some ["global.texture"] /\
    consumer_storage_scopes_ st !! 3%positive = Some ["global.texture"].
Proof. eexists. split; [vm_compute; reflexivity|]. repeat split. Qed.

(** ** Induction over expressions *)

Section ExprInd.
Variable P : Expr -> Prop.
Hypothesis Hvar : forall v, P (VarNode v).
Hypothesis Hconst : forall n, P (ConstantNode n).
Hypothesis Hcall : forall n op args attrs, P op -> Forall P args -> P (CallNode n op args attrs).
Hypothesis Hfun : forall n params body primitive, P body -> P (FunctionNode n params body primitive).
Hypothesis Hop : forall n name, P (OpNode n name).

Fixpoint Expr_nested_ind (e : Expr) : P e :=
  match e with
  | VarNode v => Hvar v
  | ConstantNode n => Hconst n
  | CallNode n op args attrs =>
      Hcall n op args attrs (Expr_nested_ind op)
            ((fix go (l : list Expr) : Forall P l :=
                match l with
                | [] => @List.Forall_nil _ P
                | a :: l' => @List.Forall_cons _ P a l' (Expr_nested_ind a) (go l')
                end) args)
  | FunctionNode n params body primitive => Hfun n params body primitive (Expr_nested_ind body)
  | OpNode n name => Hop n name
  end.
End ExprInd.

(** ** Unfolding the traversal *)

Lemma bind_Ok {A B : Type} (r : result A) (k : A -> result B) (b : B) :
  (r ≫= k) = Ok b -> exists a, r = Ok a /\ k a = Ok b.
Proof. destruct r as [a| |]; cbn; intros H; [eauto|discriminate..]. Qed.

Lemma VisitExpr_call (call : RelayExprNode) (op : Expr) (args : list Expr) (attrs : Attrs)
    (st : StorageInfo) :
  VisitExpr (CallNode call op args attrs) st =
  if bool_decide (addr call ∈ visit_counter_ st) then Ok st
  else st' ← DeviceAwareVisitExpr_ call op args attrs st; Ok (mark_visited (addr call) st').
Proof. reflexivity. Qed.

Lemma VisitExpr_function (n : RelayExprNode) (params : list Var) (body : Expr) (primitive : bool)
    (st : StorageInfo) :
  VisitExpr (FunctionNode n params body primitive) st =
  if bool_decide (addr n ∈ visit_counter_ st) then Ok st
  else st' ← (st1 ← foldM VisitVar params st; VisitExpr body st1);
       Ok (mark_visited (addr n) st').
Proof. reflexivity. Qed.

Lemma VisitExpr_var (v : Var) (st : StorageInfo) : VisitExpr (VarNode v) st = VisitVar v st.
Proof. reflexivity. Qed.

Lemma VisitExpr_constant (n : RelayExprNode) (st : StorageInfo) :
  VisitExpr (ConstantNode n) st = VisitVar (mkVar n "") st.
Proof. reflexivity. Qed.

Lemma VisitExpr_op (n : RelayExprNode) (name : string) (st : StorageInfo) :
  VisitExpr (OpNode n name) st =
  if bool_decide (addr n ∈ visit_counter_ st) then Ok st else Ok (mark_visited (addr n) st).
Proof. reflexivity. Qed.

Lemma foldM_preserves {A S : Type} (f : A -> S -> result S) (Q : S -> Prop) (l : list A) :
  Forall (fun a => forall s s', Q s -> f a s = Ok s' -> Q s') l ->
  forall s s', Q s -> foldM f l s = Ok s' -> Q s'.
Proof.
  induction 1 as [|a l Ha _ IH]; intros s s' HQ E; cbn [foldM] in E.
  - now injection E as <-.
  - apply bind_Ok in E as (s1 & E1 & E2). eauto.
Qed.

(** ** What a traversal preserves

    A property of the analysis state that every elementary update keeps
    is kept by [VisitExpr].  The updates are those of the leaf rule, of
    the candidate of a call to a primitive (for calls in [calls], binding
    variables in [params]), of the demand of an argument (in [sites]) and
    of the retraction. *)

Section VisitPreserves.
Variables sites calls params : gset positive.
Variable Q : StorageInfo -> Prop.

Hypothesis Q_flag : forall b st, Q st -> Q (set_flag b st).
Hypothesis Q_mark : forall p st, Q st -> Q (mark_visited p st).
Hypothesis Q_leaf : forall n st st', Q st -> ApplyConsumerScopeToInputs n st = Ok st' -> Q st'.
Hypothesis Q_assign :
  forall call vars args st st',
    addr call ∈ calls -> Forall (fun v => addr (var_node v) ∈ params) vars ->
    Q st -> AssignAndBind call vars args st = Ok st' -> Q st'.
Hypothesis Q_record :
  forall call arg st st',
    ptr arg ∈ sites -> Q st -> RecordConsumerScope call arg st = Ok st' -> Q st'.
Hypothesis Q_retract : forall st arg, Q st -> Q (RetractArg st arg).

Lemma preserved_VisitVar (v : Var) (st st' : StorageInfo) :
  Q st -> VisitVar v st = Ok st' -> Q st'.
Proof.
  intros HQ. unfold VisitVar. case_bool_decide; [intros [= <-]; exact HQ|].
  intros E. apply bind_Ok in E as (st1 & E1 & [= <-]). eauto.
Qed.

Lemma preserved_VisitVars (vars : list Var) (st st' : StorageInfo) :
  Q st -> foldM VisitVar vars st = Ok st' -> Q st'.
Proof.
  apply (foldM_preserves VisitVar Q). apply Forall_forall.
  intros v _ s s'. apply preserved_VisitVar.
Qed.

Lemma preserved_RetractArgs (args : list Expr) (st : StorageInfo) :
  Q st -> Q (RetractArgs args st).
Proof.
  unfold RetractArgs. revert st.
  induction args as [|arg args IH]; intros st HQ; cbn [fold_left]; [exact HQ|].
  apply IH. now apply Q_retract.
Qed.

Lemma preserved_RecordConsumerScopes (call : RelayExprNode) (args : list Expr)
    (st st' : StorageInfo) :
  Forall (fun arg => ptr arg ∈ sites) args ->
  Q st -> RecordConsumerScopes call args st = Ok st' -> Q st'.
Proof.
  intros Hk. apply (foldM_preserves _ Q).
  eapply Forall_impl; [exact Hk|]. cbn. intros arg Ha s s'. now apply Q_record.
Qed.

Lemma subseteq_union_list (f : Expr -> gset positive) (args : list Expr) (arg : Expr) :
  arg ∈ args -> f arg ⊆ ⋃ (f <$> args).
Proof.
  intros Ha p Hp. apply elem_of_union_list. exists (f arg). split; [|exact Hp].
  apply list_elem_of_fmap. eauto.
Qed.

(** The statement proved by induction: the traversal of [expr], and of
    the body when [expr] is a function (which is how [Visit] and the
    call case enter a function). *)
Lemma VisitExpr_preserves_body (expr : Expr) :
  demand_sites expr ⊆ sites -> primitive_calls expr ⊆ calls ->
  primitive_params expr ⊆ params ->
  (forall st st', Q st -> VisitExpr expr st = Ok st' -> Q st') /\
  match expr with
  | FunctionNode _ _ body _ => forall st st', Q st -> VisitExpr body st = Ok st' -> Q st'
  | _ => True
  end.
Proof.
  induction expr as [v|n|call op args attrs IHop IHargs|n ps body primitive IH|n name]
    using Expr_nested_ind; intros Hs Hc Hp.
  - split; [|exact I]. intros st st' HQ. rewrite VisitExpr_var. now apply preserved_VisitVar.
  - split; [|exact I]. intros st st' HQ. rewrite VisitExpr_constant.
    now apply preserved_VisitVar.
  - split; [|exact I]. intros st st' HQ. rewrite VisitExpr_call.
    case_bool_decide; [now intros [= <-]|]. intros E.
    apply bind_Ok in E as (st4 & E & [= <-]). apply Q_mark.
    unfold DeviceAwareVisitExpr_ in E. apply bind_Ok in E as (st1 & E1 & E).
    apply bind_Ok in E as (st3 & E3 & [= <-]). apply preserved_RetractArgs.
    cbn [demand_sites primitive_calls primitive_params] in Hs, Hc, Hp.
    assert (Q st1) as HQ1.
    { destruct op as [| | |fn vars body prim|]; try (injection E1 as <-; exact HQ).
      destruct prim; [|injection E1 as <-; exact HQ].
      destruct IHop as [_ Hbody]; [set_solver..|].
      unfold VisitPrimitive in E1.
      apply bind_Ok in E1 as (sa & Ea & E1). apply bind_Ok in E1 as (sb & Eb & E1).
      apply bind_Ok in E1 as (sc & Ec & E1).
      apply (preserved_RecordConsumerScopes call args sc); [| |exact E1].
      { apply Forall_forall. intros arg Ha.
        assert (ptr arg ∈ (list_to_set (ptr <$> args) : gset positive)); [|set_solver].
        apply elem_of_list_to_set, list_elem_of_fmap. eauto. }
      apply (Q_assign call vars args sb); [set_solver| | |exact Ec].
      { apply Forall_forall. intros v Hv.
        assert (addr (var_node v) ∈
                (list_to_set ((fun v => addr (var_node v)) <$> vars) : gset positive));
          [|set_solver].
        apply elem_of_list_to_set, list_elem_of_fmap. eauto. }
      apply (preserved_VisitVars vars sa); [|exact Eb].
      apply (Hbody (set_flag false st)); [|exact Ea]. now apply Q_flag. }
    revert E3. apply (foldM_preserves Visit Q); [|now apply Q_flag].
    apply Forall_forall. intros arg Ha s s' HQs.
    rewrite Forall_forall in IHargs.
    pose proof (subseteq_union_list demand_sites args arg Ha).
    pose proof (subseteq_union_list primitive_calls args arg Ha).
    pose proof (subseteq_union_list primitive_params args arg Ha).
    destruct (IHargs arg Ha) as [Hv Hb]; [set_solver..|].
    destruct arg; cbn [Visit]; try (now apply Hv).
    intros E. apply bind_Ok in E as (s1 & E1' & E2). eauto using preserved_VisitVars.
  - cbn [demand_sites primitive_calls primitive_params] in Hs, Hc, Hp.
    destruct (IH Hs Hc Hp) as [Hbody _]. split; [|exact Hbody].
    intros st st' HQ. rewrite VisitExpr_function.
    case_bool_decide; [now intros [= <-]|]. intros E.
    apply bind_Ok in E as (st2 & E & [= <-]). apply Q_mark.
    apply bind_Ok in E as (st1 & E1 & E2).
    eauto using preserved_VisitVars.
  - split; [|exact I]. intros st st' HQ. rewrite VisitExpr_op.
    case_bool_decide; intros [= <-]; [exact HQ|now apply Q_mark].
Qed.

Lemma VisitExpr_preserves (expr : Expr) (st st' : StorageInfo) :
  demand_sites expr ⊆ sites -> primitive_calls expr ⊆ calls ->
  primitive_params expr ⊆ params ->
  Q st -> VisitExpr expr st = Ok st' -> Q st'.
Proof. intros Hs Hc Hp. now apply VisitExpr_preserves_body. Qed.
End VisitPreserves.

(** ** The tables during a traversal *)

Section Collected.
Variables sites calls params : gset positive.

Local Abbreviation good := (collected sites calls params).

Lemma collected_tables (st st' : StorageInfo) :
  storage_scope_ st' = storage_scope_ st ->
  consumer_storage_scopes_ st' = consumer_storage_scopes_ st ->
  args_to_vars_ st' = args_to_vars_ st ->
  good st -> good st'.
Proof. intros E1 E2 E3 [? ? ? ? ?]. constructor; rewrite ?E1, ?E2, ?E3; assumption. Qed.

Lemma collected_set_flag (b : bool) (st : StorageInfo) : good st -> good (set_flag b st).
Proof. now apply collected_tables. Qed.

Lemma collected_mark_visited (p : positive) (st : StorageInfo) :
  good st -> good (mark_visited p st).
Proof. now apply collected_tables. Qed.

Lemma dom_push_back {A : Type} (k : positive) (x : A) (table : gmap positive (list A)) :
  dom (push_back k x table) = {[ k ]} ∪ dom table.
Proof. unfold push_back. apply dom_insert_L. Qed.

Lemma collected_push_scope (k : positive) (x : string) (st : StorageInfo) :
  k ∈ dom (consumer_storage_scopes_ st) ∪ calls ->
  good st -> good (set_storage_scope (push_back k x (storage_scope_ st)) st).
Proof.
  intros Hk [H1 H2 H3 H4 H5]. constructor; cbn; try assumption.
  - rewrite dom_push_back. set_solver.
  - unfold push_back. apply map_Forall_insert_2; [|exact H4].
    destruct (default [] _); discriminate.
Qed.

Lemma collected_push_demand (k : positive) (x : string) (st : StorageInfo) :
  k ∈ sites -> x = "global" \/ x = "global.texture" ->
  good st ->
  good (set_consumer_storage_scopes (push_back k x (consumer_storage_scopes_ st)) st).
Proof.
  intros Hk Hx [H1 H2 H3 H4 H5]. constructor; cbn; try assumption.
  - unfold push_back. apply map_Forall_insert_2; [|exact H1].
    apply Forall_app. split; [|constructor; [exact Hx|constructor]].
    destruct (consumer_storage_scopes_ st !! k) as [d|] eqn:E; cbn; [|constructor].
    exact (H1 _ _ E).
  - rewrite dom_push_back. set_solver.
  - rewrite dom_push_back. set_solver.
Qed.

Lemma collected_delete_scope (k : positive) (st : StorageInfo) :
  good st -> good (set_storage_scope (delete k (storage_scope_ st)) st).
Proof.
  intros [H1 H2 H3 H4 H5]. constructor; cbn; try assumption.
  - rewrite dom_delete_L. set_solver.
  - now apply map_Forall_delete.
Qed.

Lemma collected_Apply (n : RelayExprNode) (st st' : StorageInfo) :
  good st -> ApplyConsumerScopeToInputs n st = Ok st' -> good st'.
Proof.
  intros HQ. unfold ApplyConsumerScopeToInputs.
  destruct (consumer_storage_scopes_ st !! addr n) as [demand|] eqn:Hd;
    [|intros [= <-]; exact HQ].
  destruct (has_key _ _); [discriminate|]. intros E.
  apply bind_Ok in E as ([scope vec] & _ & E).
  assert (addr n ∈ dom (consumer_storage_scopes_ st) ∪ calls) as Hk.
  { apply elem_of_union_l, elem_of_dom. eauto. }
  destruct (found _ _); [destruct vec|]; injection E as <-;
    auto using collected_push_scope.
Qed.

Lemma collected_push_scopes {A : Type} (k : positive) (x : string) (fields : list A) :
  k ∈ calls ->
  forall st, good st ->
    good (set_storage_scope
            (fold_left (fun table _ => push_back k x table) fields (storage_scope_ st)) st).
Proof.
  intros Hk. induction fields as [|f fields IH]; intros st HQ; cbn [fold_left].
  - now apply (collected_tables st).
  - apply (IH (set_storage_scope (push_back k x (storage_scope_ st)) st)).
    apply collected_push_scope; [set_solver|exact HQ].
Qed.

Lemma collected_AssignCallScope (call : RelayExprNode) (st st' : StorageInfo) :
  addr call ∈ calls -> good st -> AssignCallScope call st = Ok st' -> good st'.
Proof.
  intros Hk HQ. unfold AssignCallScope. destruct (checked_type_ call) as [shape|fields|].
  - intros E. apply bind_Ok in E as (scope & _ & [= <-]).
    apply collected_push_scope; [set_solver|exact HQ].
  - intros [= <-]. now apply collected_push_scopes.
  - discriminate.
Qed.

Lemma BindArgsToVars_bound (vars : list Var) :
  Forall (fun v => addr (var_node v) ∈ params) vars ->
  forall (args : list Expr) (table table' : gmap positive (list Var)),
    map_Forall (fun _ vs => Forall (fun v => addr (var_node v) ∈ params) vs) table ->
    BindArgsToVars args vars table = Ok table' ->
    map_Forall (fun _ vs => Forall (fun v => addr (var_node v) ∈ params) vs) table'.
Proof.
  induction 1 as [|v vars Hv _ IH]; intros args table table' Ht; cbn [BindArgsToVars].
  - now intros [= <-].
  - destruct args as [|arg args]; [discriminate|]. apply IH.
    unfold push_back. apply map_Forall_insert_2; [|exact Ht].
    apply Forall_app. split; [|constructor; [exact Hv|constructor]].
    destruct (table !! ptr arg) as [d|] eqn:E; cbn; [|constructor].
    exact (Ht _ _ E).
Qed.

Lemma collected_AssignAndBind (call : RelayExprNode) (vars : list Var) (args : list Expr)
    (st st' : StorageInfo) :
  addr call ∈ calls ->
  Forall (fun v => addr (var_node v) ∈ params) vars ->
  good st -> AssignAndBind call vars args st = Ok st' -> good st'.
Proof.
  intros Hk Hv HQ. unfold AssignAndBind.
  destruct (primitive_supports_texture_ st); [|now intros [= <-]].
  intros E. apply bind_Ok in E as (st1 & E1 & E).
  apply bind_Ok in E as (table & E2 & [= <-]).
  pose proof (collected_AssignCallScope _ _ _ Hk HQ E1) as [H1 H2 H3 H4 H5].
  constructor; cbn; try assumption.
  eapply BindArgsToVars_bound; eassumption.
Qed.

Lemma collected_RecordConsumerScope (call : RelayExprNode) (arg : Expr) (st st' : StorageInfo) :
  ptr arg ∈ sites -> good st -> RecordConsumerScope call arg st = Ok st' -> good st'.
Proof.
  intros Hk HQ. unfold RecordConsumerScope. destruct (has_key _ _).
  - intros E. apply bind_Ok in E as (b & _ & E). destruct b; [discriminate|].
    injection E as <-. apply collected_push_demand; auto.
  - intros [= <-]. apply collected_push_demand; auto.
Qed.

Lemma collected_RetractArg (st : StorageInfo) (arg : Expr) : good st -> good (RetractArg st arg).
Proof.
  intros HQ. unfold RetractArg.
  destruct (consumer_storage_scopes_ st !! ptr arg); [|exact HQ].
  destruct (negb _); [|exact HQ].
  pose proof (collected_delete_scope (ptr arg) st HQ) as HQ1.
  destruct arg as [| |n op ? ?| |]; try exact HQ1.
  destruct op; try exact HQ1.
  exact (collected_delete_scope _ _ HQ1).
Qed.

(** [collected] is kept by the traversal of an expression whose sites,
    calls and parameters are within the bounds. *)
Lemma collected_VisitExpr (expr : Expr) (st st' : StorageInfo) :
  demand_sites expr ⊆ sites -> primitive_calls expr ⊆ calls ->
  primitive_params expr ⊆ params ->
  good st -> VisitExpr expr st = Ok st' -> good st'.
Proof.
  apply (VisitExpr_preserves sites calls params good).
  - exact collected_set_flag.
  - exact collected_mark_visited.
  - exact collected_Apply.
  - exact collected_AssignAndBind.
  - exact collected_RecordConsumerScope.
  - exact collected_RetractArg.
Qed.
End Collected.

Lemma collected_init (sites calls params : gset positive) :
  collected sites calls params StorageInfo_init.
Proof.
  constructor; cbn;
    [apply map_Forall_empty|set_solver|set_solver|apply map_Forall_empty|apply map_Forall_empty].
Qed.

(** The tables of a whole analysis. *)
Lemma collected_Analyze (expr : Expr) (st : StorageInfo) :
  Analyze expr = Ok st ->
  collected (demand_sites expr) (primitive_calls expr) (primitive_params expr) st.
Proof.
  unfold Analyze. intros E. apply bind_Ok in E as (st0 & E0 & E).
  assert (collected (demand_sites expr) (primitive_calls expr) (primitive_params expr) st0)
    as HQ.
  { eapply collected_VisitExpr; [reflexivity..|apply collected_init|exact E0]. }
  unfold LegalizeProducerStorage in E. apply bind_Ok in E as (table & E1 & [= <-]).
  destruct HQ as [H1 H2 H3 H4 H5].
  assert (dom table = dom (storage_scope_ st0) /\
          map_Forall (fun _ scopes => scopes <> []) table) as [Hd Hn].
  { clear H1 H2 H3 H5. revert E1 H4. generalize (storage_scope_ st0).
    induction (map_to_list (consumer_storage_scopes_ st0)) as [|[p d] l IH];
      intros t E1 H4; cbn [foldM] in E1.
    - injection E1 as <-. auto.
    - apply bind_Ok in E1 as (t1 & Et & E1).
      assert (dom t1 = dom t /\ map_Forall (fun _ scopes => scopes <> []) t1) as [Hd1 Hn1].
      { unfold LegalizeProducer in Et. cbn [fst snd] in Et.
        destruct (t !! p) as [scopes|] eqn:Hp; [|injection Et as <-; auto].
        apply bind_Ok in Et as (b & _ & Et). destruct b; [discriminate|].
        destruct scopes as [|first rest]; [discriminate|].
        destruct (negb _); injection Et as <-; [|auto]. split.
        - rewrite dom_insert_L. apply elem_of_dom_2 in Hp. set_solver.
        - apply map_Forall_insert_2; [discriminate|exact H4]. }
      destruct (IH t1 E1 Hn1) as [Hd2 Hn2]. split; [congruence|exact Hn2]. }
  constructor; cbn; try assumption. now rewrite Hd.
Qed.

(** ** The completion loops of [GetStorageMap] *)

Lemma fold_FillInput_lookup (l : list (positive * list string)) :
  NoDup l.*1 ->
  forall (storage_map : gmap positive (list string)) (p : positive),
    fold_left FillInput l storage_map !! p =
    match storage_map !! p with
    | Some scopes => Some scopes
    | None =>
        match (list_to_map l : gmap positive (list string)) !! p with
        | Some demand => if CanConsumeTextures demand then Some ["global"] else None
        | None => None
        end
    end.
Proof.
  induction l as [|[k d] l IH]; intros Hnd m p; cbn [fold_left].
  - cbn [list_to_map foldr]. rewrite lookup_empty. now destruct (m !! p).
  - cbn [fmap list_fmap fst] in Hnd. apply NoDup_cons in Hnd as [Hk Hnd].
    rewrite (IH Hnd). cbn [list_to_map foldr uncurry]. unfold FillInput, has_key. cbn [fst snd].
    destruct (decide (p = k)) as [->|Hp].
    + rewrite lookup_insert_eq.
      rewrite (not_elem_of_list_to_map_1 (M := gmap positive) l k Hk).
      destruct (m !! k) as [s|] eqn:Hm.
      * rewrite bool_decide_eq_true_2 by eauto. rewrite andb_false_r. now rewrite Hm.
      * rewrite bool_decide_eq_false_2 by (intros [? ?]; discriminate).
        rewrite andb_true_r. destruct (CanConsumeTextures d).
        -- now rewrite lookup_insert_eq.
        -- now rewrite Hm.
    + rewrite (lookup_insert_ne _ k p) by congruence.
      destruct (_ && _); [|reflexivity]. now rewrite lookup_insert_ne by congruence.
Qed.

Lemma FillInputs_lookup (consumer storage_map : gmap positive (list string)) (p : positive) :
  FillInputs consumer storage_map !! p =
  match storage_map !! p with
  | Some scopes => Some scopes
  | None =>
      match consumer !! p with
      | Some demand => if CanConsumeTextures demand then Some ["global"] else None
      | None => None
      end
  end.
Proof.
  unfold FillInputs. rewrite fold_FillInput_lookup by apply NoDup_fst_map_to_list.
  now rewrite list_to_map_to_list.
Qed.

Lemma AddVars_other (p : positive) (a : positive * list Var)
    (storage_map : gmap positive (list string)) :
  Forall (fun v => addr (var_node v) <> p) (snd a) ->
  AddVars storage_map a !! p = storage_map !! p.
Proof.
  unfold AddVars. destruct (storage_map !! fst a); [|reflexivity].
  generalize storage_map. induction (snd a) as [|v vars IH]; intros m Hv; cbn [fold_left].
  - reflexivity.
  - apply Forall_cons in Hv as [Hv Hvars]. rewrite IH by exact Hvars.
    destruct (m !! fst a); [|reflexivity]. now apply lookup_insert_ne.
Qed.

Lemma AddVarsAll_other (p : positive) (args_to_vars : gmap positive (list Var))
    (storage_map : gmap positive (list string)) :
  map_Forall (fun _ vars => Forall (fun v => addr (var_node v) <> p) vars) args_to_vars ->
  AddVarsAll args_to_vars storage_map !! p = storage_map !! p.
Proof.
  intros H. unfold AddVarsAll.
  assert (Forall (fun a : positive * list Var =>
                    Forall (fun v => addr (var_node v) <> p) (snd a))
                 (map_to_list args_to_vars)) as Hl.
  { apply Forall_forall. intros [k vars] Hk. apply elem_of_map_to_list in Hk. exact (H _ _ Hk). }
  revert storage_map. induction Hl as [|a l Ha _ IH]; intros m; cbn [fold_left]; [reflexivity|].
  rewrite IH. now apply AddVars_other.
Qed.

Lemma GetStorageMap_Analyze (expr : Expr) (storage_map : gmap positive (list string)) :
  GetStorageMap expr = Ok storage_map ->
  exists st,
    Analyze expr = Ok st /\
    storage_map = AddVarsAll (args_to_vars_ st)
                    (FillInputs (consumer_storage_scopes_ st) (storage_scope_ st)).
Proof.
  unfold GetStorageMap. intros E. apply bind_Ok in E as (st & E & [= <-]). eauto.
Qed.

(** Parameters of primitive functions are the only keys the last loop
    writes. *)
Lemma GetStorageMap_other (expr : Expr) (st : StorageInfo)
    (storage_map : gmap positive (list string)) (p : positive) :
  Analyze expr = Ok st -> GetStorageMap expr = Ok storage_map ->
  p ∉ primitive_params expr ->
  storage_map !! p = FillInputs (consumer_storage_scopes_ st) (storage_scope_ st) !! p.
Proof.
  intros Ha Hg Hp. apply GetStorageMap_Analyze in Hg as (st' & Ha' & ->).
  rewrite Ha in Ha'. injection Ha' as <-.
  apply AddVarsAll_other.
  pose proof (bound_vars _ _ _ _ (collected_Analyze _ _ Ha)) as Hb.
  intros k vars Hk. eapply Forall_impl; [exact (Hb _ _ Hk)|].
  cbn. intros v Hv Heq. apply Hp. now rewrite <- Heq.
Qed.

Lemma tag_found_at_0 (s : string) :
  s = "global" \/ s = "global.texture" ->
  found s texture_tag = true -> found_at_0 s texture_tag = true.
Proof. intros [->| ->]; [discriminate|reflexivity]. Qed.

(** C6.  After the traversal and the legalization, a node with recorded
    demand that has no candidate and one of whose demand entries
    contains the texture tag is given exactly ["global"] by the loop of
    lines 72-80; the map returned still says so, unless the node is a
    parameter of a primitive function, which the loop after it may
    write. *)
Theorem completion_assigns_global (expr : Expr) (st : StorageInfo) (n : positive)
    (demand : list string) :
  Analyze expr = Ok st ->
  consumer_storage_scopes_ st !! n = Some demand ->
  storage_scope_ st !! n = None ->
  Exists (fun s => found s texture_tag = true) demand ->
  FillInputs (consumer_storage_scopes_ st) (storage_scope_ st) !! n = Some ["global"] /\
  (n ∉ primitive_params expr ->
   exists storage_map, GetStorageMap expr = Ok storage_map /\
                       storage_map !! n = Some ["global"]).
Proof.
  intros Ha Hd Hs Hex.
  assert (FillInputs (consumer_storage_scopes_ st) (storage_scope_ st) !! n = Some ["global"])
    as Hfill.
  { rewrite FillInputs_lookup, Hs, Hd.
    replace (CanConsumeTextures demand) with true; [reflexivity|].
    symmetry. pose proof (demand_tags _ _ _ _ (collected_Analyze _ _ Ha) _ _ Hd) as Ht.
    unfold CanConsumeTextures. apply existsb_exists.
    apply Exists_exists in Hex as (s & Hin & Hf). exists s.
    split; [now apply list_elem_of_In|]. rewrite Forall_forall in Ht.
    apply tag_found_at_0; auto. }
  split; [exact Hfill|]. intros Hp.
  unfold GetStorageMap. rewrite Ha. cbn [mbind result_bind]. eexists. split; [reflexivity|].
  rewrite <- Hfill. eapply GetStorageMap_other; [exact Ha| |exact Hp].
  unfold GetStorageMap. now rewrite Ha.
Qed.

Lemma completion_assigns_global_witness :
  exists st,
    Analyze conv_large = Ok st /\
    FillInputs (consumer_storage_scopes_ st) (storage_scope_ st) !! 2%positive
    = Some ["global"].
Proof.
  assert (exists st, Analyze conv_large = Ok st /\
                     consumer_storage_scopes_ st !! 2%positive = Some ["global.texture"] /\
                     storage_scope_ st !! 2%positive = None) as (st & Ha & Hd & Hs).
  { eexists. split; [vm_compute; reflexivity|]. split; reflexivity. }
  exists st. split; [exact Ha|].
  apply (completion_assigns_global conv_large st 2%positive ["global.texture"] Ha Hd Hs).
  left. reflexivity.
Defined.

(** ** Scenario A *)

(** C1 as amended.  For the single primitive convolution with layouts
    NCHW4c and OIHW4o, result shape [1,4,8,8,4], a placement with a
    target and a spatial limit of 16384, the capability matcher accepts
    the convolution and the analysis gives the call the scope
    ["global.texture"], whether the call is the whole graph or the body
    of a function of its arguments: the reshapes are 32 x 8, 4 x 64 and
    1 x 256, and the first is the most balanced. *)
Theorem scenario_A_scope (vd : VirtualDevice) (t : Target) :
  target vd = Some t ->
  default default_texture_spatial_limit (texture_spatial_limit t) = 16384 ->
  SupportsTextureStorage (Conv2DAttrs "NCHW4c" "OIHW4o") = true /\
  reshapes 1 4 8 8 = [mkCandidate 32 8 ""; mkCandidate 4 64 "nhwc"; mkCandidate 1 256 "weight"] /\
  (exists storage_map,
      GetStorageMap (scenario_A_on vd) = Ok storage_map /\
      storage_map !! 1%positive = Some ["global.texture"]) /\
  (exists storage_map,
      GetStorageMap (scenario_A_function_on vd) = Ok storage_map /\
      storage_map !! 1%positive = Some ["global.texture"]).
Proof.
  intros Ht Hl. split; [reflexivity|]. split; [reflexivity|].
  destruct vd as [dt id tg ms]. cbn in Ht. subst tg.
  destruct t as [k d [l|]]; cbn in Hl; [subst l|];
    (split; eexists; (split; [vm_compute; reflexivity|reflexivity])).
Qed.

Lemma scenario_A_scope_witness :
  exists storage_map,
    GetStorageMap scenario_A = Ok storage_map /\
    storage_map !! 1%positive = Some ["global.texture"].
Proof.
  apply (scenario_A_scope vd_adreno adreno); reflexivity.
Defined.

(** C1 as stated fails: the scope of the call is not
    ["global.texture-nhwc"]. *)
Lemma scenario_A_counterexample :
  exists storage_map,
    GetStorageMap scenario_A = Ok storage_map /\
    storage_map !! 1%positive <> Some ["global.texture-nhwc"].
Proof. eexists. split; [vm_compute; reflexivity|]. discriminate. Qed.

(** ** Where demand is recorded *)

Lemma Apply_consumer (n : RelayExprNode) (st st' : StorageInfo) :
  ApplyConsumerScopeToInputs n st = Ok st' ->
  consumer_storage_scopes_ st' = consumer_storage_scopes_ st.
Proof.
  unfold ApplyConsumerScopeToInputs.
  destruct (consumer_storage_scopes_ st !! addr n); [|now intros [= <-]].
  destruct (has_key _ _); [discriminate|]. intros E.
  apply bind_Ok in E as ([scope vec] & _ & E).
  destruct (found _ _); [destruct vec|]; now injection E as <-.
Qed.

Lemma AssignAndBind_consumer (call : RelayExprNode) (vars : list Var) (args : list Expr)
    (st st' : StorageInfo) :
  AssignAndBind call vars args st = Ok st' ->
  consumer_storage_scopes_ st' = consumer_storage_scopes_ st.
Proof.
  unfold AssignAndBind. destruct (primitive_supports_texture_ st); [|now intros [= <-]].
  intros E. apply bind_Ok in E as (st1 & E1 & E).
  apply bind_Ok in E as (table & _ & [= <-]). cbn.
  unfold AssignCallScope in E1. destruct (checked_type_ call); [| |discriminate].
  - apply bind_Ok in E1 as (scope & _ & [= <-]). reflexivity.
  - now injection E1 as <-.
Qed.

Lemma RecordConsumerScope_consumer (call : RelayExprNode) (arg : Expr) (st st' : StorageInfo) :
  RecordConsumerScope call arg st = Ok st' ->
  forall p, p <> ptr arg ->
            consumer_storage_scopes_ st' !! p = consumer_storage_scopes_ st !! p.
Proof.
  unfold RecordConsumerScope. intros E p Hp. destruct (has_key _ _).
  - apply bind_Ok in E as (b & _ & E). destruct b; [discriminate|].
    injection E as <-. cbn. rewrite lookup_push_back. now rewrite decide_False by congruence.
  - injection E as <-. cbn. rewrite lookup_push_back. now rewrite decide_False by congruence.
Qed.

Lemma RetractArg_consumer (st : StorageInfo) (arg : Expr) :
  consumer_storage_scopes_ (RetractArg st arg) = consumer_storage_scopes_ st.
Proof.
  unfold RetractArg. destruct (consumer_storage_scopes_ st !! ptr arg); [|reflexivity].
  destruct (negb _); [|reflexivity].
  destruct arg as [| |n op ? ?| |]; try reflexivity. now destruct op.
Qed.

(** The traversal of an expression leaves alone the demand of every
    node that is not an argument of a call to a primitive function
    inside it. *)
Lemma consumer_frame (expr : Expr) (st st' : StorageInfo) (p : positive) :
  VisitExpr expr st = Ok st' -> p ∉ demand_sites expr ->
  consumer_storage_scopes_ st' !! p = consumer_storage_scopes_ st !! p.
Proof.
  intros E Hp.
  apply (VisitExpr_preserves (demand_sites expr) (primitive_calls expr)
           (primitive_params expr)
           (fun s => consumer_storage_scopes_ s !! p = consumer_storage_scopes_ st !! p)
           ) with (expr := expr) (st := st); try reflexivity; try exact E.
  - intros b s H. exact H.
  - intros q s H. exact H.
  - intros n s s' H Ea. now rewrite (Apply_consumer _ _ _ Ea).
  - intros call vars args s s' _ _ H Ea. now rewrite (AssignAndBind_consumer _ _ _ _ _ Ea).
  - intros call arg s s' Hs H Ea. rewrite <- H.
    apply (RecordConsumerScope_consumer _ _ _ _ Ea). intros ->. contradiction.
  - intros s arg H. now rewrite RetractArg_consumer.
Qed.

(** ** Sites and nodes *)

Lemma subterms_self (expr : Expr) : expr ∈ subterms expr.
Proof. destruct expr; left. Qed.

Lemma subterms_op (call : RelayExprNode) (op : Expr) (args : list Expr) (attrs : Attrs)
    (e : Expr) :
  e ∈ subterms op -> e ∈ subterms (CallNode call op args attrs).
Proof. intros H. cbn [subterms]. right. apply elem_of_app. now left. Qed.

Lemma subterms_arg (call : RelayExprNode) (op : Expr) (args : list Expr) (attrs : Attrs)
    (arg e : Expr) :
  arg ∈ args -> e ∈ subterms arg -> e ∈ subterms (CallNode call op args attrs).
Proof.
  intros Ha H. cbn [subterms]. right. apply elem_of_app. right.
  apply list_elem_of_In, in_concat. exists (subterms arg).
  split; [|now apply list_elem_of_In].
  apply list_elem_of_In, list_elem_of_fmap. eauto.
Qed.

Lemma subterms_body (n : RelayExprNode) (params : list Var) (body : Expr) (primitive : bool)
    (e : Expr) :
  e ∈ subterms body -> e ∈ subterms (FunctionNode n params body primitive).
Proof. intros H. cbn [subterms]. right. apply elem_of_app. now right. Qed.

Lemma subterms_trans (expr : Expr) :
  forall e' e, e' ∈ subterms expr -> e ∈ subterms e' -> e ∈ subterms expr.
Proof.
  induction expr as [v|n|call op args attrs IHop IHargs|n ps body primitive IH|n name]
    using Expr_nested_ind; intros e' e He' He; cbn [subterms] in He';
    apply elem_of_cons in He' as [->|He']; try exact He; try (now inversion He').
  - apply elem_of_app in He' as [He'|He'].
    + apply subterms_op. eauto.
    + apply list_elem_of_In, in_concat in He' as (l & Hl & He').
      apply list_elem_of_In, list_elem_of_fmap in Hl as (arg & -> & Ha).
      rewrite Forall_forall in IHargs.
      apply (subterms_arg _ _ _ _ arg _ Ha). apply (IHargs arg Ha e'); [|exact He].
      now apply list_elem_of_In.
  - apply elem_of_app in He' as [He'|He'].
    + apply list_elem_of_fmap in He' as (v & -> & Hv). cbn [subterms] in He.
      apply list_elem_of_singleton in He as ->. cbn [subterms]. right.
      apply elem_of_app. left. apply list_elem_of_fmap. eauto.
    + apply subterms_body. eauto.
Qed.

(** A demand site is an argument of a reachable call to a primitive
    function; a primitive call is such a call. *)
Lemma demand_sites_subterms (expr : Expr) (p : positive) :
  p ∈ demand_sites expr ->
  exists call op args attrs arg,
    CallNode call op args attrs ∈ subterms expr /\
    is_primitive_function op = true /\ arg ∈ args /\ ptr arg = p.
Proof.
  revert p.
  induction expr as [v|n|call op args attrs IHop IHargs|n ps body primitive IH|n name]
    using Expr_nested_ind; intros p Hp; cbn [demand_sites] in Hp;
    [set_solver|set_solver| | |set_solver].
  - apply elem_of_union in Hp as [Hp|Hp]; [apply elem_of_union in Hp as [Hp|Hp]|].
    + destruct op as [| | |fn vars body prim|]; try set_solver.
      destruct prim; [|set_solver].
      apply elem_of_list_to_set, list_elem_of_fmap in Hp as (arg & -> & Ha).
      exists call, (FunctionNode fn vars body true), args, attrs, arg.
      split; [apply subterms_self|]. auto.
    + destruct (IHop p Hp) as (c & o & a & t & arg & Hin & H).
      exists c, o, a, t, arg. split; [now apply subterms_op|exact H].
    + apply elem_of_union_list in Hp as (X & HX & Hp).
      apply list_elem_of_fmap in HX as (arg0 & -> & Ha0).
      rewrite Forall_forall in IHargs.
      destruct (IHargs arg0 Ha0 p Hp) as (c & o & a & t & arg & Hin & H).
      exists c, o, a, t, arg. split; [now apply (subterms_arg _ _ _ _ arg0)|exact H].
  - destruct (IH p Hp) as (c & o & a & t & arg & Hin & H).
    exists c, o, a, t, arg. split; [now apply subterms_body|exact H].
Qed.

Lemma primitive_calls_subterms (expr : Expr) (p : positive) :
  p ∈ primitive_calls expr ->
  exists call op args attrs,
    CallNode call op args attrs ∈ subterms expr /\ addr call = p.
Proof.
  revert p.
  induction expr as [v|n|call op args attrs IHop IHargs|n ps body primitive IH|n name]
    using Expr_nested_ind; intros p Hp; cbn [primitive_calls] in Hp;
    [set_solver|set_solver| | |set_solver].
  - apply elem_of_union in Hp as [Hp|Hp]; [apply elem_of_union in Hp as [Hp|Hp]|].
    + destruct op as [| | |fn vars body prim|]; try set_solver.
      destruct prim; [|set_solver]. apply elem_of_singleton in Hp as ->.
      exists call, (FunctionNode fn vars body true), args, attrs.
      split; [apply subterms_self|reflexivity].
    + destruct (IHop p Hp) as (c & o & a & t & Hin & H).
      exists c, o, a, t. split; [now apply subterms_op|exact H].
    + apply elem_of_union_list in Hp as (X & HX & Hp).
      apply list_elem_of_fmap in HX as (arg0 & -> & Ha0).
      rewrite Forall_forall in IHargs.
      destruct (IHargs arg0 Ha0 p Hp) as (c & o & a & t & Hin & H).
      exists c, o, a, t. split; [now apply (subterms_arg _ _ _ _ arg0)|exact H].
  - destruct (IH p Hp) as (c & o & a & t & Hin & H).
    exists c, o, a, t. split; [now apply subterms_body|exact H].
Qed.

(** A leaf that only bare calls consume is no demand site and no call. *)
Lemma bare_leaf_no_site (expr leaf : Expr) :
  addresses_identify expr -> leaf ∈ subterms expr -> is_leaf leaf = true ->
  consumed_by_bare_calls_only expr leaf ->
  (ptr leaf ∉ demand_sites expr) /\ (ptr leaf ∉ primitive_calls expr).
Proof.
  intros Hid Hin Hleaf Hbare. split.
  - intros Hp. apply demand_sites_subterms in Hp as (c & o & a & t & arg & Hc & Ho & Ha & Hptr).
    assert (arg = leaf) as Harg.
    { apply Hid; [|exact Hin|exact Hptr].
      apply (subterms_trans expr (CallNode c o a t)); [exact Hc|].
      apply (subterms_arg c o a t arg _ Ha), subterms_self. }
    subst arg. rewrite (Hbare _ _ _ _ Hc Ha) in Ho. discriminate.
  - intros Hp. apply primitive_calls_subterms in Hp as (c & o & a & t & Hc & Hptr).
    assert (CallNode c o a t = leaf) as Hcall.
    { apply Hid; [exact Hc|exact Hin|exact Hptr]. }
    subst leaf. discriminate.
Qed.

(** In scenario A addresses identify nodes, and the parameter [p0] of
    the primitive function is an argument of the bare convolution only. *)
Lemma scenario_A_addresses : addresses_identify scenario_A.
Proof.
  intros e1 e2 H1 H2 Hp. vm_compute in H1, H2.
  repeat (apply elem_of_cons in H1 as [->|H1]); try (now inversion H1);
    repeat (apply elem_of_cons in H2 as [->|H2]); try (now inversion H2);
    first [reflexivity | vm_compute in Hp; discriminate].
Qed.

Lemma scenario_A_p0_bare : consumed_by_bare_calls_only scenario_A (VarNode parameter_p0).
Proof.
  intros call op args attrs Hc Hl. vm_compute in Hc.
  repeat (apply elem_of_cons in Hc as [Hc|Hc]); try discriminate; try (now inversion Hc).
  injection Hc as -> -> -> ->.
  repeat (apply elem_of_cons in Hl as [Hl|Hl]); try discriminate. inversion Hl.
Qed.

(** C10 as amended.  The traversal records demand only at arguments of
    calls to primitive functions: it leaves the demand of every other
    node as it was, and a call of a bare operator contributes no site of
    its own.  After the traversal and the legalization, demand is kept
    for such arguments only; a Reference or Literal that only calls of
    something other than a primitive function consume has no demand, no
    candidate, and no entry after the loop of lines 72-80; it is in the
    map returned only as a parameter of a primitive function. *)
Theorem demand_only_for_primitive_arguments :
  (forall expr st st' p,
      VisitExpr expr st = Ok st' -> p ∉ demand_sites expr ->
      consumer_storage_scopes_ st' !! p = consumer_storage_scopes_ st !! p) /\
  (forall call n name args attrs,
      demand_sites (CallNode call (OpNode n name) args attrs) = ⋃ (demand_sites <$> args)) /\
  (forall expr st,
      Analyze expr = Ok st ->
      dom (consumer_storage_scopes_ st) ⊆ demand_sites expr) /\
  (forall expr st leaf,
      Analyze expr = Ok st ->
      addresses_identify expr -> leaf ∈ subterms expr -> is_leaf leaf = true ->
      consumed_by_bare_calls_only expr leaf ->
      consumer_storage_scopes_ st !! ptr leaf = None /\
      storage_scope_ st !! ptr leaf = None /\
      FillInputs (consumer_storage_scopes_ st) (storage_scope_ st) !! ptr leaf = None /\
      forall storage_map,
        GetStorageMap expr = Ok storage_map -> is_Some (storage_map !! ptr leaf) ->
        ptr leaf ∈ primitive_params expr).
Proof.
  split; [exact consumer_frame|]. split.
  { intros call n name args attrs. cbn [demand_sites]. set_solver. }
  split.
  { intros expr st Ha. exact (demand_keys _ _ _ _ (collected_Analyze _ _ Ha)). }
  intros expr st leaf Ha Hid Hin Hleaf Hbare.
  pose proof (collected_Analyze _ _ Ha) as [H1 H2 H3 H4 H5].
  destruct (bare_leaf_no_site _ _ Hid Hin Hleaf Hbare) as [Hs Hc].
  set (n := ptr leaf) in *.
  assert (consumer_storage_scopes_ st !! n = None) as Hd.
  { apply not_elem_of_dom. set_solver. }
  assert (storage_scope_ st !! n = None) as Hn.
  { apply not_elem_of_dom. set_solver. }
  assert (FillInputs (consumer_storage_scopes_ st) (storage_scope_ st) !! n = None) as Hf.
  { now rewrite FillInputs_lookup, Hn, Hd. }
  repeat split; try assumption.
  intros storage_map Hg [scopes Hm].
  destruct (decide (n ∈ primitive_params expr)) as [Hp|Hp]; [exact Hp|].
  rewrite (GetStorageMap_other _ _ _ _ Ha Hg Hp), Hf in Hm. discriminate.
Qed.

Lemma demand_only_for_primitive_arguments_witness :
  exists st,
    Analyze scenario_A = Ok st /\
    consumer_storage_scopes_ st !! 11%positive = None /\
    storage_scope_ st !! 11%positive = None.
Proof.
  assert (exists st, Analyze scenario_A = Ok st) as [st Ha].
  { eexists. vm_compute. reflexivity. }
  exists st. split; [exact Ha|].
  destruct demand_only_for_primitive_arguments as (_ & _ & _ & H).
  destruct (H scenario_A st (VarNode parameter_p0) Ha) as (Hd & Hs & _).
  - exact scenario_A_addresses.
  - vm_compute. do 2 right. left.
  - reflexivity.
  - exact scenario_A_p0_bare.
  - split; [exact Hd|exact Hs].
Defined.

(** C10 as stated fails: the parameter [p0] of the primitive function of
    scenario A is used by the bare convolution only and has neither
    demand nor candidate, and the map returned has it. *)
Lemma parameter_in_final_map_counterexample :
  exists st storage_map,
    Analyze scenario_A = Ok st /\
    GetStorageMap scenario_A = Ok storage_map /\
    VarNode parameter_p0 ∈ subterms scenario_A /\
    consumed_by_bare_calls_only scenario_A (VarNode parameter_p0) /\
    consumer_storage_scopes_ st !! ptr (VarNode parameter_p0) = None /\
    storage_scope_ st !! ptr (VarNode parameter_p0) = None /\
    storage_map !! ptr (VarNode parameter_p0) = Some ["global.texture"].
Proof.
  do 2 eexists. split; [vm_compute; reflexivity|]. split; [vm_compute; reflexivity|].
  split; [vm_compute; do 2 right; left|]. split; [exact scenario_A_p0_bare|].
  repeat split.
Qed.

(** ** The pass without scope information *)

Lemma GetDevices_var (v : Var) : GetDevices (VarNode v) = Ok [].
Proof. reflexivity. Qed.

Lemma GetStorageMap_var (v : Var) : GetStorageMap (VarNode v) = Ok ∅.
Proof. reflexivity. Qed.

(** C7.  When the map collected is empty the pass returns the
    expression it was given; this is so when nothing is registered for
    the devices found, and for a graph that is a single variable, with
    the registration of this file or with the texture analysis
    registered under every name. *)
Theorem AnnotateMemoryScopeExpr_unchanged :
  (forall Registry_Get Rewrite expr,
      CollectStorageInfo Registry_Get expr = Ok ∅ ->
      AnnotateMemoryScopeExpr Registry_Get Rewrite expr = Ok expr) /\
  (forall Registry_Get Rewrite expr devices,
      GetDevices expr = Ok devices ->
      Registry_Get (registry_key devices) = None ->
      AnnotateMemoryScopeExpr Registry_Get Rewrite expr = Ok expr) /\
  (forall Rewrite v,
      AnnotateMemoryScopeExpr registered Rewrite (VarNode v) = Ok (VarNode v) /\
      AnnotateMemoryScopeExpr (fun _ => Some CollectTextureStorage) Rewrite (VarNode v)
      = Ok (VarNode v)).
Proof.
  assert (forall Registry_Get Rewrite expr,
             CollectStorageInfo Registry_Get expr = Ok ∅ ->
             AnnotateMemoryScopeExpr Registry_Get Rewrite expr = Ok expr) as Hempty.
  { intros Registry_Get Rewrite expr E. unfold AnnotateMemoryScopeExpr. rewrite E.
    cbn [mbind result_bind]. now rewrite map_size_empty. }
  split; [exact Hempty|]. split.
  - intros Registry_Get Rewrite expr devices Hd Hr. apply Hempty.
    unfold CollectStorageInfo. rewrite Hd. cbn [mbind result_bind]. now rewrite Hr.
  - intros Rewrite v. split; apply Hempty; reflexivity.
Qed.

Lemma AnnotateMemoryScopeExpr_unchanged_witness :
  AnnotateMemoryScopeExpr (fun _ => None) (fun _ _ => Fault "unused") scenario_A
  = Ok scenario_A.
Proof.
  destruct AnnotateMemoryScopeExpr_unchanged as (_ & H & _).
  apply (H _ _ scenario_A ["opencl.adreno"]); reflexivity.
Defined.

(** * Further properties *)

(** ** The range of the scope-fit evaluator *)

Lemma map_assign_labels (P : string -> Prop) (k : Z) (v : string) (m : list (Z * string)) :
  P v -> Forall (fun kv => P (snd kv)) m -> Forall (fun kv => P (snd kv)) (map_assign k v m).
Proof.
  intros Hv. induction 1 as [|kv m Hkv Hm IH]; cbn [map_assign].
  - repeat constructor. exact Hv.
  - destruct (k <? fst kv); [|destruct (k =? fst kv)]; repeat constructor; auto.
Qed.

Lemma layout_scope (layout : string) :
  layout = "" \/ layout = "nhwc" \/ layout = "weight" ->
  is_texture_scope (if negb (String.eqb layout "") then "global.texture" +:+ "-" +:+ layout
                    else "global.texture").
Proof. intros [->|[->| ->]]; cbn; unfold is_texture_scope; auto. Qed.

Lemma Scope_cases (shape : list PrimExpr) (vd : VirtualDevice) (scope : string) :
  Scope shape vd = Ok scope ->
  scope = "global" \/
  (is_texture_scope scope /\ is_constrained vd = true /\
   exists a0 a1 a2 a3 t,
     shape = [IntImm a0; IntImm a1; IntImm a2; IntImm a3; IntImm 4] /\ target vd = Some t).
Proof.
  unfold Scope. destruct (is_constrained vd) eqn:Hc; cbn [andb]; [|intros [= <-]; now left].
  destruct shape as [|d0 [|d1 [|d2 [|d3 [|d4 [|d5 rest]]]]]]; cbn [length Nat.eqb];
    try (intros [= <-]; now left).
  cbn [nth]. unfold IntImm_value, spatial_limit.
  destruct d4 as [v4|]; cbn [as_IntImm mbind result_bind]; [|discriminate].
  destruct (Z.eqb_spec v4 4) as [->|Hv4]; [|intros [= <-]; now left].
  destruct (target vd) as [t|] eqn:Ht; cbn [mbind result_bind]; [|discriminate].
  destruct d0 as [a0|]; cbn [as_IntImm mbind result_bind]; [|discriminate].
  destruct d1 as [a1|]; cbn [as_IntImm mbind result_bind]; [|discriminate].
  destruct d2 as [a2|]; cbn [as_IntImm mbind result_bind]; [|discriminate].
  destruct d3 as [a3|]; cbn [as_IntImm mbind result_bind]; [|discriminate].
  cbv zeta.
  match goal with
  | |- match ?diffs with _ => _ end = _ -> _ =>
      assert (Forall (fun kv => snd kv = "" \/ snd kv = "nhwc" \/ snd kv = "weight") diffs)
        as Hl;
      [|destruct diffs as [|[k layout] diffs']]
  end.
  { repeat match goal with
           | |- Forall _ (if ?c then _ else _) => destruct c
           | |- Forall _ (map_assign _ _ _) =>
               apply (map_assign_labels (fun s => s = "" \/ s = "nhwc" \/ s = "weight"));
               [cbn; auto|]
           | |- Forall _ [] => constructor
           end. }
  - intros [= <-]. now left.
  - intros [= <-]. apply Forall_cons in Hl as [Hl _]. cbn [snd] in Hl.
    right. split; [exact (layout_scope layout Hl)|]. split; [reflexivity|].
    exists a0, a1, a2, a3, t. auto.
Qed.

Lemma Scope_is_scope (shape : list PrimExpr) (vd : VirtualDevice) (scope : string) :
  Scope shape vd = Ok scope -> is_scope scope.
Proof.
  intros E. destruct (Scope_cases _ _ _ E) as [->|(Ht & _)]; [now left|].
  unfold is_texture_scope in Ht. unfold is_scope. tauto.
Qed.

(** X1.  Whatever the shape and the placement, a scope returned by the
    evaluator is one of the four scopes; it is a texture scope only for a
    constrained placement with a target and a shape of five integer
    literals ending in 4. *)
Theorem Scope_range (shape : list PrimExpr) (vd : VirtualDevice) (scope : string) :
  Scope shape vd = Ok scope ->
  is_scope scope /\
  (scope <> "global" ->
   is_texture_scope scope /\ vd <> FullyUnconstrained /\
   exists a0 a1 a2 a3 t,
     shape = [IntImm a0; IntImm a1; IntImm a2; IntImm a3; IntImm 4] /\ target vd = Some t).
Proof.
  intros E. split; [exact (Scope_is_scope _ _ _ E)|]. intros Hne.
  destruct (Scope_cases _ _ _ E) as [->|(Ht & Hc & Hshape)]; [contradiction|].
  split; [exact Ht|]. split; [|exact Hshape].
  intros ->. discriminate Hc.
Qed.

Lemma Scope_range_witness :
  is_scope "global.texture" /\
  (exists a0 a1 a2 a3 t,
      [IntImm 1; IntImm 4; IntImm 8; IntImm 8; IntImm 4]
      = [IntImm a0; IntImm a1; IntImm a2; IntImm a3; IntImm 4] /\ target vd_adreno = Some t).
Proof.
  destruct (Scope_range [IntImm 1; IntImm 4; IntImm 8; IntImm 8; IntImm 4] vd_adreno
              "global.texture") as [Hs Ht].
  - vm_compute. reflexivity.
  - split; [exact Hs|]. apply Ht. discriminate.
Defined.

(** ** The leaf rule *)

Lemma GetConsumerScope_cases (demand : list string) :
  GetConsumerScope demand = "global" \/ GetConsumerScope demand = "global.texture".
Proof.
  unfold GetConsumerScope. destruct demand; [now left|].
  destruct (forallb _ _); [now right|now left].
Qed.

(** The flag [expr_is_rgba_vectorizable] is set exactly when the leaf is
    a tensor whose shape the evaluator fits into a texture: the test on
    the inner dimension (lines 241-244) never fails after that. *)
Lemma own_scope_vectorizable (n : RelayExprNode) (scope : string) (vec : bool) :
  own_scope n = Ok (scope, vec) ->
  match checked_type_ n with
  | TensorType shape =>
      Scope shape (GetVirtualDevice n) = Ok scope /\ vec = negb (String.eqb scope "global")
  | _ => scope = "" /\ vec = false
  end.
Proof.
  unfold own_scope. destruct (checked_type_ n) as [shape|fields|]; try (now intros [= <- <-]).
  intros E. apply bind_Ok in E as (s & Es & E).
  destruct (String.eqb_spec s "global") as [->|Hs]; cbn [negb] in E.
  - injection E as <- <-. auto.
  - destruct (Scope_cases _ _ _ Es) as [->|(_ & _ & a0 & a1 & a2 & a3 & t & -> & _)];
      [contradiction|].
    cbn in E. injection E as <- <-. split; [exact Es|].
    symmetry. apply negb_true_iff. now apply String.eqb_neq.
Qed.

Lemma push_back_fresh {A : Type} (k : positive) (x : A) (table : gmap positive (list A)) :
  table !! k = None -> push_back k x table = <[ k := [x] ]> table.
Proof. intros H. unfold push_back. now rewrite H. Qed.

(** X2.  The rule for a Reference or a Literal.  Without recorded demand the
    state is left alone; with demand and a candidate already there the
    check fails; otherwise a leaf whose consumers do not all accept
    textures gets the single candidate ["global"], and one whose
    consumers all do gets the scope fitting its own shape when that is a
    texture scope, and nothing when it is not or when the leaf is no
    tensor. *)
Theorem leaf_rule (n : RelayExprNode) (st : StorageInfo) :
  (consumer_storage_scopes_ st !! addr n = None ->
   ApplyConsumerScopeToInputs n st = Ok st) /\
  (is_Some (consumer_storage_scopes_ st !! addr n) ->
   is_Some (storage_scope_ st !! addr n) ->
   ApplyConsumerScopeToInputs n st
   = ICheckFail "Already propagated consumer scopes to input") /\
  (forall demand scope vec,
      consumer_storage_scopes_ st !! addr n = Some demand ->
      storage_scope_ st !! addr n = None ->
      own_scope n = Ok (scope, vec) ->
      ApplyConsumerScopeToInputs n st =
      Ok (if String.eqb (GetConsumerScope demand) "global.texture" then
            match checked_type_ n with
            | TensorType _ =>
                if String.eqb scope "global" then st
                else set_storage_scope (<[ addr n := [scope] ]> (storage_scope_ st)) st
            | _ => st
            end
          else set_storage_scope (<[ addr n := ["global"] ]> (storage_scope_ st)) st)).
Proof.
  unfold ApplyConsumerScopeToInputs. split; [|split].
  - now intros ->.
  - intros [d ->] Hs. unfold has_key. now rewrite bool_decide_eq_true_2.
  - intros demand scope vec -> Hs Ho. unfold has_key.
    rewrite bool_decide_eq_false_2 by (rewrite Hs; intros [? ?]; discriminate).
    rewrite Ho. cbn [mbind result_bind].
    pose proof (own_scope_vectorizable _ _ _ Ho) as Hv.
    rewrite !push_back_fresh by exact Hs.
    destruct (GetConsumerScope_cases demand) as [-> | ->]; cbn [found find String.prefix];
      [reflexivity|].
    change (found "global.texture" "global.texture") with true. cbn [String.eqb].
    replace ("global.texture" =? "global.texture")%string with true by reflexivity.
    destruct (checked_type_ n) as [shape|fields|].
    + destruct Hv as [_ ->]. now destruct (String.eqb scope "global").
    + now destruct Hv as [_ ->].
    + now destruct Hv as [_ ->].
Qed.

Lemma leaf_rule_witness :
  ApplyConsumerScopeToInputs leaf_example_node leaf_example_state
  = Ok (set_storage_scope (<[ 2%positive := ["global.texture"] ]> ∅) leaf_example_state).
Proof.
  destruct (leaf_rule leaf_example_node leaf_example_state) as (_ & _ & H).
  apply (H ["global.texture"] "global.texture" true); reflexivity.
Defined.

(** ** The candidate of a call and the binding of its arguments *)

Lemma lookup_fold_push_back {A B : Type} (k p : positive) (x : A) (fields : list B)
    (table : gmap positive (list A)) :
  fold_left (fun t _ => push_back k x t) fields table !! p =
  match fields with
  | [] => table !! p
  | _ :: _ =>
      if decide (k = p) then Some (default [] (table !! p) ++ replicate (length fields) x)%list
      else table !! p
  end.
Proof.
  revert table. induction fields as [|f fields IH]; intros table; [reflexivity|].
  cbn [fold_left]. rewrite IH, lookup_push_back. destruct fields as [|g fields].
  - reflexivity.
  - case_decide; [|reflexivity]. cbn [default length replicate]. unfold id.
    now rewrite <- app_assoc.
Qed.

(** X3.  The candidate of a call to a texture-capable primitive.  A tensor
    result gets the scope fitting its shape; a tuple of [k] fields gets
    [k] times ["global.texture"], hence no entry at all when it has no
    field; a result that is neither stops the analysis on a check.
    Nothing but the candidate of the call is touched. *)
Theorem AssignCallScope_cases (call : RelayExprNode) (st : StorageInfo) :
  match checked_type_ call with
  | TensorType shape =>
      forall scope,
        Scope shape (GetVirtualDevice call) = Ok scope ->
        exists st',
          AssignCallScope call st = Ok st' /\
          storage_scope_ st' !! addr call
          = Some (default [] (storage_scope_ st !! addr call) ++ [scope])%list /\
          forall p, p <> addr call -> storage_scope_ st' !! p = storage_scope_ st !! p
  | TupleType fields =>
      exists st',
        AssignCallScope call st = Ok st' /\
        storage_scope_ st' !! addr call
        = (if decide (fields = []) then storage_scope_ st !! addr call
           else Some (default [] (storage_scope_ st !! addr call)
                      ++ replicate (length fields) "global.texture")%list) /\
        forall p, p <> addr call -> storage_scope_ st' !! p = storage_scope_ st !! p
  | OtherType => AssignCallScope call st = ICheckFail "tuple_type"
  end.
Proof.
  unfold AssignCallScope. destruct (checked_type_ call) as [shape|fields|]; [| |reflexivity].
  - intros scope ->. cbn [mbind result_bind]. eexists. split; [reflexivity|]. cbn.
    split; intros; rewrite lookup_push_back.
    + now rewrite decide_True.
    + now rewrite decide_False by congruence.
  - eexists. split; [reflexivity|]. cbn. split; intros; rewrite lookup_fold_push_back.
    + destruct fields; [reflexivity|]. now rewrite decide_True, decide_False.
    + destruct fields; [reflexivity|]. now rewrite decide_False by congruence.
Qed.

Lemma AssignCallScope_cases_witness :
  exists st',
    AssignCallScope (mkNode 1 (tensor [1; 4; 8; 8; 4]) vd_adreno) StorageInfo_init = Ok st' /\
    storage_scope_ st' !! 1%positive = Some ["global.texture"].
Proof.
  destruct (AssignCallScope_cases (mkNode 1 (tensor [1; 4; 8; 8; 4]) vd_adreno)
              StorageInfo_init "global.texture") as (st' & E & H & _).
  - vm_compute. reflexivity.
  - exists st'. split; [exact E|exact H].
Defined.

Lemma BindArgsToVars_enough (params : list Var) :
  forall (args : list Expr) (table : gmap positive (list Var)),
    (length params <= length args)%nat ->
     exists table',
       BindArgsToVars args params table = Ok table' /\
       forall p,
         table' !! p =
         match bound_to p args params with
         | [] => table !! p
         | (_ :: _) as vars => Some (default [] (table !! p) ++ vars)%list
         end.
Proof.
  induction params as [|param params IH]; intros args table Hlen.
  - exists table. split; [reflexivity|]. intros p. reflexivity.
  - destruct args as [|arg args]; [cbn in Hlen; lia|]. cbn [BindArgsToVars bound_to].
    destruct (IH args (push_back (ptr arg) param table)) as (table' & E & H).
    { cbn in Hlen. lia. }
    exists table'. split; [exact E|]. intros p. rewrite H, lookup_push_back.
    case_decide as Hp.
    + cbn [default]. unfold id. destruct (bound_to p args params); [reflexivity|].
      now rewrite <- app_assoc.
    + reflexivity.
Qed.

Lemma BindArgsToVars_short (params : list Var) :
  forall (args : list Expr) (table : gmap positive (list Var)),
    (length args < length params)%nat ->
    BindArgsToVars args params table = ICheckFail "index out of bounds".
Proof.
  induction params as [|param params IH]; intros args table Hlen; [cbn in Hlen; lia|].
  destruct args as [|arg args]; [reflexivity|]. cbn [BindArgsToVars].
  apply IH. cbn in Hlen. lia.
Qed.

(** X4.  The binding of arguments to the parameters of the primitive.  With
    at least as many arguments as parameters every parameter is
    appended, in order, to the list kept for its argument, and
    arguments beyond the parameters are not bound; with fewer arguments
    the index check of the argument array fails. *)
Theorem BindArgsToVars_arity (args : list Expr) (params : list Var)
    (table : gmap positive (list Var)) :
  ((length params <= length args)%nat ->
   exists table',
     BindArgsToVars args params table = Ok table' /\
     forall p,
       table' !! p =
       match bound_to p args params with
       | [] => table !! p
       | (_ :: _) as vars => Some (default [] (table !! p) ++ vars)%list
       end) /\
  ((length args < length params)%nat ->
   BindArgsToVars args params table = ICheckFail "index out of bounds").
Proof.
  split; [apply BindArgsToVars_enough|apply BindArgsToVars_short].
Qed.

Lemma BindArgsToVars_arity_witness :
  (exists table',
      BindArgsToVars [VarNode parameter_p1] [parameter_p0] ∅ = Ok table' /\
      table' !! 12%positive = Some [parameter_p0]) /\
  BindArgsToVars [] [parameter_p0] ∅ = ICheckFail "index out of bounds".
Proof.
  split.
  - destruct (BindArgsToVars_arity [VarNode parameter_p1] [parameter_p0] ∅) as [H _].
    destruct H as (t & E & H); [cbn; lia|].
    exists t. split; [exact E|]. rewrite H. reflexivity.
  - apply (BindArgsToVars_arity [] [parameter_p0] ∅). cbn. lia.
Defined.

(** ** The retraction of candidates *)

Lemma RetractArg_subset (st : StorageInfo) (arg : Expr) (p : positive) (scopes : list string) :
  storage_scope_ (RetractArg st arg) !! p = Some scopes ->
  storage_scope_ st !! p = Some scopes.
Proof.
  unfold RetractArg. destruct (consumer_storage_scopes_ st !! ptr arg); [|auto].
  destruct (negb _); [|auto].
  assert (forall k (m : gmap positive (list string)),
             delete k m !! p = Some scopes -> m !! p = Some scopes) as Hdel.
  { intros k m H. apply lookup_delete_Some in H. tauto. }
  destruct arg as [| |n op ? ?| |]; cbn; try apply Hdel.
  destruct op; cbn; try apply Hdel. intros H. now apply Hdel, Hdel in H.
Qed.

Lemma RetractArg_deletes (st : StorageInfo) (arg : Expr) (demand : list string) :
  consumer_storage_scopes_ st !! ptr arg = Some demand ->
  GetConsumerScope demand <> "global.texture" ->
  storage_scope_ (RetractArg st arg) !! ptr arg = None /\
  match arg with
  | CallNode _ (FunctionNode _ _ body _) _ _ =>
      storage_scope_ (RetractArg st arg) !! ptr body = None
  | _ => True
  end.
Proof.
  intros Hd Hne. unfold RetractArg. rewrite Hd.
  apply String.eqb_neq in Hne. rewrite Hne. cbn [negb].
  destruct arg as [| |n op ? ?| |]; cbn; try (split; [apply lookup_delete_eq|exact I]).
  destruct op; cbn; try (split; [apply lookup_delete_eq|exact I]).
  split; [|apply lookup_delete_eq].
  apply lookup_delete_None. right. apply lookup_delete_eq.
Qed.

Lemma RetractArg_keeps (st : StorageInfo) (arg : Expr) :
  (forall demand, consumer_storage_scopes_ st !! ptr arg = Some demand ->
                  GetConsumerScope demand = "global.texture") ->
  RetractArg st arg = st.
Proof.
  intros H. unfold RetractArg.
  destruct (consumer_storage_scopes_ st !! ptr arg) as [d|]; [|reflexivity].
  now rewrite (H d eq_refl).
Qed.

Lemma RetractArgs_consumer (args : list Expr) (st : StorageInfo) :
  consumer_storage_scopes_ (RetractArgs args st) = consumer_storage_scopes_ st.
Proof.
  unfold RetractArgs. revert st. induction args as [|arg args IH]; intros st; [reflexivity|].
  cbn [fold_left]. now rewrite IH, RetractArg_consumer.
Qed.

Lemma RetractArgs_subset (args : list Expr) (st : StorageInfo) (p : positive)
    (scopes : list string) :
  storage_scope_ (RetractArgs args st) !! p = Some scopes ->
  storage_scope_ st !! p = Some scopes.
Proof.
  unfold RetractArgs. revert st. induction args as [|arg args IH]; intros st; [auto|].
  cbn [fold_left]. intros H. eapply RetractArg_subset, IH, H.
Qed.

Lemma lookup_None_subset (st st' : StorageInfo) (p : positive) :
  (forall scopes, storage_scope_ st' !! p = Some scopes -> storage_scope_ st !! p = Some scopes) ->
  storage_scope_ st !! p = None -> storage_scope_ st' !! p = None.
Proof.
  intros H Hn. destruct (storage_scope_ st' !! p) as [s|] eqn:E; [|reflexivity].
  rewrite (H s eq_refl) in Hn. discriminate.
Qed.

(** X5.  The loop of lines 163-173 only erases candidates and touches no
    other table.  After it, an argument whose recorded demand is not
    unanimously for textures has no candidate, and neither has the body
    of the function it calls when it is a call of an inlined function.
    When the demand of every argument is unanimous, nothing changes. *)
Theorem RetractArgs_effect (args : list Expr) (st : StorageInfo) :
  consumer_storage_scopes_ (RetractArgs args st) = consumer_storage_scopes_ st /\
  (forall p scopes,
      storage_scope_ (RetractArgs args st) !! p = Some scopes ->
      storage_scope_ st !! p = Some scopes) /\
  (forall arg demand,
      arg ∈ args ->
      consumer_storage_scopes_ st !! ptr arg = Some demand ->
      GetConsumerScope demand <> "global.texture" ->
      storage_scope_ (RetractArgs args st) !! ptr arg = None /\
      match arg with
      | CallNode _ (FunctionNode _ _ body _) _ _ =>
          storage_scope_ (RetractArgs args st) !! ptr body = None
      | _ => True
      end) /\
  ((forall arg demand,
       arg ∈ args -> consumer_storage_scopes_ st !! ptr arg = Some demand ->
       GetConsumerScope demand = "global.texture") ->
   RetractArgs args st = st).
Proof.
  split; [apply RetractArgs_consumer|]. split; [apply RetractArgs_subset|]. split.
  - unfold RetractArgs. revert st.
    induction args as [|a args IH]; intros st arg demand Hin Hd Hne; [inversion Hin|].
    cbn [fold_left]. apply elem_of_cons in Hin as [->|Hin].
    + destruct (RetractArg_deletes st a demand Hd Hne) as [H1 H2].
      split.
      * apply (lookup_None_subset (RetractArg st a)); [|exact H1].
        intros s. apply (RetractArgs_subset args).
      * destruct a as [| |n op cargs cattrs| |]; try exact I.
        destruct op as [| | |fn ps body prim|]; try exact I.
        apply (lookup_None_subset
                 (RetractArg st (CallNode n (FunctionNode fn ps body prim) cargs cattrs)));
          [|exact H2].
        intros s. apply (RetractArgs_subset args).
    + apply (IH (RetractArg st a) arg demand Hin); [|exact Hne].
      now rewrite RetractArg_consumer.
  - unfold RetractArgs. revert st. induction args as [|a args IH]; intros st H; [reflexivity|].
    cbn [fold_left]. rewrite (RetractArg_keeps st a).
    + apply IH. intros arg demand Hin. apply H. now right.
    + intros demand. apply H. left.
Qed.

Lemma RetractArgs_effect_witness :
  storage_scope_
    (RetractArgs [ConstantNode (mkNode 1 OtherType FullyUnconstrained)] mixed_example)
  !! 1%positive = None.
Proof.
  destruct (RetractArgs_effect [ConstantNode (mkNode 1 OtherType FullyUnconstrained)]
              mixed_example) as (_ & _ & H & _).
  apply (H (ConstantNode (mkNode 1 OtherType FullyUnconstrained)) ["global"]).
  - left.
  - reflexivity.
  - discriminate.
Defined.

(** ** The loops that complete the map *)

Lemma prefix_append (a s : string) :
  String.prefix a s = true <-> exists rest, s = (a ++ rest)%string.
Proof.
  revert s. induction a as [|c a IH]; intros [|d s]; cbn [String.prefix].
  - split; [intros _; exists ""; reflexivity|reflexivity].
  - split; [intros _; exists (String d s); reflexivity|reflexivity].
  - split; [discriminate|]. intros [rest H]. discriminate H.
  - destruct (ascii_dec c d) as [->|Hne].
    + rewrite IH. split; intros [rest H]; exists rest.
      * change (String d s = String d (a ++ rest)). now f_equal.
      * change (String d s = String d (a ++ rest)) in H. now injection H.
    + split; [discriminate|]. intros [rest H].
      change (String d s = String c (a ++ rest)) in H. injection H as H1 _. congruence.
Qed.

Lemma find_at_0 (s needle : string) :
  find s needle = Some 0%nat <-> String.prefix needle s = true.
Proof.
  destruct s as [|c s]; cbn [find]; destruct (String.prefix needle _);
    split; try reflexivity; try discriminate.
  destruct (find s needle); discriminate.
Qed.

Lemma found_at_0_starts (s needle : string) :
  found_at_0 s needle = true <-> exists rest, s = (needle ++ rest)%string.
Proof.
  rewrite <- prefix_append, <- find_at_0. unfold found_at_0.
  destruct (find s needle) as [[|k]|]; split; try reflexivity; discriminate.
Qed.

Lemma CanConsumeTextures_starts (demand : list string) :
  CanConsumeTextures demand = true <->
  exists s rest, s ∈ demand /\ s = ("global.texture" ++ rest)%string.
Proof.
  unfold CanConsumeTextures. rewrite existsb_exists. split.
  - intros (s & Hin & H). apply found_at_0_starts in H as [rest H].
    exists s, rest. split; [now apply list_elem_of_In|exact H].
  - intros (s & rest & Hin & H). exists s. split; [now apply list_elem_of_In|].
    apply found_at_0_starts. now exists rest.
Qed.

Lemma CanConsumeTextures_tags (demand : list string) :
  Forall (fun s => s = "global" \/ s = "global.texture") demand ->
  CanConsumeTextures demand = bool_decide ("global.texture" ∈ demand).
Proof.
  intros Htags. case_bool_decide as Hin.
  - apply CanConsumeTextures_starts. exists "global.texture", "". split; [exact Hin|reflexivity].
  - destruct (CanConsumeTextures demand) eqn:E; [|reflexivity].
    apply CanConsumeTextures_starts in E as (s & rest & Hs & E).
    rewrite Forall_forall in Htags. destruct (Htags s Hs) as [->| ->]; [discriminate E|].
    contradiction.
Qed.

(** X6.  The loop of lines 72-80 never changes an entry that is there.  A
    node without entry gets ["global"] when one of its demand entries
    starts with the texture tag, and nothing when none does or when it
    has no demand; the order in which the demand table is walked does
    not matter. *)
Theorem FillInputs_frame (consumer storage_map : gmap positive (list string)) :
  (forall p scopes,
      storage_map !! p = Some scopes -> FillInputs consumer storage_map !! p = Some scopes) /\
  (forall p demand,
      storage_map !! p = None -> consumer !! p = Some demand ->
      (exists s rest, s ∈ demand /\ s = ("global.texture" ++ rest)%string) ->
      FillInputs consumer storage_map !! p = Some ["global"]) /\
  (forall p demand,
      storage_map !! p = None -> consumer !! p = Some demand ->
      (forall s rest, s ∈ demand -> s <> ("global.texture" ++ rest)%string) ->
      FillInputs consumer storage_map !! p = None) /\
  (forall p,
      storage_map !! p = None -> consumer !! p = None ->
      FillInputs consumer storage_map !! p = None).
Proof.
  split; [|split; [|split]].
  - intros p scopes Hs. now rewrite FillInputs_lookup, Hs.
  - intros p demand Hs Hd Hsome. rewrite FillInputs_lookup, Hs, Hd.
    apply CanConsumeTextures_starts in Hsome. now rewrite Hsome.
  - intros p demand Hs Hd Hnone. rewrite FillInputs_lookup, Hs, Hd.
    destruct (CanConsumeTextures demand) eqn:E; [|reflexivity].
    apply CanConsumeTextures_starts in E as (s & rest & Hin & E).
    now destruct (Hnone s rest Hin).
  - intros p Hs Hd. now rewrite FillInputs_lookup, Hs, Hd.
Qed.

Lemma FillInputs_frame_witness :
  FillInputs demand_example candidates_example !! 1%positive = Some ["global"] /\
  FillInputs demand_example candidates_example !! 2%positive = None /\
  FillInputs demand_example candidates_example !! 3%positive = Some ["global.texture-nhwc"] /\
  FillInputs demand_example candidates_example !! 4%positive = None.
Proof.
  destruct (FillInputs_frame demand_example candidates_example)
    as (Hkeep & Hsome & Hnone & Hno).
  split; [|split; [|split]].
  - apply (Hsome 1%positive ["global"; "global.texture-weight"]); [reflexivity..|].
    exists "global.texture-weight", "-weight". split; [right; left|reflexivity].
  - apply (Hnone 2%positive ["global"; "my.global.texture"]); [reflexivity..|].
    intros s rest Hin E. vm_compute in E.
    repeat (apply elem_of_cons in Hin as [->|Hin]); [discriminate E..|inversion Hin].
  - apply (Hkeep 3%positive). reflexivity.
  - apply (Hno 4%positive); reflexivity.
Defined.

Lemma AddVars_values (storage_map : gmap positive (list string)) (a : positive * list Var) :
  (forall p scopes, storage_map !! p = Some scopes -> is_Some (AddVars storage_map a !! p)) /\
  (forall p scopes, AddVars storage_map a !! p = Some scopes ->
                    exists q, storage_map !! q = Some scopes).
Proof.
  unfold AddVars. destruct (storage_map !! fst a) as [s0|] eqn:Ha; [|eauto].
  assert (forall vars (m : gmap positive (list string)),
             (forall p scopes, storage_map !! p = Some scopes -> is_Some (m !! p)) ->
             (forall p scopes, m !! p = Some scopes -> exists q, storage_map !! q = Some scopes) ->
             let m' := fold_left (fun m v => match m !! fst a with
                                             | Some scopes => <[ addr (var_node v) := scopes ]> m
                                             | None => m
                                             end) vars m in
             (forall p scopes, storage_map !! p = Some scopes -> is_Some (m' !! p)) /\
             (forall p scopes, m' !! p = Some scopes ->
                               exists q, storage_map !! q = Some scopes)) as H.
  { induction vars as [|v vars IH]; intros m H1 H2; cbn [fold_left]; [auto|].
    apply IH.
    - intros p scopes Hp. destruct (m !! fst a) as [s|]; [|eauto].
      rewrite lookup_insert. case_decide; eauto.
    - intros p scopes. destruct (m !! fst a) as [s|] eqn:Hm; [|eauto].
      rewrite lookup_insert. case_decide; [|eauto]. intros [= <-]. eauto. }
  apply H; eauto.
Qed.

Lemma AddVars_absent (storage_map : gmap positive (list string)) (a : positive * list Var) :
  storage_map !! fst a = None -> AddVars storage_map a = storage_map.
Proof. intros H. unfold AddVars. now rewrite H. Qed.

Lemma AddVarsAll_values (args_to_vars : gmap positive (list Var))
    (storage_map : gmap positive (list string)) :
  (forall p scopes,
      storage_map !! p = Some scopes ->
      is_Some (AddVarsAll args_to_vars storage_map !! p)) /\
  (forall p scopes,
      AddVarsAll args_to_vars storage_map !! p = Some scopes ->
      exists q, storage_map !! q = Some scopes).
Proof.
  assert (forall l (m : gmap positive (list string)),
             (forall p scopes, storage_map !! p = Some scopes -> is_Some (m !! p)) ->
             (forall p scopes, m !! p = Some scopes -> exists q, storage_map !! q = Some scopes) ->
             (forall p scopes, storage_map !! p = Some scopes ->
                               is_Some (fold_left AddVars l m !! p)) /\
             (forall p scopes, fold_left AddVars l m !! p = Some scopes ->
                               exists q, storage_map !! q = Some scopes)) as Hloop.
  { induction l as [|a l IH]; intros m H1 H2; cbn [fold_left]; [auto|].
    destruct (AddVars_values m a) as [Ha1 Ha2]. apply IH.
    - intros p scopes Hp. destruct (H1 p scopes Hp) as [s Hs]. eauto.
    - intros p scopes Hp. destruct (Ha2 p scopes Hp) as [q Hq]. eauto. }
  apply (Hloop (map_to_list args_to_vars) storage_map); eauto.
Qed.

(** X7.  The loop of lines 84-90 only copies.  It removes no entry, every
    vector in its result is a vector of the map it started from, and a
    key that is no variable bound to an argument keeps what it had; when
    no argument with bound variables is in the map, the map is returned
    as it is. *)
Theorem AddVarsAll_copies (args_to_vars : gmap positive (list Var))
    (storage_map : gmap positive (list string)) :
  (forall p scopes,
      storage_map !! p = Some scopes ->
      is_Some (AddVarsAll args_to_vars storage_map !! p)) /\
  (forall p scopes,
      AddVarsAll args_to_vars storage_map !! p = Some scopes ->
      exists q, storage_map !! q = Some scopes) /\
  (forall p,
      map_Forall (fun _ vars => Forall (fun v => addr (var_node v) <> p) vars) args_to_vars ->
      AddVarsAll args_to_vars storage_map !! p = storage_map !! p) /\
  ((forall a vars, args_to_vars !! a = Some vars -> storage_map !! a = None) ->
   AddVarsAll args_to_vars storage_map = storage_map).
Proof.
  destruct (AddVarsAll_values args_to_vars storage_map) as [H1 H2].
  split; [exact H1|]. split; [exact H2|]. split; [intros p; apply AddVarsAll_other|].
  intros Habs. unfold AddVarsAll.
  assert (Forall (fun a : positive * list Var => storage_map !! fst a = None)
                 (map_to_list args_to_vars)) as Hl.
  { apply Forall_forall. intros [a vars] Hin. apply elem_of_map_to_list in Hin. cbn. eauto. }
  clear H1 H2.
  induction Hl as [|a l Ha _ IH]; cbn [fold_left]; [reflexivity|].
  cbn beta in Ha. rewrite (AddVars_absent storage_map a Ha). exact IH.
Qed.

Lemma AddVarsAll_copies_witness :
  AddVarsAll {[ 2%positive := [parameter_p0] ]} {[ 2%positive := ["global.texture"] ]}
  !! 2%positive = Some ["global.texture"].
Proof.
  destruct (AddVarsAll_copies {[ 2%positive := [parameter_p0] ]}
              {[ 2%positive := ["global.texture"] ]}) as (_ & _ & H & _).
  rewrite H; [reflexivity|].
  apply map_Forall_singleton. repeat constructor. discriminate.
Defined.

(** ** What the legalization can change *)

Lemma prefix_refl (s : string) : String.prefix s s = true.
Proof.
  induction s as [|c s IH]; [reflexivity|]. cbn [String.prefix].
  destruct (Ascii.ascii_dec c c); [exact IH|contradiction].
Qed.

Lemma found_refl (s : string) : found s s = true.
Proof. unfold found. destruct s; cbn [find]; now rewrite ?prefix_refl. Qed.

Lemma legalized_idem (demand scopes : list string) :
  legalized demand (legalized demand scopes) = legalized demand scopes.
Proof.
  destruct scopes as [|first rest]; [reflexivity|]. cbn [legalized].
  destruct (found first (GetConsumerScope demand)) eqn:E.
  - cbn [legalized]. now rewrite E.
  - cbn [map legalized]. now rewrite found_refl.
Qed.

Lemma legalized_not_mixed (demand scopes : list string) :
  ~ mixed scopes -> ~ mixed (legalized demand scopes).
Proof.
  intros Hn. destruct scopes as [|first rest]; [exact Hn|]. cbn [legalized].
  destruct (found _ _); [exact Hn|].
  intros (a & b & Ha & Hb & Hab). apply Hab.
  apply list_elem_of_In, in_map_iff in Ha as (? & <- & _).
  apply list_elem_of_In, in_map_iff in Hb as (? & <- & _). reflexivity.
Qed.

Lemma uniform_not_mixed (scopes : list string) : uniform scopes -> ~ mixed scopes.
Proof. intros Hu (a & b & Ha & Hb & Hab). apply Hab. now apply Hu. Qed.

Lemma LegalizeProducerStorage_lookup (st : StorageInfo) :
  (forall p demand scopes,
      consumer_storage_scopes_ st !! p = Some demand ->
      storage_scope_ st !! p = Some scopes -> scopes <> [] /\ ~ mixed scopes) ->
  exists table,
    LegalizeProducerStorage st = Ok (set_storage_scope table st) /\
    forall p,
      table !! p =
      match consumer_storage_scopes_ st !! p with
      | Some demand => legalized demand <$> storage_scope_ st !! p
      | None => storage_scope_ st !! p
      end.
Proof.
  intros H. unfold LegalizeProducerStorage.
  destruct (Legalize_loop_ok _ (NoDup_fst_map_to_list (consumer_storage_scopes_ st))
              (storage_scope_ st)) as (table & E & Hin & Hout).
  { intros p demand scopes Hl. apply elem_of_map_to_list in Hl. eauto. }
  exists table. rewrite E. split; [reflexivity|]. intros p.
  destruct (consumer_storage_scopes_ st !! p) as [demand|] eqn:Hc.
  - apply Hin. now apply elem_of_map_to_list.
  - apply Hout. intros Hl. apply list_elem_of_fmap in Hl as ([q d] & -> & Hl).
    apply elem_of_map_to_list in Hl. cbn in Hc. congruence.
Qed.

(** X8.  Legalizing twice is legalizing once: on a state whose producers with
    demand have non-empty candidate vectors without two different
    entries, the legalization returns, and applied to its own result it
    returns that result again. *)
Theorem LegalizeProducerStorage_idempotent (st : StorageInfo) :
  (forall p demand scopes,
      consumer_storage_scopes_ st !! p = Some demand ->
      storage_scope_ st !! p = Some scopes -> scopes <> [] /\ ~ mixed scopes) ->
  exists st',
    LegalizeProducerStorage st = Ok st' /\ LegalizeProducerStorage st' = Ok st'.
Proof.
  intros H. destruct (LegalizeProducerStorage_lookup st H) as (table & E & Ht).
  exists (set_storage_scope table st). split; [exact E|].
  destruct (LegalizeProducerStorage_lookup (set_storage_scope table st)) as (table2 & E2 & Ht2).
  { cbn. intros p demand scopes Hc Hs. rewrite Ht, Hc in Hs.
    destruct (storage_scope_ st !! p) as [s0|] eqn:Hs0; [|discriminate].
    injection Hs as <-. destruct (H p demand s0 Hc Hs0) as [Hne Hnm].
    split; [now apply legalized_nonempty|now apply legalized_not_mixed]. }
  rewrite E2. f_equal. cbn.
  replace table2 with table; [reflexivity|].
  apply map_eq. intros p. rewrite Ht2. cbn. rewrite !Ht.
  destruct (consumer_storage_scopes_ st !! p) as [demand|]; [|reflexivity].
  destruct (storage_scope_ st !! p) as [s0|]; [|reflexivity].
  cbn. now rewrite legalized_idem.
Qed.

Lemma LegalizeProducerStorage_idempotent_witness :
  exists st',
    LegalizeProducerStorage legalize_example = Ok st' /\
    LegalizeProducerStorage st' = Ok st'.
Proof.
  apply LegalizeProducerStorage_idempotent.
  intros p demand scopes _ Hs. unfold legalize_example in Hs. cbn [storage_scope_] in Hs.
  apply lookup_singleton_Some in Hs as [_ <-]. split; [discriminate|].
  intros (a & b & Ha & Hb & Hab).
  apply elem_of_cons in Ha as [->|Ha]; apply elem_of_cons in Hb as [->|Hb];
    repeat match goal with
           | H : _ ∈ [_] |- _ => apply list_elem_of_singleton in H; subst
           end; congruence.
Defined.

Lemma found_scope_global (s : string) : is_scope s -> found s "global" = true.
Proof. intros [->|[->|[->| ->]]]; reflexivity. Qed.

Lemma found_scope_texture (s : string) :
  is_scope s -> found s "global.texture" = negb (String.eqb s "global").
Proof. intros [->|[->|[->| ->]]]; reflexivity. Qed.

Lemma uniform_replicate (first : string) (rest : list string) :
  uniform (first :: rest) -> first :: rest = replicate (length (first :: rest)) first.
Proof.
  intros Hu. cbn [length replicate]. f_equal.
  assert (Forall (fun s => s = first) rest) as Hall.
  { apply Forall_forall. intros s Hs. apply Hu; [now right|left]. }
  clear Hu. induction Hall as [|s rest -> _ IH]; cbn; [reflexivity|now rewrite <- IH].
Qed.

(** X9.  The legalization never lowers a scope.  On a state whose producers
    with demand have non-empty uniform candidates among the four
    scopes, it returns and leaves every candidate as it was, except
    that a candidate made of ["global"] only, of a producer all of whose
    consumers accept textures, becomes ["global.texture"] in every
    position. *)
Theorem LegalizeProducerStorage_raises (st : StorageInfo) :
  (forall p demand scopes,
      consumer_storage_scopes_ st !! p = Some demand ->
      storage_scope_ st !! p = Some scopes ->
      scopes <> [] /\ uniform scopes /\ Forall is_scope scopes) ->
  exists st',
    LegalizeProducerStorage st = Ok st' /\
    consumer_storage_scopes_ st' = consumer_storage_scopes_ st /\
    forall p,
      storage_scope_ st' !! p =
      match storage_scope_ st !! p, consumer_storage_scopes_ st !! p with
      | Some scopes, Some demand =>
          if String.eqb (GetConsumerScope demand) "global.texture"
             && String.eqb (hd "" scopes) "global"
          then Some (replicate (length scopes) "global.texture")
          else Some scopes
      | candidate, _ => candidate
      end.
Proof.
  intros H. destruct (LegalizeProducerStorage_lookup st) as (table & E & Ht).
  { intros p demand scopes Hc Hs. destruct (H p demand scopes Hc Hs) as (Hne & Hu & _).
    split; [exact Hne|now apply uniform_not_mixed]. }
  exists (set_storage_scope table st). split; [exact E|]. split; [reflexivity|].
  intros p. cbn. rewrite Ht.
  destruct (consumer_storage_scopes_ st !! p) as [demand|] eqn:Hc;
    [|now destruct (storage_scope_ st !! p)].
  destruct (storage_scope_ st !! p) as [scopes|] eqn:Hs; [|reflexivity].
  destruct (H p demand scopes Hc Hs) as (Hne & Hu & Hsc).
  destruct scopes as [|first rest]; [contradiction|].
  apply Forall_cons in Hsc as [Hfirst _]. cbn [fmap option_fmap option_map legalized hd].
  destruct (GetConsumerScope_cases demand) as [-> | ->].
  - now rewrite (found_scope_global _ Hfirst).
  - rewrite (found_scope_texture _ Hfirst).
    replace ("global.texture" =? "global.texture")%string with true by reflexivity.
    cbn [andb]. destruct (String.eqb first "global"); cbn [negb]; [|reflexivity].
    now rewrite map_const_replicate.
Qed.

Lemma LegalizeProducerStorage_raises_witness :
  exists st',
    LegalizeProducerStorage legalize_example = Ok st' /\
    storage_scope_ st' !! 1%positive = Some ["global.texture"; "global.texture"].
Proof.
  destruct (LegalizeProducerStorage_raises legalize_example) as (st' & E & _ & H).
  - intros p demand scopes _ Hs. unfold legalize_example in Hs. cbn [storage_scope_] in Hs.
    apply lookup_singleton_Some in Hs as [_ <-]. split; [discriminate|]. split.
    + intros a b Ha Hb.
      apply elem_of_cons in Ha as [->|Ha]; apply elem_of_cons in Hb as [->|Hb];
        repeat match goal with
               | H : _ ∈ [_] |- _ => apply list_elem_of_singleton in H; subst
               end; reflexivity.
    + repeat constructor.
  - exists st'. split; [exact E|]. rewrite H. reflexivity.
Defined.

(** ** The scopes of the map returned *)

Lemma scope_vector_push (x : string) (old : option (list string)) :
  is_scope x -> (forall l, old = Some l -> scope_vector l) ->
  scope_vector (default [] old ++ [x]).
Proof.
  intros Hx Hold. split; [destruct (default [] old); discriminate|].
  apply Forall_app. split; [|constructor; [exact Hx|constructor]].
  destruct old as [l|]; cbn; [|constructor]. now apply (Hold l).
Qed.

Lemma scope_vectors_push (k : positive) (x : string) (table : gmap positive (list string)) :
  is_scope x -> map_Forall (fun _ => scope_vector) table ->
  map_Forall (fun _ => scope_vector) (push_back k x table).
Proof.
  intros Hx Ht. unfold push_back. apply map_Forall_insert_2; [|exact Ht].
  apply scope_vector_push; [exact Hx|]. intros l Hl. exact (Ht _ _ Hl).
Qed.

Lemma GetConsumerScope_is_scope (demand : list string) : is_scope (GetConsumerScope demand).
Proof. destruct (GetConsumerScope_cases demand) as [-> | ->]; unfold is_scope; auto. Qed.

Lemma scope_vectors_VisitExpr (expr : Expr) (st st' : StorageInfo) :
  map_Forall (fun _ => scope_vector) (storage_scope_ st) ->
  VisitExpr expr st = Ok st' ->
  map_Forall (fun _ => scope_vector) (storage_scope_ st').
Proof.
  apply (VisitExpr_preserves (demand_sites expr) (primitive_calls expr)
           (primitive_params expr)
           (fun s => map_Forall (fun _ => scope_vector) (storage_scope_ s)));
    try reflexivity.
  - intros b s H. exact H.
  - intros q s H. exact H.
  - intros n s s' H. unfold ApplyConsumerScopeToInputs.
    destruct (consumer_storage_scopes_ s !! addr n) as [demand|]; [|now intros [= <-]].
    destruct (has_key _ _); [discriminate|]. intros E.
    apply bind_Ok in E as ([scope vec] & Ho & E).
    destruct (found _ _); [destruct vec eqn:Hv|]; injection E as <-; try exact H; cbn.
    + apply scope_vectors_push; [|exact H].
      pose proof (own_scope_vectorizable _ _ _ Ho) as Hos.
      destruct (checked_type_ n); try (destruct Hos; discriminate).
      destruct Hos as [Hs _]. exact (Scope_is_scope _ _ _ Hs).
    + apply scope_vectors_push; [apply GetConsumerScope_is_scope|exact H].
  - intros call vars args s s' _ _ H. unfold AssignAndBind.
    destruct (primitive_supports_texture_ s); [|now intros [= <-]].
    intros E. apply bind_Ok in E as (s1 & E1 & E).
    apply bind_Ok in E as (table & _ & [= <-]). cbn.
    unfold AssignCallScope in E1. destruct (checked_type_ call) as [shape|fields|];
      [| |discriminate].
    + apply bind_Ok in E1 as (scope & Hs & [= <-]). cbn.
      apply scope_vectors_push; [exact (Scope_is_scope _ _ _ Hs)|exact H].
    + injection E1 as <-. cbn. revert H. generalize (storage_scope_ s).
      induction fields as [|f fields IH]; intros t Ht; cbn [fold_left]; [exact Ht|].
      apply IH. apply scope_vectors_push; [|exact Ht]. unfold is_scope. auto.
  - intros call arg s s' _ H. unfold RecordConsumerScope. destruct (has_key _ _).
    + intros E. apply bind_Ok in E as (b & _ & E). destruct b; [discriminate|].
      now injection E as <-.
    + now intros [= <-].
  - intros s arg H p scopes Hp. apply RetractArg_subset in Hp. exact (H _ _ Hp).
Qed.

Lemma scope_vectors_Legalize (l : list (positive * list string)) :
  forall table table' : gmap positive (list string),
    map_Forall (fun _ => scope_vector) table ->
    foldM LegalizeProducer l table = Ok table' ->
    map_Forall (fun _ => scope_vector) table'.
Proof.
  induction l as [|[p d] l IH]; intros table table' Ht E; cbn [foldM] in E.
  - now injection E as <-.
  - apply bind_Ok in E as (t1 & E1 & E). apply (IH t1 table'); [|exact E].
    unfold LegalizeProducer in E1. cbn [fst snd] in E1.
    destruct (table !! p) as [scopes|] eqn:Hp; [|now injection E1 as <-].
    apply bind_Ok in E1 as (b & _ & E1). destruct b; [discriminate|].
    destruct scopes as [|first rest]; [discriminate|].
    destruct (negb _); injection E1 as <-; [|exact Ht].
    apply map_Forall_insert_2; [|exact Ht]. split; [discriminate|].
    apply Forall_forall. intros s Hs.
    apply elem_of_cons in Hs as [->|Hs]; [apply GetConsumerScope_is_scope|].
    apply list_elem_of_In, in_map_iff in Hs as (? & <- & _). apply GetConsumerScope_is_scope.
Qed.

(** X10.  Every vector of the map the analysis returns is non-empty, so that
    the rewriting can take its first entry, and holds nothing but
    ["global"], ["global.texture"], ["global.texture-nhwc"] and
    ["global.texture-weight"]. *)
Theorem GetStorageMap_scopes (expr : Expr) (storage_map : gmap positive (list string))
    (p : positive) (scopes : list string) :
  GetStorageMap expr = Ok storage_map ->
  storage_map !! p = Some scopes ->
  scopes <> [] /\ Forall is_scope scopes.
Proof.
  intros Hg Hp. apply GetStorageMap_Analyze in Hg as (st & Ha & ->).
  destruct (AddVarsAll_values (args_to_vars_ st)
              (FillInputs (consumer_storage_scopes_ st) (storage_scope_ st))) as [_ Hv].
  destruct (Hv p scopes Hp) as (q & Hq). clear Hv Hp.
  rewrite FillInputs_lookup in Hq.
  destruct (storage_scope_ st !! q) as [s|] eqn:Hs.
  - injection Hq as <-. unfold Analyze in Ha. apply bind_Ok in Ha as (st0 & E0 & Ha).
    unfold LegalizeProducerStorage in Ha. apply bind_Ok in Ha as (table & Et & [= <-]).
    cbn in Hs. eapply (scope_vectors_Legalize _ _ _ _ Et _ _ Hs).
  - destruct (consumer_storage_scopes_ st !! q) as [d|]; [|discriminate].
    destruct (CanConsumeTextures d); [|discriminate]. injection Hq as <-.
    split; [discriminate|]. repeat constructor.
  Unshelve.
  apply (scope_vectors_VisitExpr expr StorageInfo_init st0); [|exact E0].
  apply map_Forall_empty.
Qed.

Lemma GetStorageMap_scopes_witness :
  ["global.texture"] <> [] /\ Forall is_scope ["global.texture"].
Proof.
  assert (exists m, GetStorageMap scenario_A = Ok m /\ m !! 1%positive = Some ["global.texture"])
    as (m & Hg & Hp).
  { eexists. split; [vm_compute; reflexivity|reflexivity]. }
  exact (GetStorageMap_scopes scenario_A m 1%positive ["global.texture"] Hg Hp).
Defined.

(** ** The devices found and the analysis they select *)

Lemma set_insert_elem (x d : string) (s : list string) :
  d ∈ set_insert x s <-> d = x \/ d ∈ s.
Proof.
  induction s as [|y s IH]; cbn [set_insert].
  - rewrite list_elem_of_singleton. set_solver.
  - destruct (String.compare x y) eqn:Hc.
    + apply String.compare_eq_iff in Hc as ->. set_solver.
    + set_solver.
    + rewrite !elem_of_cons, IH. tauto.
Qed.

Lemma compare_trans (a b c : string) :
  before a b -> before b c -> before a c.
Proof.
  unfold before. revert b c.
  induction a as [|ca a IHa]; intros [|cb b] [|cc c]; cbn; try congruence.
  destruct (Ascii.compare ca cb) eqn:E1; try discriminate;
    destruct (Ascii.compare cb cc) eqn:E2; try discriminate.
  - apply Ascii.compare_eq_iff in E1 as ->. apply Ascii.compare_eq_iff in E2 as ->.
    unfold Ascii.compare. rewrite N.compare_refl. apply IHa.
  - apply Ascii.compare_eq_iff in E1 as ->. now rewrite E2.
  - apply Ascii.compare_eq_iff in E2 as ->. now rewrite E1.
  - intros _ _. unfold Ascii.compare in *. rewrite N.compare_lt_iff in E1, E2.
    assert (N_of_ascii ca < N_of_ascii cc)%N as H by lia.
    apply N.compare_lt_iff in H. now rewrite H.
Qed.

Lemma set_insert_sorted (x : string) (s : list string) :
  StronglySorted before s -> StronglySorted before (set_insert x s).
Proof.
  induction 1 as [|y s Hs IH Hy]; cbn [set_insert].
  - repeat constructor.
  - destruct (String.compare x y) eqn:Hc.
    + now constructor.
    + constructor; [now constructor|]. constructor; [exact Hc|].
      revert Hy. apply List.Forall_impl. intros z Hz. exact (compare_trans _ _ _ Hc Hz).
    + constructor; [exact IH|]. apply List.Forall_forall. intros z Hz.
      apply list_elem_of_In, set_insert_elem in Hz as [->|Hz].
      * unfold before. rewrite String.compare_antisym, Hc. reflexivity.
      * rewrite List.Forall_forall in Hy. apply Hy. now apply list_elem_of_In.
Qed.

Lemma AddDevice_name (call : RelayExprNode) (devices devices' : list string) :
  AddDevice call devices = Ok devices' ->
  devices' = match device_name call with
             | Some d => set_insert d devices
             | None => devices
             end.
Proof.
  unfold AddDevice, device_name. destruct (is_constrained _); [|congruence].
  destruct (target _) as [t|]; [|discriminate]. destruct (device_attr t); congruence.
Qed.

Lemma Run_call (call : RelayExprNode) (op : Expr) (args : list Expr) (attrs : Attrs)
    (c : CollectVirtualDevices) :
  Run (CallNode call op args attrs) c =
  if bool_decide (addr call ∈ seen_ c) then Ok c
  else c' ← (devices ← AddDevice call (devices_ c);
             foldM VisitDevices args (mkCollectVirtualDevices devices (seen_ c)));
       Ok (seen (addr call) c').
Proof. reflexivity. Qed.

Lemma Run_function (n : RelayExprNode) (params : list Var) (body : Expr) (primitive : bool)
    (c : CollectVirtualDevices) :
  Run (FunctionNode n params body primitive) c =
  if bool_decide (addr n ∈ seen_ c) then Ok c
  else c' ← (c1 ← foldM RunVar params c; Run body c1); Ok (seen (addr n) c').
Proof. reflexivity. Qed.

Lemma Run_leaf (e : Expr) (c : CollectVirtualDevices) :
  match e with VarNode _ | ConstantNode _ | OpNode _ _ => True | _ => False end ->
  Run e c = if bool_decide (ptr e ∈ seen_ c) then Ok c else Ok (seen (ptr e) c).
Proof. destruct e; intros []; reflexivity. Qed.

Lemma seen_names_mark (root e0 : Expr) (c : CollectVirtualDevices) :
  addresses_identify root -> e0 ∈ subterms root ->
  names_in e0 (devices_ c) -> seen_names root c -> seen_names root (seen (ptr e0) c).
Proof.
  intros Hid H0 Hn Hs e He Hp. cbn in Hp. apply elem_of_union in Hp as [Hp|Hp].
  - apply elem_of_singleton in Hp. rewrite (Hid e e0 He H0 Hp). exact Hn.
  - exact (Hs e He Hp).
Qed.

Lemma collects_refl (root e : Expr) (c : CollectVirtualDevices) :
  ptr e ∈ seen_ c -> collects root e c c.
Proof. intros Hp. split; auto. Qed.

Lemma collects_RunVars (root : Expr) (params : list Var) :
  forall c c',
    foldM RunVar params c = Ok c' ->
    devices_ c' = devices_ c /\
    (addresses_identify root -> (forall v, v ∈ params -> VarNode v ∈ subterms root) ->
     seen_names root c -> seen_names root c').
Proof.
  induction params as [|v params IH]; intros c c' E; cbn [foldM] in E.
  - injection E as <-. auto.
  - apply bind_Ok in E as (c1 & [= <-] & E). destruct (IH _ _ E) as [Hd Hs].
    split; [exact Hd|]. intros Hid Hsub Hc. apply Hs; [exact Hid|set_solver|].
    apply (seen_names_mark root (VarNode v)); [exact Hid|apply Hsub; set_solver| |exact Hc].
    intros n d Hn. cbn in Hn. set_solver.
Qed.

Lemma collects_leaf (root e : Expr) (c c' : CollectVirtualDevices) :
  match e with VarNode _ | ConstantNode _ | OpNode _ _ => True | _ => False end ->
  Run e c = Ok c' -> collects root e c c'.
Proof.
  intros Hl. rewrite (Run_leaf e c Hl). case_bool_decide; intros [= <-].
  - now apply collects_refl.
  - assert (names_in e (devices_ c)) as Hn.
    { intros n d Hn. destruct e; try destruct Hl; cbn in Hn; set_solver. }
    split; cbn [seen devices_]; auto. intros Hid He Hs. split; [|exact Hn].
    now apply seen_names_mark.
Qed.

Lemma collects_VisitDevices (root arg : Expr) (c c' : CollectVirtualDevices) :
  (forall c c', Run arg c = Ok c' -> collects root arg c c') ->
  match arg with
  | FunctionNode _ _ body _ => forall c c', Run body c = Ok c' -> collects root body c c'
  | _ => True
  end ->
  VisitDevices arg c = Ok c' -> collects root arg c c'.
Proof.
  intros Hrun Hbody. destruct arg as [v|n|call op args attrs|n params body prim|n name];
    try exact (Hrun c c').
  cbn [VisitDevices]. intros E. apply bind_Ok in E as (c1 & E1 & E).
  destruct (Hbody _ _ E1) as [H1 H2 H3 H4].
  destruct (collects_RunVars root params _ _ E) as [Hd Hs].
  split; rewrite ?Hd; try assumption.
  intros Hid He Hc.
  assert (body ∈ subterms root) as Hb.
  { apply (subterms_trans _ _ _ He). apply subterms_body, subterms_self. }
  destruct (H4 Hid Hb Hc) as [Hc1 Hn]. split; [|exact Hn].
  apply Hs; [exact Hid| |exact Hc1].
  intros v Hv. apply (subterms_trans _ _ _ He). cbn [subterms].
  apply elem_of_cons. right. apply elem_of_app. left. now apply list_elem_of_fmap_2.
Qed.

Lemma names_in_keeps (e : Expr) (devices devices' : list string) :
  (forall d, d ∈ devices -> d ∈ devices') -> names_in e devices -> names_in e devices'.
Proof. intros Hsub Hn n d Hin Hd. eauto. Qed.

Lemma collects_args (root : Expr) (args : list Expr) :
  Forall (fun a => forall c c', VisitDevices a c = Ok c' -> collects root a c c') args ->
  forall c c',
    foldM VisitDevices args c = Ok c' ->
    (StronglySorted before (devices_ c) -> StronglySorted before (devices_ c')) /\
    (forall d, d ∈ devices_ c' ->
               d ∈ devices_ c \/
               exists a n, a ∈ args /\ n ∈ device_calls a /\ device_name n = Some d) /\
    (forall d, d ∈ devices_ c -> d ∈ devices_ c') /\
    (addresses_identify root -> (forall a, a ∈ args -> a ∈ subterms root) ->
     seen_names root c ->
     seen_names root c' /\ forall a, a ∈ args -> names_in a (devices_ c')).
Proof.
  induction 1 as [|a args Ha _ IH]; intros c c' E; cbn [foldM] in E.
  - injection E as <-. repeat split; auto. intros a Ha. set_solver.
  - apply bind_Ok in E as (c1 & E1 & E).
    destruct (Ha _ _ E1) as [A1 A2 A3 A4]. destruct (IH _ _ E) as (B1 & B2 & B3 & B4).
    split; [auto|]. split; [|split; [auto|]].
    + intros d Hd. destruct (B2 d Hd) as [Hd1|(b & n & Hb & Hn)].
      * destruct (A2 d Hd1) as [?|(n & Hn)]; [now left|].
        right. exists a, n. split; [left|exact Hn].
      * right. exists b, n. split; [now right|exact Hn].
    + intros Hid Hsub Hc.
      destruct (A4 Hid (Hsub a ltac:(left)) Hc) as [Hc1 Hn1].
      destruct (B4 Hid (fun b Hb => Hsub b ltac:(now right)) Hc1) as [Hc2 Hn2].
      split; [exact Hc2|]. intros b Hb. apply elem_of_cons in Hb as [->|Hb]; [|auto].
      exact (names_in_keeps _ _ _ B3 Hn1).
Qed.

Lemma collects_Run (root expr : Expr) :
  (forall c c', Run expr c = Ok c' -> collects root expr c c') /\
  match expr with
  | FunctionNode _ _ body _ => forall c c', Run body c = Ok c' -> collects root body c c'
  | _ => True
  end.
Proof.
  induction expr as [v|n|call op args attrs IHop IHargs|n ps body primitive IH|n name]
    using Expr_nested_ind.
  - split; [|exact I]. intros c c'. now apply collects_leaf.
  - split; [|exact I]. intros c c'. now apply collects_leaf.
  - split; [|exact I]. intros c c'. rewrite Run_call.
    case_bool_decide as Hseen; [intros [= <-]; now apply collects_refl|].
    intros E. apply bind_Ok in E as (c2 & E & [= <-]).
    apply bind_Ok in E as (devices & Ed & E). apply AddDevice_name in Ed.
    assert (Forall (fun a => forall c c', VisitDevices a c = Ok c' -> collects root a c c')
                   args) as Hargs.
    { revert IHargs. apply List.Forall_impl. intros a [Ha1 Ha2] c0 c0'.
      now apply collects_VisitDevices. }
    destruct (collects_args root args Hargs _ _ E) as (B1 & B2 & B3 & B4).
    cbn [devices_ seen_] in B1, B2, B3, B4.
    assert (forall d, d ∈ devices_ c -> d ∈ devices) as Hkeep.
    { intros d Hd. subst devices. destruct (device_name call); [|exact Hd].
      apply set_insert_elem. now right. }
    split; cbn [seen devices_].
    + intros Hs. apply B1. subst devices. destruct (device_name call); [|exact Hs].
      now apply set_insert_sorted.
    + intros d Hd. cbn [device_calls]. destruct (B2 d Hd) as [Hd0|(a & m & Ha & Hm & Hdm)].
      * subst devices. destruct (device_name call) as [d0|] eqn:Hname; [|now left].
        apply set_insert_elem in Hd0 as [->|Hd0]; [|now left].
        right. exists call. split; [left|exact Hname].
      * right. exists m. split; [|exact Hdm]. right.
        apply list_elem_of_In, in_concat. exists (device_calls a).
        split; [|now apply list_elem_of_In].
        apply list_elem_of_In. now apply list_elem_of_fmap_2.
    + auto.
    + intros Hid He Hc.
      assert (seen_names root (mkCollectVirtualDevices devices (seen_ c))) as Hc0.
      { intros e Hs Hp. exact (names_in_keeps _ _ _ Hkeep (Hc e Hs Hp)). }
      destruct (B4 Hid) as [Hc2 Hn2]; [|exact Hc0|].
      { intros a Ha. apply (subterms_trans _ _ _ He).
        apply (subterms_arg _ _ _ _ a); [exact Ha|apply subterms_self]. }
      assert (names_in (CallNode call op args attrs) (devices_ c2)) as Hn.
      { intros m d Hm Hd. cbn [device_calls] in Hm. apply elem_of_cons in Hm as [->|Hm].
        - apply B3. subst devices. rewrite Hd. apply set_insert_elem. now left.
        - apply list_elem_of_In, in_concat in Hm as (l & Hl & Hm).
          apply list_elem_of_In, list_elem_of_fmap in Hl as (a & -> & Ha).
          apply list_elem_of_In in Hm. exact (Hn2 a Ha m d Hm Hd). }
      split; [|exact Hn].
      exact (seen_names_mark root (CallNode call op args attrs) c2 Hid He Hn Hc2).
  - destruct IH as [IH _]. split; [|exact IH]. intros c c'. rewrite Run_function.
    case_bool_decide as Hseen; [intros [= <-]; now apply collects_refl|].
    intros E. apply bind_Ok in E as (c2 & E & [= <-]).
    apply bind_Ok in E as (c1 & E1 & E).
    destruct (collects_RunVars root ps _ _ E1) as [Hd Hs].
    destruct (IH _ _ E) as [H1 H2 H3 H4]. rewrite Hd in H1, H2, H3.
    split; cbn [seen devices_ device_calls]; try assumption.
    intros Hid He Hc.
    assert (seen_names root c1) as Hc1.
    { apply Hs; [exact Hid| |exact Hc]. intros v Hv. apply (subterms_trans _ _ _ He).
      cbn [subterms]. apply elem_of_cons. right. apply elem_of_app. left.
      now apply list_elem_of_fmap_2. }
    destruct (H4 Hid) as [Hc2 Hn]; [|exact Hc1|].
    { apply (subterms_trans _ _ _ He). apply subterms_body, subterms_self. }
    split; [|exact Hn].
    exact (seen_names_mark root (FunctionNode n ps body primitive) c2 Hid He Hn Hc2).
  - split; [|exact I]. intros c c'. now apply collects_leaf.
Qed.

(** X11.  The devices returned are the names [kind.device] of the calls
    reached through arguments and function bodies whose placement is
    constrained and whose target has a device attribute: every name
    returned is the name of such a call, the names come in strictly
    increasing order, and, when addresses identify nodes, the name of
    every such call is returned.  A call in the operator of another call
    contributes nothing. *)
Theorem GetDevices_names (expr : Expr) (devices : list string) :
  GetDevices expr = Ok devices ->
  StronglySorted before devices /\
  (forall d, d ∈ devices -> exists n, n ∈ device_calls expr /\ device_name n = Some d) /\
  (addresses_identify expr ->
   forall n d, n ∈ device_calls expr -> device_name n = Some d -> d ∈ devices).
Proof.
  unfold GetDevices. intros E. apply bind_Ok in E as (c & E & [= <-]).
  destruct (proj1 (collects_Run expr expr) _ _ E) as [H1 H2 H3 H4].
  cbn [devices_ seen_] in *. split; [apply H1; constructor|]. split.
  - intros d Hd. destruct (H2 d Hd) as [Hd0|Hn]; [|exact Hn]. set_solver.
  - intros Hid. destruct (H4 Hid (subterms_self expr)) as [_ Hn]; [|exact Hn].
    intros e _ Hp. cbn in Hp. set_solver.
Qed.

Lemma GetDevices_names_witness :
  exists n, n ∈ device_calls scenario_A /\ device_name n = Some "opencl.adreno".
Proof.
  destruct (GetDevices_names scenario_A ["opencl.adreno"]) as (_ & H & _).
  - vm_compute. reflexivity.
  - apply H. left.
Defined.

Lemma append_assoc (a b c : string) : ((a ++ b) ++ c = a ++ (b ++ c))%string.
Proof.
  induction a as [|x a IH]; [reflexivity|].
  change (String x ((a ++ b) ++ c) = String x (a ++ (b ++ c))). now rewrite IH.
Qed.

Lemma append_empty (a : string) : (a ++ "")%string = a.
Proof.
  induction a as [|x a IH]; [reflexivity|].
  change (String x (a ++ "")%string = String x a). f_equal. exact IH.
Qed.

Lemma length_append (a b : string) :
  String.length (a ++ b) = (String.length a + String.length b)%nat.
Proof.
  induction a as [|x a IH]; [reflexivity|].
  change (S (String.length (a ++ b)) = S (String.length a + String.length b)).
  now rewrite IH.
Qed.

Lemma append_cancel (c : string) : forall a b : string, (a ++ c = b ++ c)%string -> a = b.
Proof.
  induction a as [|x a IH]; intros [|y b] H.
  - reflexivity.
  - apply (f_equal String.length) in H. rewrite !length_append in H.
    cbn [String.length] in H. lia.
  - apply (f_equal String.length) in H. rewrite !length_append in H.
    cbn [String.length] in H. lia.
  - change (String x (a ++ c) = String y (b ++ c)) in H.
    injection H as -> H. f_equal. now apply IH.
Qed.

Lemma dots_append (a b : string) : dots (a ++ b) = (dots a + dots b)%nat.
Proof.
  induction a as [|x a IH]; [reflexivity|].
  change ((if Ascii.eqb x "."%char then 1 else 0) + dots (a ++ b)
          = (if Ascii.eqb x "."%char then 1 else 0) + dots a + dots b)%nat.
  rewrite IH. lia.
Qed.

Lemma registry_key_dotted (devices : list string) :
  registry_key devices = ("relay.backend" ++ dotted devices ++ "._CollectStorageInfo")%string.
Proof.
  unfold registry_key. generalize "relay.backend".
  induction devices as [|d devices IH]; intros acc; cbn [fold_left dotted].
  - reflexivity.
  - rewrite IH, !append_assoc. reflexivity.
Qed.

Lemma device_name_dots (n : RelayExprNode) (d : string) :
  device_name n = Some d -> (1 <= dots d)%nat.
Proof.
  unfold device_name. destruct (is_constrained _); [|discriminate].
  destruct (target _) as [t|]; [|discriminate].
  destruct (device_attr t) as [dev|]; [|discriminate]. intros [= <-].
  rewrite !dots_append. change (dots ".") with 1%nat. lia.
Qed.

Lemma registered_dispatch (expr : Expr) (devices : list string) :
  GetDevices expr = Ok devices ->
  CollectStorageInfo registered expr =
  if bool_decide (devices = ["opencl.adreno"]) then CollectTextureStorage expr else Ok ∅.
Proof.
  intros Hg. unfold CollectStorageInfo. rewrite Hg. cbn [mbind result_bind].
  assert (Forall (fun d => 1 <= dots d)%nat devices) as Hdots.
  { unfold GetDevices in Hg. apply bind_Ok in Hg as (c & E & [= <-]).
    destruct (proj1 (collects_Run expr expr) _ _ E) as [_ H _ _].
    apply Forall_forall. intros d Hd. destruct (H d Hd) as [H0|(n & _ & Hn)].
    - cbn in H0. set_solver.
    - exact (device_name_dots n d Hn). }
  unfold registered. case_bool_decide as Hd.
  - subst devices. reflexivity.
  - destruct (String.eqb_spec (registry_key devices)
                "relay.backend.opencl.adreno._CollectStorageInfo") as [Hk|]; [|reflexivity].
    exfalso. apply Hd. rewrite registry_key_dotted in Hk.
    change "relay.backend.opencl.adreno._CollectStorageInfo"
      with ("relay.backend" ++ ".opencl.adreno" ++ "._CollectStorageInfo")%string in Hk.
    apply String.app_inj, append_cancel in Hk.
    destruct devices as [|d1 [|d2 rest]]; cbn [dotted] in Hk.
    + discriminate.
    + rewrite append_empty in Hk. change ("." ++ d1)%string with (String "." d1) in Hk.
      now injection Hk as ->.
    + apply (f_equal dots) in Hk. inversion Hdots as [|? ? H1 Hrest]; subst.
      inversion Hrest as [|? ? H2 _]; subst.
      rewrite !dots_append in Hk. change (dots ".") with 1%nat in Hk.
      change (dots ".opencl.adreno") with 2%nat in Hk. lia.
Qed.

(** X12.  With the registration of this file and no other, the texture
    analysis runs exactly when the devices of the graph are the single
    device ["opencl.adreno"]: a graph without device, on another device,
    or on [opencl.adreno] together with any other device gets the empty
    map, and the pass returns it as it is. *)
Theorem CollectStorageInfo_registered (expr : Expr) (devices : list string) :
  GetDevices expr = Ok devices ->
  CollectStorageInfo registered expr
  = (if bool_decide (devices = ["opencl.adreno"]) then CollectTextureStorage expr else Ok ∅) /\
  (devices <> ["opencl.adreno"] ->
   forall Rewrite, AnnotateMemoryScopeExpr registered Rewrite expr = Ok expr).
Proof.
  intros Hg. split; [now apply registered_dispatch|].
  intros Hd Rewrite. unfold AnnotateMemoryScopeExpr.
  rewrite (registered_dispatch expr devices Hg), bool_decide_eq_false_2 by exact Hd.
  reflexivity.
Qed.

Lemma CollectStorageInfo_registered_witness :
  CollectStorageInfo registered scenario_A = CollectTextureStorage scenario_A.
Proof.
  exact (proj1 (CollectStorageInfo_registered scenario_A ["opencl.adreno"] eq_refl)).
Defined.

(** ** A candidate needs unanimous demand *)

Lemma subterms_length (expr : Expr) :
  forall x, x ∈ subterms expr -> (length (subterms x) <= length (subterms expr))%nat.
Proof.
  induction expr as [v|n|call op args attrs IHop IHargs|n ps body primitive IH|n name]
    using Expr_nested_ind; intros x Hx; cbn [subterms] in Hx;
    apply elem_of_cons in Hx as [->|Hx]; try lia; try (now inversion Hx).
  - cbn [subterms length]. rewrite length_app. apply elem_of_app in Hx as [Hx|Hx].
    + specialize (IHop x Hx). lia.
    + apply list_elem_of_In, in_concat in Hx as (l & Hl & Hx).
      apply list_elem_of_In, list_elem_of_fmap in Hl as (a & -> & Ha).
      rewrite List.Forall_forall in IHargs.
      pose proof (IHargs a (proj1 (list_elem_of_In _ _) Ha) x
                         (proj2 (list_elem_of_In _ _) Hx)) as Hle.
      assert (length (subterms a) <= length (concat (subterms <$> args)))%nat; [|lia].
      clear -Ha. induction Ha as [a args|a b args _ IHa]; cbn; rewrite length_app; lia.
  - cbn [subterms length]. rewrite length_app. apply elem_of_app in Hx as [Hx|Hx].
    + apply list_elem_of_fmap in Hx as (v & -> & _). cbn. lia.
    + specialize (IH x Hx). lia.
Qed.

(** A call is none of the nodes below its operator. *)
Lemma operator_addresses (root : Expr) (call : RelayExprNode) (op : Expr) (args : list Expr)
    (attrs : Attrs) :
  addresses_identify root -> CallNode call op args attrs ∈ subterms root ->
  addr call ∉ addresses op.
Proof.
  intros Hid Hc Hin. unfold addresses in Hin.
  apply elem_of_list_to_set, list_elem_of_fmap in Hin as (x & Hp & Hx).
  assert (x ∈ subterms root) as Hxr.
  { apply (subterms_trans _ _ _ Hc). now apply subterms_op. }
  assert (CallNode call op args attrs = x) as <- by (apply Hid; auto).
  apply subterms_length in Hx. cbn [subterms length] in Hx. rewrite length_app in Hx. lia.
Qed.

Lemma pending_weaken (root : Expr) (waiting waiting' : gset positive) (st : StorageInfo) :
  waiting ⊆ waiting' -> pending root waiting st -> pending root waiting' st.
Proof.
  intros Hsub [H1 H2]. split; intros p demand Hp; [apply H1|apply H2]; set_solver.
Qed.

Lemma pending_set_flag (root : Expr) (waiting : gset positive) (b : bool) (st : StorageInfo) :
  pending root waiting st -> pending root waiting (set_flag b st).
Proof. intros [H1 H2]. split; assumption. Qed.

Lemma pending_mark (root : Expr) (waiting : gset positive) (q : positive) (st : StorageInfo) :
  pending root waiting st -> pending root waiting (mark_visited q st).
Proof.
  intros [H1 H2]. split; [exact H1|]. intros p demand Hp Hd. cbn.
  destruct (H2 p demand Hp Hd); [left; set_solver|now right].
Qed.

Lemma visits_refl (root e : Expr) (st : StorageInfo) : visits root e st st.
Proof. split; [auto|set_solver..]. Qed.

Lemma visits_trans (root e1 e2 e : Expr) (st1 st2 st3 : StorageInfo) :
  addresses e1 ⊆ addresses e -> addresses e2 ⊆ addresses e ->
  visits root e1 st1 st2 -> visits root e2 st2 st3 -> visits root e st1 st3.
Proof. intros S1 S2 [A1 A2 A3] [B1 B2 B3]. split; [auto|set_solver..]. Qed.

Lemma addresses_self (e : Expr) : ptr e ∈ addresses e.
Proof.
  unfold addresses. apply elem_of_list_to_set, list_elem_of_fmap.
  exists e. split; [reflexivity|apply subterms_self].
Qed.

Lemma addresses_subterm (e x : Expr) : x ∈ subterms e -> addresses x ⊆ addresses e.
Proof.
  intros Hx p Hp. unfold addresses in *.
  apply elem_of_list_to_set, list_elem_of_fmap in Hp as (y & -> & Hy).
  apply elem_of_list_to_set, list_elem_of_fmap. exists y. split; [reflexivity|].
  exact (subterms_trans _ _ _ Hx Hy).
Qed.

(** The leaf rule gives a candidate to the leaf visited only. *)
Lemma pending_leaf (root e : Expr) (n : RelayExprNode) (waiting : gset positive)
    (st st' : StorageInfo) :
  addresses_identify root -> e ∈ subterms root -> is_leaf e = true -> ptr e = addr n ->
  addr n ∉ visit_counter_ st ->
  ApplyConsumerScopeToInputs n st = Ok st' ->
  visit_counter_ st' = visit_counter_ st /\
  (pending root waiting st -> pending root waiting st').
Proof.
  intros Hid He Hleaf Hptr Hv E.
  pose proof (Apply_consumer _ _ _ E) as Hc.
  assert (visit_counter_ st' = visit_counter_ st /\
          forall p, p <> addr n -> storage_scope_ st' !! p = storage_scope_ st !! p)
    as [HV Hs].
  { revert E. unfold ApplyConsumerScopeToInputs.
    destruct (consumer_storage_scopes_ st !! addr n); [|now intros [= <-]].
    destruct (has_key _ _); [discriminate|]. intros E.
    apply bind_Ok in E as ([scope vec] & _ & E).
    destruct (found _ _); [destruct vec|]; injection E as <-; cbn; split; try reflexivity;
      intros p Hp; rewrite lookup_push_back; now rewrite decide_False by congruence. }
  split; [exact HV|]. intros [H1 H2]. split; rewrite Hc, ?HV; [|exact H2].
  intros p demand Hp Hd Hne. destruct (decide (p = addr n)) as [->|Hpn].
  - exfalso. destruct (H2 _ _ Hp Hd) as [Hin|(fn & ps & body & prim & Hf & Hfa)];
      [contradiction|].
    assert (e = FunctionNode fn ps body prim) as ->.
    { apply Hid; [exact He|exact Hf|]. rewrite Hptr. symmetry. exact Hfa. }
    discriminate.
  - rewrite Hs by exact Hpn. eauto.
Qed.

Lemma VisitVar_visits (root e : Expr) (v : Var) (st st' : StorageInfo) :
  addresses_identify root -> e ∈ subterms root -> is_leaf e = true ->
  ptr e = addr (var_node v) ->
  VisitVar v st = Ok st' -> visits root e st st'.
Proof.
  intros Hid He Hleaf Hptr. unfold VisitVar.
  case_bool_decide as Hv; [intros [= <-]; apply visits_refl|].
  intros E. apply bind_Ok in E as (st1 & E & [= <-]).
  destruct (pending_leaf root e (var_node v) ∅ st st1 Hid He Hleaf Hptr Hv E) as [HV _].
  split; cbn; rewrite ?HV.
  - intros waiting Hp. apply pending_mark.
    now apply (pending_leaf root e (var_node v) waiting st st1 Hid He Hleaf Hptr Hv E).
  - set_solver.
  - pose proof (addresses_self e). rewrite Hptr in H. set_solver.
Qed.

Lemma VisitVars_visits (root fn : Expr) (params : list Var) :
  addresses_identify root ->
  (forall v, v ∈ params -> VarNode v ∈ subterms root /\ VarNode v ∈ subterms fn) ->
  forall st st', foldM VisitVar params st = Ok st' -> visits root fn st st'.
Proof.
  intros Hid. induction params as [|v params IH]; intros Hsub st st' E; cbn [foldM] in E.
  - injection E as <-. apply visits_refl.
  - apply bind_Ok in E as (st1 & E1 & E).
    destruct (Hsub v ltac:(left)) as [Hr Hf].
    apply (visits_trans root (VarNode v) fn fn st st1 st').
    + now apply addresses_subterm.
    + reflexivity.
    + now apply (VisitVar_visits root (VarNode v) v).
    + apply IH; [|exact E]. intros w Hw. apply Hsub. now right.
Qed.

Lemma VisitExpr_marks (e : Expr) (st st' : StorageInfo) :
  VisitExpr e st = Ok st' -> ptr e ∈ visit_counter_ st'.
Proof.
  destruct e as [v|n|call op args attrs|n ps body primitive|n name].
  - rewrite VisitExpr_var. unfold VisitVar. case_bool_decide; [now intros [= <-]|].
    intros E. apply bind_Ok in E as (st1 & _ & [= <-]). cbn. set_solver.
  - rewrite VisitExpr_constant. unfold VisitVar. case_bool_decide; [now intros [= <-]|].
    intros E. apply bind_Ok in E as (st1 & _ & [= <-]). cbn. set_solver.
  - rewrite VisitExpr_call. case_bool_decide; [now intros [= <-]|].
    intros E. apply bind_Ok in E as (st1 & _ & [= <-]). cbn. set_solver.
  - rewrite VisitExpr_function. case_bool_decide; [now intros [= <-]|].
    intros E. apply bind_Ok in E as (st1 & _ & [= <-]). cbn. set_solver.
  - rewrite VisitExpr_op. case_bool_decide; intros [= <-]; [assumption|]. cbn. set_solver.
Qed.

(** The candidate of a call is written at the address of the call. *)
Lemma pending_AssignAndBind (root : Expr) (call : RelayExprNode) (op : Expr)
    (args : list Expr) (attrs : Attrs) (params : list Var) (st st' : StorageInfo) :
  addresses_identify root -> CallNode call op args attrs ∈ subterms root ->
  addr call ∉ visit_counter_ st ->
  AssignAndBind call params args st = Ok st' ->
  visit_counter_ st' = visit_counter_ st /\
  forall waiting, pending root waiting st -> pending root waiting st'.
Proof.
  intros Hid Hc Hv E. pose proof (AssignAndBind_consumer _ _ _ _ _ E) as HD.
  assert (visit_counter_ st' = visit_counter_ st /\
          forall p, p <> addr call -> storage_scope_ st' !! p = storage_scope_ st !! p)
    as [HV Hs].
  { revert E. unfold AssignAndBind.
    destruct (primitive_supports_texture_ st); [|now intros [= <-]].
    intros E. apply bind_Ok in E as (st1 & E1 & E).
    apply bind_Ok in E as (table & _ & [= <-]). cbn.
    unfold AssignCallScope in E1. destruct (checked_type_ call) as [shape|fields|];
      [| |discriminate].
    - apply bind_Ok in E1 as (scope & _ & [= <-]). cbn. split; [reflexivity|].
      intros p Hp. rewrite lookup_push_back. now rewrite decide_False by congruence.
    - injection E1 as <-. cbn. split; [reflexivity|]. intros p Hp. clear HD.
      generalize (storage_scope_ st). induction fields as [|f fields IH]; intros t;
        cbn [fold_left]; [reflexivity|].
      rewrite IH, lookup_push_back. now rewrite decide_False by congruence. }
  split; [exact HV|]. intros waiting [H1 H2]. split; rewrite HD, ?HV; [|exact H2].
  intros p demand Hp Hd Hne. destruct (decide (p = addr call)) as [->|Hpn].
  - exfalso. destruct (H2 _ _ Hp Hd) as [Hin|(fn & ps & body & prim & Hf & Hfa)];
      [contradiction|].
    assert (CallNode call op args attrs = FunctionNode fn ps body prim) as Heq.
    { apply Hid; [exact Hc|exact Hf|]. symmetry. exact Hfa. }
    discriminate.
  - rewrite Hs by exact Hpn. eauto.
Qed.

(** The demand recorded by a call is recorded for its arguments. *)
Lemma pending_Record (root : Expr) (call : RelayExprNode) (args : list Expr) :
  forall st st',
    RecordConsumerScopes call args st = Ok st' ->
    visit_counter_ st' = visit_counter_ st /\
    forall waiting,
      pending root waiting st ->
      pending root (waiting ∪ list_to_set (ptr <$> args)) st'.
Proof.
  unfold RecordConsumerScopes.
  induction args as [|a args IH]; intros st st' E; cbn [foldM] in E.
  - injection E as <-. split; [reflexivity|]. intros waiting. apply pending_weaken.
    set_solver.
  - apply bind_Ok in E as (st1 & E1 & E). destruct (IH _ _ E) as [HV Hp].
    pose proof (RecordConsumerScope_consumer _ _ _ _ E1) as HD.
    assert (visit_counter_ st1 = visit_counter_ st /\ storage_scope_ st1 = storage_scope_ st)
      as [HV1 HS1].
    { revert E1. unfold RecordConsumerScope. destruct (has_key _ _).
      - intros E1. apply bind_Ok in E1 as (b & _ & E1). destruct b; [discriminate|].
        now injection E1 as <-.
      - now intros [= <-]. }
    split; [congruence|]. intros waiting [H1 H2].
    assert (pending root (waiting ∪ {[ ptr a ]}) st1) as Hp1.
    { split; rewrite ?HV1, ?HS1; intros p demand Hn Hd; rewrite HD in Hd by set_solver.
      - intros Hne. apply (H1 p demand); [set_solver|exact Hd|exact Hne].
      - apply (H2 p demand); [set_solver|exact Hd]. }
    apply Hp in Hp1. revert Hp1. apply pending_weaken.
    cbn [fmap list_fmap list_to_set]. set_solver.
Qed.

Lemma RetractArgs_visited (args : list Expr) (st : StorageInfo) :
  visit_counter_ (RetractArgs args st) = visit_counter_ st.
Proof.
  unfold RetractArgs. revert st. induction args as [|a args IH]; intros st; [reflexivity|].
  cbn [fold_left]. rewrite IH. unfold RetractArg.
  destruct (consumer_storage_scopes_ st !! ptr a); [|reflexivity].
  destruct (negb _); [|reflexivity].
  destruct a as [| |n op ? ?| |]; try reflexivity. now destruct op.
Qed.

Lemma RetractArgs_deletes (args : list Expr) :
  forall (st : StorageInfo) (arg : Expr) (demand : list string),
    arg ∈ args -> consumer_storage_scopes_ st !! ptr arg = Some demand ->
    GetConsumerScope demand <> "global.texture" ->
    storage_scope_ (RetractArgs args st) !! ptr arg = None.
Proof.
  unfold RetractArgs. induction args as [|a args IH]; intros st arg demand Hin Hd Hne;
    [inversion Hin|].
  cbn [fold_left]. apply elem_of_cons in Hin as [->|Hin].
  - destruct (RetractArg_deletes st a demand Hd Hne) as [H1 _].
    apply (lookup_None_subset (RetractArg st a)); [|exact H1].
    intros s. apply (RetractArgs_subset args).
  - apply (IH (RetractArg st a) arg demand Hin); [|exact Hne].
    now rewrite RetractArg_consumer.
Qed.

(** When the arguments have been visited, the loop of lines 163-173
    settles their candidates. *)
Lemma pending_Retract (root : Expr) (args : list Expr) (waiting : gset positive)
    (st : StorageInfo) :
  (forall a, a ∈ args -> ptr a ∈ visit_counter_ st \/ function_address root (ptr a)) ->
  pending root (waiting ∪ list_to_set (ptr <$> args)) st ->
  pending root waiting (RetractArgs args st).
Proof.
  intros Hargs [H1 H2]. split; rewrite RetractArgs_consumer, ?RetractArgs_visited;
    intros p demand Hp Hd.
  - intros Hne. destruct (decide (p ∈ (list_to_set (ptr <$> args) : gset positive)))
      as [Hin|Hout].
    + apply elem_of_list_to_set, list_elem_of_fmap in Hin as (a & -> & Ha).
      exact (RetractArgs_deletes args st a demand Ha Hd Hne).
    + apply (lookup_None_subset st); [intros s; apply RetractArgs_subset|].
      apply (H1 p demand); [set_solver|exact Hd|exact Hne].
  - destruct (decide (p ∈ (list_to_set (ptr <$> args) : gset positive))) as [Hin|Hout].
    + apply elem_of_list_to_set, list_elem_of_fmap in Hin as (a & -> & Ha). auto.
    + apply (H2 p demand); [set_solver|exact Hd].
Qed.

Lemma subterms_param (n : RelayExprNode) (params : list Var) (body : Expr) (primitive : bool)
    (v : Var) :
  v ∈ params -> VarNode v ∈ subterms (FunctionNode n params body primitive).
Proof.
  intros Hv. cbn [subterms]. right. apply elem_of_app. left. now apply list_elem_of_fmap_2.
Qed.

Lemma visits_mark (root e : Expr) (st st' : StorageInfo) :
  visits root e st st' -> visits root e st (mark_visited (ptr e) st').
Proof.
  intros [H1 H2 H3]. pose proof (addresses_self e). split; cbn; [|set_solver..].
  intros waiting Hp. apply pending_mark. auto.
Qed.

Lemma Visit_visits (root a : Expr) (st st' : StorageInfo) :
  addresses_identify root -> a ∈ subterms root ->
  (forall st st', VisitExpr a st = Ok st' -> visits root a st st') ->
  match a with
  | FunctionNode _ _ body _ =>
      forall st st', VisitExpr body st = Ok st' -> visits root body st st'
  | _ => True
  end ->
  Visit a st = Ok st' ->
  visits root a st st' /\ (ptr a ∈ visit_counter_ st' \/ function_address root (ptr a)).
Proof.
  intros Hid Ha Hrun Hbody E.
  destruct a as [v|n|call op args attrs|n ps body prim|n name];
    try (split; [exact (Hrun _ _ E)|left; exact (VisitExpr_marks _ _ _ E)]).
  cbn [Visit] in E. apply bind_Ok in E as (st1 & E1 & E). split.
  - apply (visits_trans root body (FunctionNode n ps body prim) _ st st1 st').
    + apply addresses_subterm, subterms_body, subterms_self.
    + reflexivity.
    + exact (Hbody _ _ E1).
    + apply (VisitVars_visits root _ ps Hid); [|exact E]. intros v Hv.
      pose proof (subterms_param n ps body prim v Hv) as Hs.
      split; [exact (subterms_trans _ _ _ Ha Hs)|exact Hs].
  - right. exists n, ps, body, prim. auto.
Qed.

Lemma Visit_args (root e : Expr) (args : list Expr) :
  Forall (fun a => addresses a ⊆ addresses e /\
                   forall st st', Visit a st = Ok st' ->
                                  visits root a st st' /\
                                  (ptr a ∈ visit_counter_ st' \/ function_address root (ptr a)))
         args ->
  forall st st',
    foldM Visit args st = Ok st' ->
    visits root e st st' /\
    forall a, a ∈ args -> ptr a ∈ visit_counter_ st' \/ function_address root (ptr a).
Proof.
  induction 1 as [|a args [Hsub Ha] _ IH]; intros st st' E; cbn [foldM] in E.
  - injection E as <-. split; [apply visits_refl|]. intros a Ha. inversion Ha.
  - apply bind_Ok in E as (st1 & E1 & E). destruct (Ha _ _ E1) as [Hv Hm].
    destruct (IH _ _ E) as [Hvs Hms]. split.
    + exact (visits_trans root a e e st st1 st' Hsub (reflexivity _) Hv Hvs).
    + intros b Hb. apply elem_of_cons in Hb as [->|Hb]; [|auto].
      destruct Hm as [Hm|Hm]; [left|now right]. destruct Hvs as [_ Hg _]. set_solver.
Qed.

Lemma VisitPrimitive_visits (root : Expr) (call fn : RelayExprNode) (params : list Var)
    (body : Expr) (args : list Expr) (attrs : Attrs) (st st' : StorageInfo) :
  addresses_identify root ->
  CallNode call (FunctionNode fn params body true) args attrs ∈ subterms root ->
  (forall st st', VisitExpr body st = Ok st' -> visits root body st st') ->
  addr call ∉ visit_counter_ st ->
  VisitPrimitive call params body args st = Ok st' ->
  (forall waiting, pending root waiting st ->
                   pending root (waiting ∪ list_to_set (ptr <$> args)) st') /\
  visit_counter_ st ⊆ visit_counter_ st' /\
  visit_counter_ st' ⊆ visit_counter_ st ∪ addresses (FunctionNode fn params body true).
Proof.
  intros Hid Hc Hbody Hv E. unfold VisitPrimitive in E.
  apply bind_Ok in E as (sa & Ea & E). apply bind_Ok in E as (sb & Eb & E).
  apply bind_Ok in E as (sc & Ec & E).
  set (op := FunctionNode fn params body true) in *.
  assert (op ∈ subterms root) as Hop.
  { apply (subterms_trans _ _ _ Hc). apply subterms_op, subterms_self. }
  destruct (Hbody _ _ Ea) as [A1 A2 A3]. cbn [set_flag visit_counter_] in A2, A3.
  assert (visits root op sa sb) as [B1 B2 B3].
  { apply (VisitVars_visits root op params Hid); [|exact Eb]. intros v Hv'.
    pose proof (subterms_param fn params body true v Hv') as Hs.
    split; [exact (subterms_trans _ _ _ Hop Hs)|exact Hs]. }
  assert (addresses body ⊆ addresses op) as Hbo.
  { apply addresses_subterm, subterms_body, subterms_self. }
  pose proof (operator_addresses root call op args attrs Hid Hc) as Hstrict.
  destruct (pending_AssignAndBind root call op args attrs params sb sc Hid Hc) as [C1 C2];
    [set_solver|exact Ec|].
  destruct (pending_Record root call args _ _ E) as [D1 D2].
  split; [|rewrite D1, C1; set_solver].
  intros waiting Hp. apply D2, C2, B1, A1. now apply pending_set_flag.
Qed.

Lemma VisitExpr_visits (root expr : Expr) :
  addresses_identify root -> expr ∈ subterms root ->
  (forall st st', VisitExpr expr st = Ok st' -> visits root expr st st') /\
  match expr with
  | FunctionNode _ _ body _ =>
      forall st st', VisitExpr body st = Ok st' -> visits root body st st'
  | _ => True
  end.
Proof.
  intros Hid.
  induction expr as [v|n|call op args attrs IHop IHargs|n ps body primitive IH|n name]
    using Expr_nested_ind; intros He.
  - split; [|exact I]. intros st st'. rewrite VisitExpr_var.
    now apply (VisitVar_visits root (VarNode v) v).
  - split; [|exact I]. intros st st'. rewrite VisitExpr_constant.
    now apply (VisitVar_visits root (ConstantNode n) (mkVar n "")).
  - split; [|exact I]. intros st st'. rewrite VisitExpr_call.
    case_bool_decide as Hv; [intros [= <-]; apply visits_refl|].
    intros E. apply bind_Ok in E as (st4 & E & [= <-]).
    apply (visits_mark root (CallNode call op args attrs)).
    unfold DeviceAwareVisitExpr_ in E. apply bind_Ok in E as (st1 & E1 & E).
    apply bind_Ok in E as (st3 & E3 & [= <-]).
    set (e := CallNode call op args attrs) in *.
    assert (op ∈ subterms root) as Hop.
    { apply (subterms_trans _ _ _ He). apply subterms_op, subterms_self. }
    assert (addresses op ⊆ addresses e) as Hoe.
    { apply addresses_subterm, subterms_op, subterms_self. }
    assert ((forall waiting, pending root waiting st ->
                             pending root (waiting ∪ list_to_set (ptr <$> args)) st1) /\
            visit_counter_ st ⊆ visit_counter_ st1 /\
            visit_counter_ st1 ⊆ visit_counter_ st ∪ addresses op) as (P1 & G1 & F1).
    { assert (st1 = st ->
              (forall waiting, pending root waiting st ->
                               pending root (waiting ∪ list_to_set (ptr <$> args)) st1) /\
              visit_counter_ st ⊆ visit_counter_ st1 /\
              visit_counter_ st1 ⊆ visit_counter_ st ∪ addresses op) as Hsame.
      { intros ->. split; [|set_solver]. intros waiting. apply pending_weaken. set_solver. }
      destruct op as [| | |fn vars body prim|]; try (injection E1 as <-; now apply Hsame).
      destruct prim; [|injection E1 as <-; now apply Hsame].
      destruct (IHop Hop) as [_ Hbody].
      exact (VisitPrimitive_visits root call fn vars body args attrs st st1 Hid He Hbody Hv E1). }
    assert (Forall (fun a => addresses a ⊆ addresses e /\
                             forall st st', Visit a st = Ok st' ->
                                            visits root a st st' /\
                                            (ptr a ∈ visit_counter_ st' \/
                                             function_address root (ptr a))) args) as Hargs.
    { apply List.Forall_forall. intros a Ha. apply list_elem_of_In in Ha.
      assert (a ∈ subterms e) as Hae
          by exact (subterms_arg call op args attrs a a Ha (subterms_self a)).
      assert (a ∈ subterms root) as Har by exact (subterms_trans _ _ _ He Hae).
      split; [now apply addresses_subterm|]. intros s s' Es.
      rewrite List.Forall_forall in IHargs.
      destruct (IHargs a (proj1 (list_elem_of_In _ _) Ha) Har) as [Hrun Hbody].
      now apply Visit_visits. }
    destruct (Visit_args root e args Hargs _ _ E3) as [[P3 G3 F3] Hm].
    cbn [set_flag visit_counter_] in G3, F3.
    split; rewrite ?RetractArgs_visited.
    + intros waiting Hp. apply pending_Retract; [exact Hm|].
      apply P3. apply pending_set_flag. now apply P1.
    + set_solver.
    + set_solver.
  - destruct (IH (subterms_trans _ _ _ He (subterms_body _ _ _ _ _ (subterms_self body))))
      as [Hbody _].
    split; [|exact Hbody]. intros st st'. rewrite VisitExpr_function.
    case_bool_decide as Hv; [intros [= <-]; apply visits_refl|].
    intros E. apply bind_Ok in E as (st2 & E & [= <-]).
    apply (visits_mark root (FunctionNode n ps body primitive)).
    apply bind_Ok in E as (st1 & E1 & E).
    apply (visits_trans root (FunctionNode n ps body primitive) body _ st st1 st2).
    + reflexivity.
    + apply addresses_subterm, subterms_body, subterms_self.
    + apply (VisitVars_visits root _ ps Hid); [|exact E1]. intros v Hv'.
      pose proof (subterms_param n ps body primitive v Hv') as Hs.
      split; [exact (subterms_trans _ _ _ He Hs)|exact Hs].
    + exact (Hbody _ _ E).
  - split; [|exact I]. intros st st'. rewrite VisitExpr_op.
    case_bool_decide as Hv; intros [= <-]; [apply visits_refl|].
    apply (visits_mark root (OpNode n name)). apply visits_refl.
Qed.

Lemma pending_init (root : Expr) : pending root ∅ StorageInfo_init.
Proof. split; intros p demand _ Hd; cbn in Hd; rewrite lookup_empty in Hd; discriminate. Qed.

Lemma Legalize_absent (l : list (positive * list string)) :
  forall table table' : gmap positive (list string),
    foldM LegalizeProducer l table = Ok table' ->
    forall p, table !! p = None -> table' !! p = None.
Proof.
  induction l as [|[q d] l IH]; intros table table' E p Hp; cbn [foldM] in E.
  - now injection E as <-.
  - apply bind_Ok in E as (t1 & E1 & E). apply (IH t1 table' E).
    unfold LegalizeProducer in E1. cbn [fst snd] in E1.
    destruct (table !! q) as [scopes|] eqn:Hq; [|now injection E1 as <-].
    apply bind_Ok in E1 as (b & _ & E1). destruct b; [discriminate|].
    destruct scopes as [|first rest]; [discriminate|].
    destruct (negb _); injection E1 as <-; [|exact Hp].
    rewrite lookup_insert_ne; [exact Hp|congruence].
Qed.

(** After the traversal and the legalization, a node whose demand is
    not unanimously for textures has no candidate. *)
Lemma Analyze_settled (expr : Expr) (st : StorageInfo) :
  addresses_identify expr -> Analyze expr = Ok st ->
  forall p demand,
    consumer_storage_scopes_ st !! p = Some demand ->
    GetConsumerScope demand <> "global.texture" -> storage_scope_ st !! p = None.
Proof.
  intros Hid E p demand Hd Hne. unfold Analyze in E. apply bind_Ok in E as (st0 & E0 & E).
  destruct (proj1 (VisitExpr_visits expr expr Hid (subterms_self expr)) _ _ E0) as [Hp _ _].
  destruct (Hp ∅ (pending_init expr)) as [H1 _].
  unfold LegalizeProducerStorage in E. apply bind_Ok in E as (table & Et & [= <-]).
  cbn in Hd |- *. apply (Legalize_absent _ _ _ Et). apply (H1 p demand); [set_solver|auto..].
Qed.

Lemma demand_unanimous (demand : list string) :
  Forall (fun s => s = "global" \/ s = "global.texture") demand ->
  GetConsumerScope demand = "global.texture" ->
  demand <> [] /\ Forall (fun s => s = "global.texture") demand.
Proof.
  intros Htags. rewrite GetConsumerScope_forallb.
  destruct (forallb _ demand) eqn:Hall; cbn [andb]; [|discriminate].
  destruct demand as [|s demand]; [discriminate|]. intros _. split; [discriminate|].
  rewrite forallb_forall in Hall. rewrite List.Forall_forall in Htags.
  apply List.Forall_forall. intros x Hx.
  destruct (Htags x Hx) as [->|Hx']; [|exact Hx'].
  specialize (Hall _ Hx). discriminate Hall.
Qed.

Lemma not_mixed_uniform (scopes : list string) : ~ mixed scopes -> uniform scopes.
Proof.
  intros Hm a b Ha Hb. destruct (decide (a = b)) as [|Hne]; [assumption|].
  exfalso. apply Hm. exists a, b. auto.
Qed.

(** What the legalization returns for a producer with demand, when it
    returns. *)
Lemma Legalize_returns (st0 st : StorageInfo) :
  map_Forall (fun _ scopes => scopes <> []) (storage_scope_ st0) ->
  LegalizeProducerStorage st0 = Ok st ->
  consumer_storage_scopes_ st = consumer_storage_scopes_ st0 /\
  forall p demand,
    consumer_storage_scopes_ st0 !! p = Some demand ->
    storage_scope_ st !! p = legalized demand <$> storage_scope_ st0 !! p /\
    forall scopes0, storage_scope_ st0 !! p = Some scopes0 -> uniform scopes0.
Proof.
  intros Hne E.
  assert (forall p demand scopes,
             consumer_storage_scopes_ st0 !! p = Some demand ->
             storage_scope_ st0 !! p = Some scopes -> scopes <> [] /\ ~ mixed scopes) as Hok.
  { intros p demand scopes Hd Hs. split; [exact (Hne _ _ Hs)|]. intros Hm.
    unfold LegalizeProducerStorage in E.
    rewrite (Legalize_loop_mixed _ (NoDup_fst_map_to_list (consumer_storage_scopes_ st0)))
      in E; [discriminate| |].
    - intros q d sq _ Hq. exact (Hne _ _ Hq).
    - exists p, demand, scopes. split; [now apply elem_of_map_to_list|auto]. }
  destruct (LegalizeProducerStorage_lookup st0 Hok) as (table & Et & Hl).
  rewrite Et in E. injection E as <-. split; [reflexivity|].
  intros p demand Hd. cbn. rewrite Hl, Hd. split; [reflexivity|].
  intros scopes0 Hs. apply not_mixed_uniform. exact (proj2 (Hok _ _ _ Hd Hs)).
Qed.

(** X13.  When addresses identify nodes, a producer that has both demand and
    a candidate after the traversal and the legalization is a producer
    all of whose consumers asked for a texture, and its candidate is one
    texture scope, once per output. *)
Theorem candidate_needs_unanimity (expr : Expr) (st : StorageInfo) (p : positive)
    (demand scopes : list string) :
  addresses_identify expr -> Analyze expr = Ok st ->
  consumer_storage_scopes_ st !! p = Some demand ->
  storage_scope_ st !! p = Some scopes ->
  demand <> [] /\ Forall (fun s => s = "global.texture") demand /\
  exists scope, is_texture_scope scope /\ scopes = replicate (length scopes) scope /\
                scopes <> [].
Proof.
  intros Hid Ha Hd Hs.
  assert (GetConsumerScope demand = "global.texture") as Hu.
  { destruct (String.eqb_spec (GetConsumerScope demand) "global.texture") as [|Hne];
      [assumption|].
    rewrite (Analyze_settled expr st Hid Ha p demand Hd Hne) in Hs. discriminate. }
  pose proof (demand_tags _ _ _ _ (collected_Analyze _ _ Ha) p demand Hd) as Htags.
  cbn beta in Htags. destruct (demand_unanimous demand Htags Hu) as [Hne Hall].
  split; [exact Hne|]. split; [exact Hall|].
  unfold Analyze in Ha. apply bind_Ok in Ha as (st0 & E0 & E).
  assert (collected (demand_sites expr) (primitive_calls expr) (primitive_params expr) st0)
    as Hcol.
  { eapply collected_VisitExpr; [reflexivity..|apply collected_init|exact E0]. }
  assert (map_Forall (fun _ => scope_vector) (storage_scope_ st0)) as Hvec.
  { apply (scope_vectors_VisitExpr expr StorageInfo_init st0); [|exact E0].
    apply map_Forall_empty. }
  destruct (Legalize_returns st0 st (scope_nonempty _ _ _ _ Hcol) E) as [HD Hleg].
  rewrite HD in Hd. destruct (Hleg p demand Hd) as [Hl Hunif]. rewrite Hs in Hl.
  destruct (storage_scope_ st0 !! p) as [scopes0|] eqn:Hs0; [|discriminate].
  cbn in Hl. injection Hl as ->. specialize (Hunif scopes0 eq_refl).
  destruct (Hvec p scopes0 Hs0) as [Hne0 Hsc].
  destruct scopes0 as [|first rest]; [contradiction|].
  cbn [legalized]. rewrite Hu. inversion Hsc as [|? ? Hfirst _]; subst.
  rewrite (found_scope_texture first Hfirst).
  destruct (String.eqb_spec first "global") as [->|Hng]; cbn [negb].
  - exists "global.texture". split; [now left|].
    split; [|discriminate]. rewrite length_map. apply map_const_replicate.
  - exists first. split.
    + destruct Hfirst as [?|Ht]; [contradiction|exact Ht].
    + split; [|discriminate]. exact (uniform_replicate first rest Hunif).
Qed.

Lemma candidate_needs_unanimity_witness :
  Forall (fun s => s = "global.texture") ["global.texture"] /\
  exists scope, is_texture_scope scope /\
                ["global.texture"] = replicate (length ["global.texture"]) scope /\
                ["global.texture"] <> [].
Proof.
  assert (exists st, Analyze scenario_A = Ok st /\
                     consumer_storage_scopes_ st !! 2%positive = Some ["global.texture"] /\
                     storage_scope_ st !! 2%positive = Some ["global.texture"])
    as (st & Ha & Hd & Hs).
  { eexists. split; [vm_compute; reflexivity|]. split; reflexivity. }
  exact (proj2 (candidate_needs_unanimity scenario_A st 2%positive ["global.texture"]
                  ["global.texture"] scenario_A_addresses Ha Hd Hs)).
Defined.

Lemma shared_input_addresses : addresses_identify shared_input.
Proof.
  intros e1 e2 H1 H2 Hp. vm_compute in H1, H2.
  repeat (apply elem_of_cons in H1 as [->|H1]); try (now inversion H1);
    repeat (apply elem_of_cons in H2 as [->|H2]); try (now inversion H2);
    first [reflexivity | vm_compute in Hp; discriminate].
Qed.

Lemma global_entry_not_unanimous (demand : list string) :
  "global" ∈ demand -> GetConsumerScope demand <> "global.texture".
Proof.
  intros Hin. rewrite GetConsumerScope_forallb.
  destruct (forallb _ demand) eqn:Hall; cbn [andb]; [|discriminate].
  rewrite forallb_forall in Hall. apply list_elem_of_In in Hin.
  specialize (Hall _ Hin). discriminate Hall.
Qed.

(** X14.  When addresses identify nodes, a node one of whose consumers asked
    for ["global"] gets no texture scope: unless it is a parameter of a
    primitive function, the map returned has ["global"] for it when
    another consumer asked for a texture, and no entry otherwise. *)
Theorem GetStorageMap_conservative (expr : Expr) (st : StorageInfo)
    (storage_map : gmap positive (list string)) (p : positive) (demand : list string) :
  addresses_identify expr -> Analyze expr = Ok st -> GetStorageMap expr = Ok storage_map ->
  p ∉ primitive_params expr ->
  consumer_storage_scopes_ st !! p = Some demand -> "global" ∈ demand ->
  storage_map !! p = if bool_decide ("global.texture" ∈ demand) then Some ["global"] else None.
Proof.
  intros Hid Ha Hg Hp Hd Hin.
  rewrite (GetStorageMap_other expr st storage_map p Ha Hg Hp), FillInputs_lookup, Hd.
  rewrite (Analyze_settled expr st Hid Ha p demand Hd (global_entry_not_unanimous _ Hin)).
  destruct (collected_Analyze expr st Ha) as [Htags _ _ _ _].
  now rewrite (CanConsumeTextures_tags demand (Htags p demand Hd)).
Qed.

Lemma plain_call_addresses : addresses_identify plain_call.
Proof.
  intros e1 e2 H1 H2 Hp. vm_compute in H1, H2.
  repeat (apply elem_of_cons in H1 as [->|H1]); try (now inversion H1);
    repeat (apply elem_of_cons in H2 as [->|H2]); try (now inversion H2);
    first [reflexivity | vm_compute in Hp; discriminate].
Qed.

Lemma GetStorageMap_conservative_witness :
  (exists storage_map,
      GetStorageMap shared_input = Ok storage_map /\
      storage_map !! 2%positive = Some ["global"]) /\
  (exists storage_map,
      GetStorageMap plain_call = Ok storage_map /\
      storage_map !! 2%positive = None).
Proof.
  split.
  - assert (exists st, Analyze shared_input = Ok st /\
                       consumer_storage_scopes_ st !! 2%positive
                       = Some ["global.texture"; "global"]) as (st & Ha & Hd).
    { eexists. split; [vm_compute; reflexivity|reflexivity]. }
    assert (exists m, GetStorageMap shared_input = Ok m) as (m & Hg).
    { eexists. vm_compute. reflexivity. }
    exists m. split; [exact Hg|].
    apply (GetStorageMap_conservative shared_input st m 2%positive
             ["global.texture"; "global"] shared_input_addresses Ha Hg).
    + intros Hin. vm_compute in Hin. discriminate Hin.
    + exact Hd.
    + right. left.
  - assert (exists st, Analyze plain_call = Ok st /\
                       consumer_storage_scopes_ st !! 2%positive = Some ["global"])
      as (st & Ha & Hd).
    { eexists. split; [vm_compute; reflexivity|reflexivity]. }
    assert (exists m, GetStorageMap plain_call = Ok m) as (m & Hg).
    { eexists. vm_compute. reflexivity. }
    exists m. split; [exact Hg|].
    apply (GetStorageMap_conservative plain_call st m 2%positive
             ["global"] plain_call_addresses Ha Hg).
    + intros Hin. vm_compute in Hin. discriminate Hin.
    + exact Hd.
    + left.
Defined.

(** ** The checks of the analysis hold *)

Lemma stops_bind {A B : Type} (stop : bool -> string -> Prop) (r : result A)
    (k : A -> result B) (Q : A -> Prop) (Q' : B -> Prop) :
  stops_with stop Q r -> (forall a, r = Ok a -> Q a -> stops_with stop Q' (k a)) ->
  stops_with stop Q' (r ≫= k).
Proof. destruct r as [a| |]; cbn; auto. Qed.

Lemma stops_weaken {A : Type} (stop : bool -> string -> Prop) (Q Q' : A -> Prop)
    (r : result A) :
  (forall a, r = Ok a -> Q a -> Q' a) -> stops_with stop Q r -> stops_with stop Q' r.
Proof. destruct r as [a| |]; cbn; auto. Qed.

Lemma stops_foldM {A S : Type} (stop : bool -> string -> Prop) (f : A -> S -> result S)
    (Q : S -> Prop) (l : list A) :
  Forall (fun a => forall s, Q s -> stops_with stop Q (f a s)) l ->
  forall s, Q s -> stops_with stop Q (foldM f l s).
Proof.
  induction 1 as [|a l Ha _ IH]; intros s HQ; cbn [foldM]; [exact HQ|].
  apply (stops_bind _ _ _ Q); [now apply Ha|]. intros s1 _ H1. now apply IH.
Qed.

Lemma candidate_uniform (e : Expr) (scopes : list string) :
  candidate_of e scopes -> scopes <> [] /\ uniform scopes.
Proof.
  assert (forall x : string, [x] <> [] /\ uniform [x]) as Hone.
  { intros x. split; [discriminate|]. intros a b Ha Hb.
    apply list_elem_of_singleton in Ha, Hb. congruence. }
  destruct e as [v|n|call op args attrs| |]; cbn [candidate_of]; try contradiction.
  - intros [->|(shape & scope & _ & _ & _ & ->)]; apply Hone.
  - intros [->|(shape & scope & _ & _ & _ & ->)]; apply Hone.
  - intros [_ H]. destruct (checked_type_ call) as [shape|fields|]; [| |contradiction].
    + destruct H as (scope & _ & ->). apply Hone.
    + destruct H as [Hne ->]. split.
      * destruct fields; [contradiction|discriminate].
      * intros a b Ha Hb. apply elem_of_replicate in Ha as [-> _], Hb as [-> _]. reflexivity.
Qed.

Section Stops.
Variable stop : bool -> string -> Prop.
Variable root : Expr.

Lemma placed_uniform (active : gset positive) (st : StorageInfo) (p : positive)
    (scopes : list string) :
  placed root active st -> storage_scope_ st !! p = Some scopes ->
  scopes <> [] /\ uniform scopes.
Proof.
  intros [_ H] Hp. destruct (H p scopes Hp) as (e & _ & _ & Hc).
  exact (candidate_uniform e scopes Hc).
Qed.

Lemma placed_weaken (active active' : gset positive) (st : StorageInfo) :
  active ⊆ active' -> placed root active st -> placed root active' st.
Proof.
  intros Hsub [H1 H2]. split; [|exact H2]. intros p scopes Hp.
  destruct (H1 p scopes Hp); [now left|right; set_solver].
Qed.

Lemma placed_set_flag (active : gset positive) (b : bool) (st : StorageInfo) :
  placed root active st -> placed root active (set_flag b st).
Proof. intros [H1 H2]. split; assumption. Qed.

Lemma placed_mark (active : gset positive) (k : positive) (st : StorageInfo) :
  placed root (active ∪ {[ k ]}) st -> placed root active (mark_visited k st).
Proof.
  intros [H1 H2]. split; [|exact H2]. intros p scopes Hp. cbn.
  destruct (H1 p scopes Hp); set_solver.
Qed.

Lemma placed_insert (active : gset positive) (k : positive) (scopes : list string)
    (st : StorageInfo) :
  (exists e, e ∈ subterms root /\ ptr e = k /\ candidate_of e scopes) ->
  placed root active st ->
  placed root (active ∪ {[ k ]}) (set_storage_scope (<[ k := scopes ]> (storage_scope_ st)) st).
Proof.
  intros He [H1 H2]. split; cbn; intros p s Hp;
    apply lookup_insert_Some in Hp as [[<- <-]|[Hk Hp]].
  - right. set_solver.
  - destruct (H1 p s Hp); [now left|right; set_solver].
  - exact He.
  - eauto.
Qed.

Lemma placed_RetractArgs (active : gset positive) (args : list Expr) (st : StorageInfo) :
  placed root active st -> placed root active (RetractArgs args st).
Proof.
  intros [H1 H2]. split; rewrite ?RetractArgs_visited; intros p scopes Hp;
    apply RetractArgs_subset in Hp; eauto.
Qed.

Lemma placed_absent (active : gset positive) (k : positive) (st : StorageInfo) :
  placed root active st -> k ∉ visit_counter_ st -> k ∉ active -> storage_scope_ st !! k = None.
Proof.
  intros [H1 _] Hv Ha. destruct (storage_scope_ st !! k) as [s|] eqn:E; [|reflexivity].
  destruct (H1 k s E); contradiction.
Qed.

(** The check of the leaf rule holds: a leaf is visited once, and
    nothing else writes a candidate at its address. *)
Lemma Apply_stops (active : gset positive) (e : Expr) (st : StorageInfo) :
  e ∈ subterms root -> is_leaf e = true ->
  stops_with stop (fun _ => True) (own_scope (node_of e)) ->
  placed root active st -> ptr e ∉ visit_counter_ st -> ptr e ∉ active ->
  stops_with stop (fun st' => placed root (active ∪ {[ ptr e ]}) st' /\
                              visit_counter_ st' = visit_counter_ st)
             (ApplyConsumerScopeToInputs (node_of e) st).
Proof.
  intros He Hleaf Hown Hp Hv Ha. set (n := node_of e) in *.
  change (ptr e) with (addr n) in *.
  pose proof (placed_absent active (addr n) st Hp Hv Ha) as Hs.
  assert (placed root (active ∪ {[ addr n ]}) st) as Hp'.
  { revert Hp. apply placed_weaken. set_solver. }
  unfold ApplyConsumerScopeToInputs.
  destruct (consumer_storage_scopes_ st !! addr n) as [demand|]; [|cbn; auto].
  unfold has_key. rewrite Hs. rewrite bool_decide_eq_false_2 by (intros [? ?]; discriminate).
  apply (stops_bind _ _ _ (fun _ => True)); [exact Hown|].
  intros [scope vec] Ho _.
  assert (forall x, candidate_of e [x] ->
                    placed root (active ∪ {[ addr n ]})
                      (set_storage_scope (push_back (addr n) x (storage_scope_ st)) st))
    as Hpush.
  { intros x Hx. unfold push_back. rewrite Hs. cbn [default app].
    apply placed_insert; [|exact Hp]. exists e. auto. }
  assert (forall scopes, scopes = ["global"] \/ fitted n scopes -> candidate_of e scopes)
    as Hleafc.
  { intros scopes H. destruct e; try discriminate; exact H. }
  destruct (found _ _) eqn:Hf; [destruct vec|]; cbn; split; auto; apply Hpush, Hleafc.
  - right. pose proof (own_scope_vectorizable _ _ _ Ho) as Hos.
    destruct (checked_type_ n) as [shape| |] eqn:Ht; try (destruct Hos; discriminate).
    destruct Hos as [Hsc Hvec]. exists shape, scope. split; [exact Ht|].
    split; [exact Hsc|]. split; [|reflexivity].
    destruct (Scope_cases _ _ _ Hsc) as [->|(Htex & _)]; [discriminate Hvec|exact Htex].
  - left. destruct (GetConsumerScope_cases demand) as [->| Heq]; [reflexivity|].
    rewrite Heq in Hf. discriminate Hf.
Qed.

Lemma VisitVar_stops (active : gset positive) (e : Expr) (v : Var) (st : StorageInfo) :
  e ∈ subterms root -> is_leaf e = true -> node_of e = var_node v ->
  stops_with stop (fun _ => True) (own_scope (var_node v)) ->
  placed root active st -> addr (var_node v) ∉ active ->
  stops_with stop (placed root active) (VisitVar v st).
Proof.
  intros He Hleaf Hn Hown Hp Ha. unfold VisitVar. case_bool_decide as Hv; [exact Hp|].
  rewrite <- Hn in *.
  apply (stops_bind _ _ _ _ _ (Apply_stops active e st He Hleaf Hown Hp Hv Ha)).
  intros st1 _ [H1 _]. cbn. now apply placed_mark.
Qed.

Lemma VisitVars_stops (active : gset positive) (params : list Var) (st : StorageInfo) :
  (forall v, v ∈ params -> VarNode v ∈ subterms root) ->
  (forall v, v ∈ params -> stops_with stop (fun _ => True) (own_scope (var_node v))) ->
  placed root active st -> (forall v, v ∈ params -> addr (var_node v) ∉ active) ->
  stops_with stop (placed root active) (foldM VisitVar params st).
Proof.
  intros Hin Hown Hp Ha. apply stops_foldM; [|exact Hp].
  apply Forall_forall. intros v Hv s Hs.
  apply (VisitVar_stops active (VarNode v)); auto.
Qed.

(** The candidate of a call is one scope, once per output. *)
Lemma AssignAndBind_stops (active : gset positive) (call : RelayExprNode) (op : Expr)
    (attrs : Attrs) (params : list Var) (args : list Expr) (st : StorageInfo) :
  CallNode call op args attrs ∈ subterms root -> is_primitive_function op = true ->
  (forall st, stops_with stop (fun _ => True) (AssignCallScope call st)) ->
  (forall table, stops_with stop (fun _ => True) (BindArgsToVars args params table)) ->
  placed root active st -> storage_scope_ st !! addr call = None ->
  stops_with stop (fun st' => placed root (active ∪ {[ addr call ]}) st' /\
                              visit_counter_ st' = visit_counter_ st)
             (AssignAndBind call params args st).
Proof.
  intros Hc Hprim Hassign Hbind Hp Hs.
  assert (placed root (active ∪ {[ addr call ]}) st) as Hp'.
  { revert Hp. apply placed_weaken. set_solver. }
  unfold AssignAndBind. destruct (primitive_supports_texture_ st); [|cbn; auto].
  apply (stops_bind _ _ _ (fun st' => placed root (active ∪ {[ addr call ]}) st' /\
                                      visit_counter_ st' = visit_counter_ st)).
  - apply (stops_weaken _ (fun _ => True)); [|apply Hassign]. intros st1 E1 _.
    unfold AssignCallScope in E1. destruct (checked_type_ call) as [shape|fields|] eqn:Ht;
      [| |discriminate].
    + apply bind_Ok in E1 as (scope & Hsc & [= <-]).
      cbn. split; [|reflexivity]. unfold push_back. rewrite Hs. cbn [default app].
      apply placed_insert; [|exact Hp]. exists (CallNode call op args attrs).
      split; [exact Hc|]. split; [reflexivity|]. cbn [candidate_of]. rewrite Ht. eauto.
    + injection E1 as <-. cbn. split; [|reflexivity].
      destruct fields as [|f fields]; [destruct Hp' as [H1 H2]; split; assumption|].
      assert (fold_left (fun table _ => push_back (addr call) "global.texture" table)
                        (f :: fields) (storage_scope_ st)
              = <[ addr call := replicate (length (f :: fields)) "global.texture" ]>
                  (storage_scope_ st)) as ->.
      { apply map_eq. intros p. rewrite lookup_fold_push_back. case_decide as Hk.
        - subst p. now rewrite Hs, lookup_insert_eq.
        - now rewrite lookup_insert_ne. }
      apply placed_insert; [|exact Hp]. exists (CallNode call op args attrs).
      split; [exact Hc|]. split; [reflexivity|]. cbn [candidate_of]. rewrite Ht.
      split; [exact Hprim|]. split; [discriminate|reflexivity].
  - intros st1 _ [H1 HV].
    apply (stops_bind _ _ _ (fun _ => True)); [apply Hbind|].
    intros table _ _. cbn. split; [|exact HV]. destruct H1 as [H1 H2]. split; assumption.
Qed.

(** The check on the outputs of the call holds while its demand is
    recorded. *)
Lemma RecordConsumerScopes_stops (active : gset positive)
    (call : RelayExprNode) (args : list Expr) (st : StorageInfo) :
  placed root active st ->
  stops_with stop (fun st' => placed root active st' /\ visit_counter_ st' = visit_counter_ st)
             (RecordConsumerScopes call args st).
Proof.
  intros Hp. unfold RecordConsumerScopes.
  apply (stops_foldM _ _ (fun st' => placed root active st' /\
                                     visit_counter_ st' = visit_counter_ st));
    [|split; [exact Hp|reflexivity]].
  apply Forall_forall. intros a _ s [Hs HV].
  rewrite RecordConsumerScope_ok.
  - cbn. split; [|exact HV]. destruct Hs as [H1 H2]. split; assumption.
  - intros scopes Hc. destruct (placed_uniform _ _ _ _ Hs Hc) as [Hne Hu].
    split; [exact Hne|now apply uniform_not_mixed].
Qed.

Lemma concat_length_elem {A B : Type} (f : A -> list B) (a : A) (l : list A) :
  a ∈ l -> (length (f a) <= length (concat (f <$> l)))%nat.
Proof. induction 1 as [a l|a b l _ IH]; cbn; rewrite length_app; lia. Qed.

(** A call is none of the nodes below its arguments. *)
Lemma argument_addresses (call : RelayExprNode) (op : Expr) (args : list Expr)
    (attrs : Attrs) (a : Expr) :
  addresses_identify root -> CallNode call op args attrs ∈ subterms root -> a ∈ args ->
  addr call ∉ addresses a.
Proof.
  intros Hid Hc Ha Hin. unfold addresses in Hin.
  apply elem_of_list_to_set, list_elem_of_fmap in Hin as (x & Hp & Hx).
  assert (x ∈ subterms root) as Hxr.
  { apply (subterms_trans _ _ _ Hc). now apply (subterms_arg _ _ _ _ a). }
  assert (CallNode call op args attrs = x) as <- by (apply Hid; auto).
  apply subterms_length in Hx. pose proof (concat_length_elem subterms a args Ha).
  cbn [subterms length] in Hx. rewrite length_app in Hx. lia.
Qed.

Lemma param_address (n : RelayExprNode) (params : list Var) (body : Expr) (primitive : bool)
    (v : Var) :
  v ∈ params -> addr (var_node v) ∈ addresses (FunctionNode n params body primitive).
Proof.
  intros Hv. unfold addresses. apply elem_of_list_to_set, list_elem_of_fmap.
  exists (VarNode v). split; [reflexivity|now apply subterms_param].
Qed.

Lemma disjoint_self (active : gset positive) (e : Expr) :
  active ## addresses e -> ptr e ∉ active.
Proof.
  intros Hdis Hin. exact (proj1 (elem_of_disjoint _ _) Hdis _ Hin (addresses_self e)).
Qed.

Lemma disjoint_part (active part whole : gset positive) :
  part ⊆ whole -> active ## whole -> active ## part.
Proof. intros Hsub Hdis. apply elem_of_disjoint. intros p Ha Hp. set_solver. Qed.

Lemma disjoint_param (active : gset positive) (n : RelayExprNode) (params : list Var)
    (body : Expr) (primitive : bool) (v : Var) :
  active ## addresses (FunctionNode n params body primitive) -> v ∈ params ->
  addr (var_node v) ∉ active.
Proof.
  intros Hdis Hv Hin.
  exact (proj1 (elem_of_disjoint _ _) Hdis _ Hin (param_address n params body primitive v Hv)).
Qed.

Lemma addresses_body (n : RelayExprNode) (params : list Var) (body : Expr) (primitive : bool) :
  addresses body ⊆ addresses (FunctionNode n params body primitive).
Proof. apply addresses_subterm, subterms_body, subterms_self. Qed.

Hypothesis Hid : addresses_identify root.
Hypothesis leaf_stops :
  forall e, e ∈ subterms root -> is_leaf e = true ->
            stops_with stop (fun _ => True) (own_scope (node_of e)).
Hypothesis call_stops :
  forall call fn params body args attrs,
    CallNode call (FunctionNode fn params body true) args attrs ∈ subterms root ->
    (forall st, stops_with stop (fun _ => True) (AssignCallScope call st)) /\
    (forall table, stops_with stop (fun _ => True) (BindArgsToVars args params table)).

Lemma params_stop (n : RelayExprNode) (params : list Var) (body : Expr)
    (primitive : bool) (v : Var) :
  FunctionNode n params body primitive ∈ subterms root -> v ∈ params ->
  stops_with stop (fun _ => True) (own_scope (var_node v)).
Proof.
  intros Hf Hv. apply (leaf_stops (VarNode v)); [|reflexivity].
  apply (subterms_trans _ _ _ Hf). now apply subterms_param.
Qed.

Lemma Visit_stops (active : gset positive) (a : Expr) (st : StorageInfo) :
  a ∈ subterms root ->
  (forall st active, active ## addresses a -> placed root active st ->
                     stops_with stop (placed root active) (VisitExpr a st)) ->
  match a with
  | FunctionNode _ _ body _ =>
      forall st active, active ## addresses body -> placed root active st ->
                        stops_with stop (placed root active) (VisitExpr body st)
  | _ => True
  end ->
  active ## addresses a -> placed root active st ->
  stops_with stop (placed root active) (Visit a st).
Proof.
  intros Ha Hrun Hbody Hdis Hp.
  destruct a as [v|n|call op args attrs|n ps body prim|n name]; try exact (Hrun _ _ Hdis Hp).
  cbn [Visit]. apply (stops_bind _ _ _ (placed root active)).
  - apply Hbody; [|exact Hp]. exact (disjoint_part _ _ _ (addresses_body n ps body prim) Hdis).
  - intros st1 _ H1. apply VisitVars_stops; [| |exact H1|].
    + intros v Hv. apply (subterms_trans _ _ _ Ha). now apply subterms_param.
    + intros v Hv. exact (params_stop n ps body prim v Ha Hv).
    + intros v Hv. exact (disjoint_param active n ps body prim v Hdis Hv).
Qed.

Lemma VisitExpr_stops (expr : Expr) :
  expr ∈ subterms root ->
  (forall st active, active ## addresses expr -> placed root active st ->
                     stops_with stop (placed root active) (VisitExpr expr st)) /\
  match expr with
  | FunctionNode _ _ body _ =>
      forall st active, active ## addresses body -> placed root active st ->
                        stops_with stop (placed root active) (VisitExpr body st)
  | _ => True
  end.
Proof.
  induction expr as [v|n|call op args attrs IHop IHargs|n ps body primitive IH|n name]
    using Expr_nested_ind; intros He.
  - split; [|exact I]. intros st active Hdis Hp. rewrite VisitExpr_var.
    apply (VisitVar_stops active (VarNode v));
      [exact He|reflexivity|reflexivity|exact (leaf_stops (VarNode v) He eq_refl)|exact Hp|].
    exact (disjoint_self active (VarNode v) Hdis).
  - split; [|exact I]. intros st active Hdis Hp. rewrite VisitExpr_constant.
    apply (VisitVar_stops active (ConstantNode n));
      [exact He|reflexivity|reflexivity|exact (leaf_stops (ConstantNode n) He eq_refl)
      |exact Hp|].
    exact (disjoint_self active (ConstantNode n) Hdis).
  - split; [|exact I]. intros st active Hdis Hp. rewrite VisitExpr_call.
    case_bool_decide as Hv; [exact Hp|].
    set (e := CallNode call op args attrs) in *.
    assert (addr call ∉ active) as Hca by exact (disjoint_self active e Hdis).
    assert (op ∈ subterms root) as Hop.
    { apply (subterms_trans _ _ _ He). apply subterms_op, subterms_self. }
    assert (addresses op ⊆ addresses e) as Hoe.
    { apply addresses_subterm, subterms_op, subterms_self. }
    apply (stops_bind _ _ _ (placed root (active ∪ {[ addr call ]})));
      [|intros st4 _ H4; cbn; now apply placed_mark].
    unfold DeviceAwareVisitExpr_.
    apply (stops_bind _ _ _ (placed root (active ∪ {[ addr call ]}))).
    + assert (placed root (active ∪ {[ addr call ]}) st) as Hp'.
      { revert Hp. apply placed_weaken. set_solver. }
      destruct op as [| | |fn vars body prim|]; try exact Hp'.
      destruct prim; [|exact Hp'].
      destruct (IHop Hop) as [_ Hbody].
      destruct (call_stops call fn vars body args attrs He) as [Hassign Hbind].
      assert (body ∈ subterms root) as Hbr.
      { apply (subterms_trans _ _ _ Hop). apply subterms_body, subterms_self. }
      pose proof (addresses_body fn vars body true) as Hbo.
      pose proof (disjoint_part _ _ _ Hoe Hdis) as Hdo.
      unfold VisitPrimitive.
      apply (stops_bind _ _ _ (placed root active)).
      { apply Hbody; [|now apply placed_set_flag]. exact (disjoint_part _ _ _ Hbo Hdo). }
      intros sa Ea Ha.
      destruct (proj1 (VisitExpr_visits root body Hid Hbr) _ _ Ea) as [_ _ Fa].
      cbn [set_flag visit_counter_] in Fa.
      apply (stops_bind _ _ _ (placed root active)).
      { apply VisitVars_stops; [| |exact Ha|].
        - intros v Hv'. apply (subterms_trans _ _ _ Hop). now apply subterms_param.
        - intros v Hv'. exact (params_stop fn vars body true v Hop Hv').
        - intros v Hv'. exact (disjoint_param active fn vars body true v Hdo Hv'). }
      intros sb Eb Hb.
      assert (visits root (FunctionNode fn vars body true) sa sb) as [_ _ Fb].
      { apply (VisitVars_visits root _ vars Hid); [|exact Eb]. intros v Hv'.
        pose proof (subterms_param fn vars body true v Hv') as Hs.
        split; [exact (subterms_trans _ _ _ Hop Hs)|exact Hs]. }
      pose proof (operator_addresses root call _ args attrs Hid He) as Hstrict.
      apply (stops_bind _ _ _ _ _
               (AssignAndBind_stops active call _ attrs vars args sb He eq_refl Hassign Hbind
                  Hb (placed_absent active (addr call) sb Hb ltac:(set_solver) Hca))).
      intros sc _ [Hc _].
      apply (stops_weaken _ (fun st' => placed root (active ∪ {[ addr call ]}) st' /\
                                        visit_counter_ st' = visit_counter_ sc));
        [intros s _ [H _]; exact H|].
      now apply RecordConsumerScopes_stops.
    + intros st1 _ H1.
      apply (stops_bind _ _ _ (placed root (active ∪ {[ addr call ]})));
        [|intros st3 _ H3; cbn; now apply placed_RetractArgs].
      apply stops_foldM; [|now apply placed_set_flag].
      apply Forall_forall. intros a Ha s Hs.
      assert (a ∈ subterms e) as Hae
          by exact (subterms_arg call op args attrs a a Ha (subterms_self a)).
      assert (a ∈ subterms root) as Har by exact (subterms_trans _ _ _ He Hae).
      rewrite List.Forall_forall in IHargs.
      destruct (IHargs a (proj1 (list_elem_of_In _ _) Ha) Har) as [Hrun Hbody].
      apply Visit_stops; [exact Har|exact Hrun|exact Hbody| |exact Hs].
      pose proof (disjoint_part _ _ _ (addresses_subterm e a Hae) Hdis) as Hda.
      pose proof (argument_addresses call op args attrs a Hid He Ha) as Hstrict.
      apply elem_of_disjoint. intros p Hin Hpa.
      apply elem_of_union in Hin as [Hin|Hin].
      { exact (proj1 (elem_of_disjoint _ _) Hda p Hin Hpa). }
      apply elem_of_singleton in Hin. subst p. contradiction.
  - assert (body ∈ subterms root) as Hbr.
    { apply (subterms_trans _ _ _ He). apply subterms_body, subterms_self. }
    destruct (IH Hbr) as [Hbody _]. split; [|exact Hbody].
    intros st active Hdis Hp. rewrite VisitExpr_function.
    case_bool_decide as Hv; [exact Hp|].
    apply (stops_bind _ _ _ (placed root active)).
    + apply (stops_bind _ _ _ (placed root active)).
      * apply VisitVars_stops; [| |exact Hp|].
        -- intros v Hv'. apply (subterms_trans _ _ _ He). now apply subterms_param.
        -- intros v Hv'. exact (params_stop n ps body primitive v He Hv').
        -- intros v Hv'. exact (disjoint_param active n ps body primitive v Hdis Hv').
      * intros st1 _ H1. apply Hbody; [|exact H1].
        exact (disjoint_part _ _ _ (addresses_body n ps body primitive) Hdis).
    + intros st2 _ H2. cbn. apply placed_mark. revert H2. apply placed_weaken. set_solver.
  - split; [|exact I]. intros st active Hdis Hp. rewrite VisitExpr_op.
    case_bool_decide as Hv; [exact Hp|]. cbn. apply placed_mark. revert Hp.
    apply placed_weaken. set_solver.
Qed.

Lemma GetStorageMap_stops : stops_with stop (fun _ => True) (GetStorageMap root).
Proof.
  unfold GetStorageMap. apply (stops_bind _ _ _ (fun _ => True)); [|intros; exact I].
  unfold Analyze. apply (stops_bind _ _ _ (placed root ∅)).
  - apply (proj1 (VisitExpr_stops root (subterms_self root))); [set_solver|].
    split; intros p scopes Hp; cbn in Hp; rewrite lookup_empty in Hp; discriminate.
  - intros st0 _ H0.
    destruct (LegalizeProducerStorage_lookup st0) as (table & -> & _); [|exact I].
    intros p demand scopes _ Hs. destruct (placed_uniform _ _ _ _ H0 Hs) as [Hne Hu].
    split; [exact Hne|now apply uniform_not_mixed].
Qed.
End Stops.

Lemma IntImm_value_stops (e : PrimExpr) : stops_with graph_stop (fun _ => True) (IntImm_value e).
Proof. unfold IntImm_value. destruct (as_IntImm e); cbn; auto. Qed.

Lemma Scope_stops (shape : list PrimExpr) (vd : VirtualDevice) :
  stops_with graph_stop (fun _ => True) (Scope shape vd).
Proof.
  unfold Scope. destruct (is_constrained vd && _); [|exact I].
  apply (stops_bind _ _ _ (fun _ => True)); [apply IntImm_value_stops|]. intros last_dim _ _.
  destruct (last_dim =? 4); [|exact I]. cbv zeta.
  apply (stops_bind _ _ _ (fun _ => True)).
  { unfold spatial_limit. destruct (target vd); cbn; auto. }
  intros limit _ _.
  do 4 (apply (stops_bind _ _ _ (fun _ => True)); [apply IntImm_value_stops|]; intros ? _ _).
  match goal with |- stops_with _ _ (match ?d with _ => _ end) => destruct d as [|[? ?] ?] end;
    exact I.
Qed.

Lemma own_scope_stops (n : RelayExprNode) : stops_with graph_stop (fun _ => True) (own_scope n).
Proof.
  unfold own_scope. destruct (checked_type_ n) as [shape| |]; try exact I.
  apply (stops_bind _ _ _ (fun _ => True)); [apply Scope_stops|]. intros scope _ _.
  destruct (negb _); [|exact I]. destruct (as_IntImm _); exact I.
Qed.

Lemma AssignCallScope_stops (call : RelayExprNode) (st : StorageInfo) :
  stops_with graph_stop (fun _ => True) (AssignCallScope call st).
Proof.
  unfold AssignCallScope. destruct (checked_type_ call) as [shape|fields|]; [| |cbn; auto].
  - apply (stops_bind _ _ _ (fun _ => True)); [apply Scope_stops|]. intros; exact I.
  - exact I.
Qed.

Lemma BindArgsToVars_stops (params : list Var) :
  forall (args : list Expr) (table : gmap positive (list Var)),
    stops_with graph_stop (fun _ => True) (BindArgsToVars args params table).
Proof.
  induction params as [|v params IH]; intros args table; cbn [BindArgsToVars]; [exact I|].
  destruct args as [|a args]; [cbn; auto|apply IH].
Qed.

(** X15.  When addresses identify nodes, the checks of the analysis hold: it
    never stops on [Already propagated consumer scopes to input] or on
    [Mixed output storage scopes are not currently supported], and never
    takes the first scope of an empty vector.  It returns a map, unless
    the graph has a type that is neither tensor nor tuple at a call of a
    primitive function, such a call with fewer arguments than
    parameters, a dimension that is no integer literal, or a constrained
    placement without target. *)
Theorem GetStorageMap_checks (expr : Expr) :
  addresses_identify expr ->
  match GetStorageMap expr with
  | Ok _ => True
  | ICheckFail msg => msg = "tuple_type" \/ msg = "index out of bounds"
  | Fault what => what = "null IntImmNode dereferenced" \/ what = "null Target dereferenced"
  end.
Proof.
  intros Hid. apply (GetStorageMap_stops graph_stop expr Hid).
  - intros e _ _. apply own_scope_stops.
  - intros call fn params body args attrs _. split.
    + apply AssignCallScope_stops.
    + apply BindArgsToVars_stops.
Qed.

Lemma GetStorageMap_checks_witness :
  match GetStorageMap shared_input with
  | Ok _ => True
  | ICheckFail msg => msg = "tuple_type" \/ msg = "index out of bounds"
  | Fault what => what = "null IntImmNode dereferenced" \/ what = "null Target dereferenced"
  end.
Proof. exact (GetStorageMap_checks shared_input shared_input_addresses). Defined.

Lemma Scope_returns (shape : list PrimExpr) (vd : VirtualDevice) :
  Forall (fun d => is_Some (as_IntImm d)) shape ->
  (is_constrained vd = true -> is_Some (target vd)) ->
  stops_with no_stop (fun _ => True) (Scope shape vd).
Proof.
  intros Hlit Htarget. unfold Scope. destruct (is_constrained vd); [|exact I].
  destruct (Htarget eq_refl) as [t Ht]. cbn [andb].
  destruct shape as [|d0 [|d1 [|d2 [|d3 [|d4 [|d5 rest]]]]]]; try exact I.
  cbn [length Nat.eqb nth].
  repeat match goal with
         | H : Forall _ (_ :: _) |- _ =>
             let Hd := fresh "Hd" in
             apply Forall_cons in H as [[? Hd] H]
         end.
  unfold IntImm_value, spatial_limit. rewrite Hd, Hd0, Hd1, Hd2, Hd3, Ht.
  cbn [mbind result_bind]. destruct (_ =? 4); [|exact I]. cbv zeta.
  match goal with |- stops_with _ _ (match ?d with _ => _ end) => destruct d as [|[? ?] ?] end;
    exact I.
Qed.

Lemma own_scope_returns (n : RelayExprNode) :
  resolved n -> stops_with no_stop (fun _ => True) (own_scope n).
Proof.
  unfold resolved, own_scope. destruct (checked_type_ n) as [shape| |]; try (intros; exact I).
  intros [Hlit Htarget].
  apply (stops_bind _ _ _ (fun _ => True)); [now apply Scope_returns|]. intros scope _ _.
  destruct (negb _); [|exact I]. destruct (as_IntImm _); exact I.
Qed.

Lemma AssignCallScope_returns (call : RelayExprNode) (st : StorageInfo) :
  resolved call -> checked_type_ call <> OtherType ->
  stops_with no_stop (fun _ => True) (AssignCallScope call st).
Proof.
  unfold resolved, AssignCallScope.
  destruct (checked_type_ call) as [shape|fields|]; [| |congruence].
  - intros [Hlit Htarget] _.
    apply (stops_bind _ _ _ (fun _ => True)); [now apply Scope_returns|]. intros; exact I.
  - intros; exact I.
Qed.

Lemma RunVars_returns (params : list Var) (c : CollectVirtualDevices) :
  exists c', foldM RunVar params c = Ok c'.
Proof.
  revert c. induction params as [|v params IH]; intros c; cbn [foldM]; [eauto|].
  unfold RunVar at 1. cbn [mbind result_bind]. apply IH.
Qed.

Lemma device_calls_arg (args : list Expr) (a : Expr) (n : RelayExprNode) :
  a ∈ args -> n ∈ device_calls a -> n ∈ concat (device_calls <$> args).
Proof.
  intros Ha Hn. apply list_elem_of_In, in_concat. exists (device_calls a).
  split; apply list_elem_of_In; [now apply list_elem_of_fmap_2|exact Hn].
Qed.

Lemma Run_returns (expr : Expr) :
  targeted expr ->
  (forall c, exists c', Run expr c = Ok c') /\
  match expr with
  | FunctionNode _ _ body _ => forall c, exists c', Run body c = Ok c'
  | _ => True
  end.
Proof.
  induction expr as [v|n|call op args attrs IHop IHargs|n ps body primitive IH|n name]
    using Expr_nested_ind; intros Ht.
  - split; [|exact I]. intros c. rewrite Run_leaf by exact I. case_bool_decide; eauto.
  - split; [|exact I]. intros c. rewrite Run_leaf by exact I. case_bool_decide; eauto.
  - split; [|exact I]. intros c. rewrite Run_call. case_bool_decide; [eauto|].
    assert (exists devices, AddDevice call (devices_ c) = Ok devices) as [devices ->].
    { unfold AddDevice. destruct (is_constrained _) eqn:Hc; [|eauto].
      destruct (Ht call ltac:(left) Hc) as [t ->]. destruct (device_attr t); eauto. }
    cbn [mbind result_bind].
    assert (forall c0, exists c', foldM VisitDevices args c0 = Ok c') as Hloop.
    { assert (forall a, a ∈ args -> targeted a) as Hta.
      { intros a Ha m Hm. apply Ht. cbn [device_calls]. right.
        now apply (device_calls_arg args a). }
      clear Ht. induction IHargs as [|a args Ha _ IHl]; intros c0; cbn [foldM]; [eauto|].
      destruct (Ha (Hta a ltac:(left))) as [Hrun Hbody].
      assert (exists c1, VisitDevices a c0 = Ok c1) as [c1 ->].
      { destruct a as [| | |fn ps body prim|]; try apply Hrun.
        cbn [VisitDevices]. destruct (Hbody c0) as [cb ->]. cbn [mbind result_bind].
        apply RunVars_returns. }
      cbn [mbind result_bind]. apply IHl. intros b Hb. apply Hta. now right. }
    destruct (Hloop (mkCollectVirtualDevices devices (seen_ c))) as [c' ->]. cbn. eauto.
  - destruct (IH Ht) as [Hbody _]. split; [|exact Hbody].
    intros c. rewrite Run_function. case_bool_decide; [eauto|].
    destruct (RunVars_returns ps c) as [c1 ->]. cbn [mbind result_bind].
    destruct (Hbody c1) as [c2 ->]. cbn. eauto.
  - split; [|exact I]. intros c. rewrite Run_leaf by exact I. case_bool_decide; eauto.
Qed.

(** X16.  The analysis returns a map for every graph in which addresses
    identify nodes, the leaves and the calls of primitive functions have
    integer literals for dimensions and a target when their placement is
    constrained, and each call of a primitive function has a tensor or
    tuple type and at least as many arguments as the function has
    parameters.  When the calls the device collector reaches have
    targets as well, the dispatch with the registration of this file
    returns too. *)
Theorem GetStorageMap_returns (expr : Expr) :
  addresses_identify expr -> well_formed expr ->
  (exists storage_map, GetStorageMap expr = Ok storage_map) /\
  (targeted expr -> exists storage_map, CollectStorageInfo registered expr = Ok storage_map).
Proof.
  intros Hid Hwf.
  assert (stops_with no_stop (fun _ => True) (GetStorageMap expr)) as H.
  { apply (GetStorageMap_stops no_stop expr Hid).
    - intros e He Hleaf. specialize (Hwf e He).
      destruct e; try discriminate; now apply own_scope_returns.
    - intros call fn params body args attrs Hc.
      destruct (Hwf _ Hc) as (Hr & Ht & Hlen). split.
      + intros st. now apply AssignCallScope_returns.
      + intros table.
        destruct (BindArgsToVars_enough params args table Hlen) as (table' & -> & _).
        exact I. }
  assert (exists storage_map, GetStorageMap expr = Ok storage_map) as Hmap.
  { destruct (GetStorageMap expr) as [m| |]; [eauto|destruct H..]. }
  split; [exact Hmap|]. intros Ht. unfold CollectStorageInfo, GetDevices.
  destruct (proj1 (Run_returns expr Ht) (mkCollectVirtualDevices [] ∅)) as [c ->].
  cbn [mbind result_bind]. destruct (registered _) as [f|] eqn:Hf; [|eauto].
  unfold registered in Hf. destruct (String.eqb _ _); [|discriminate].
  injection Hf as <-. exact Hmap.
Qed.

Lemma shared_input_well_formed : well_formed shared_input.
Proof.
  intros e He. vm_compute in He.
  repeat (apply elem_of_cons in He as [->|He]); try (now inversion He);
    try exact I; cbn;
    repeat split; try discriminate; try lia;
    try (repeat constructor; eexists; reflexivity);
    try (intros _; eexists; reflexivity).
Qed.

Lemma GetStorageMap_returns_witness :
  exists storage_map, CollectStorageInfo registered shared_input = Ok storage_map.
Proof.
  apply (GetStorageMap_returns shared_input shared_input_addresses shared_input_well_formed).
  intros n Hn Hc. vm_compute in Hn.
  repeat (apply elem_of_cons in Hn as [->|Hn]); try (now inversion Hn);
    first [eexists; reflexivity | discriminate Hc].
Defined.

(** ** The keys of the map returned *)



(** ** The scope of a leaf *)

(** A property of the state kept by the leaf rule at the leaves of
    [root], by the candidate of the calls of primitive functions of
    [root], and by the other updates, is kept by the traversal of the
    nodes of [root]. *)
Section VisitKeeps.
Variable root : Expr.
Variable Q : StorageInfo -> Prop.

Hypothesis K_flag : forall b st, Q st -> Q (set_flag b st).
Hypothesis K_mark : forall p st, Q st -> Q (mark_visited p st).
Hypothesis K_leaf :
  forall e st st',
    e ∈ subterms root -> is_leaf e = true -> ptr e ∉ visit_counter_ st ->
    Q st -> ApplyConsumerScopeToInputs (node_of e) st = Ok st' -> Q st'.
Hypothesis K_assign :
  forall call fn params body args attrs st st',
    CallNode call (FunctionNode fn params body true) args attrs ∈ subterms root ->
    Q st -> AssignAndBind call params args st = Ok st' -> Q st'.
Hypothesis K_record :
  forall call arg st st', Q st -> RecordConsumerScope call arg st = Ok st' -> Q st'.
Hypothesis K_retract : forall st arg, Q st -> Q (RetractArg st arg).

Lemma kept_VisitVar (e : Expr) (v : Var) (st st' : StorageInfo) :
  e ∈ subterms root -> is_leaf e = true -> node_of e = var_node v ->
  Q st -> VisitVar v st = Ok st' -> Q st'.
Proof.
  intros He Hl Hn HQ. unfold VisitVar. case_bool_decide as Hv; [intros [= <-]; exact HQ|].
  intros E. apply bind_Ok in E as (st1 & E1 & [= <-]). apply K_mark.
  rewrite <- Hn in E1, Hv. eauto.
Qed.

Lemma kept_VisitVars (n : RelayExprNode) (params : list Var) (body : Expr) (primitive : bool) :
  FunctionNode n params body primitive ∈ subterms root ->
  forall st st', Q st -> foldM VisitVar params st = Ok st' -> Q st'.
Proof.
  intros Hf. apply (foldM_preserves VisitVar Q). apply Forall_forall.
  intros v Hv s s'. apply (kept_VisitVar (VarNode v)); [|reflexivity..].
  apply (subterms_trans _ _ _ Hf). now apply subterms_param.
Qed.

Lemma VisitExpr_keeps (expr : Expr) :
  expr ∈ subterms root ->
  (forall st st', Q st -> VisitExpr expr st = Ok st' -> Q st') /\
  match expr with
  | FunctionNode _ _ body _ => forall st st', Q st -> VisitExpr body st = Ok st' -> Q st'
  | _ => True
  end.
Proof.
  induction expr as [v|n|call op args attrs IHop IHargs|n ps body primitive IH|n name]
    using Expr_nested_ind; intros He.
  - split; [|exact I]. intros st st'. rewrite VisitExpr_var.
    now apply (kept_VisitVar (VarNode v)).
  - split; [|exact I]. intros st st'. rewrite VisitExpr_constant.
    now apply (kept_VisitVar (ConstantNode n)).
  - split; [|exact I]. intros st st' HQ. rewrite VisitExpr_call.
    case_bool_decide; [now intros [= <-]|]. intros E.
    apply bind_Ok in E as (st4 & E & [= <-]). apply K_mark.
    unfold DeviceAwareVisitExpr_ in E. apply bind_Ok in E as (st1 & E1 & E).
    apply bind_Ok in E as (st3 & E3 & [= <-]).
    assert (op ∈ subterms root) as Hop.
    { apply (subterms_trans _ _ _ He). apply subterms_op, subterms_self. }
    assert (Q st1) as HQ1.
    { destruct op as [| | |fn vars body prim|]; try (injection E1 as <-; exact HQ).
      destruct prim; [|injection E1 as <-; exact HQ].
      destruct (IHop Hop) as [_ Hbody]. unfold VisitPrimitive in E1.
      apply bind_Ok in E1 as (sa & Ea & E1). apply bind_Ok in E1 as (sb & Eb & E1).
      apply bind_Ok in E1 as (sc & Ec & E1).
      apply (foldM_preserves (RecordConsumerScope call) Q args) with (s := sc);
        [apply Forall_forall; intros a _ s s'; apply K_record| |exact E1].
      apply (K_assign call fn vars body args attrs sb sc He); [|exact Ec].
      apply (kept_VisitVars fn vars body true Hop sa sb); [|exact Eb].
      apply (Hbody _ _ (K_flag false st HQ) Ea). }
    assert (Q st3) as HQ3.
    { apply (foldM_preserves Visit Q args) with (s := set_flag (SupportsTextureStorage attrs) st1);
        [|now apply K_flag|exact E3].
      apply List.Forall_forall. intros a Ha s s' Hs Es. apply list_elem_of_In in Ha.
      assert (a ∈ subterms root) as Har.
      { apply (subterms_trans _ _ _ He).
        exact (subterms_arg call op args attrs a a Ha (subterms_self a)). }
      rewrite List.Forall_forall in IHargs.
      destruct (IHargs a (proj1 (list_elem_of_In _ _) Ha) Har) as [Hrun Hbody].
      destruct a as [| | |fn vars body prim|]; try exact (Hrun _ _ Hs Es).
      cbn [Visit] in Es. apply bind_Ok in Es as (s1 & Eb & Es).
      apply (kept_VisitVars fn vars body prim Har s1 s'); [|exact Es]. eauto. }
    clear -HQ3 K_retract. unfold RetractArgs. revert st3 HQ3.
    induction args as [|a args IHa]; intros s Hs; cbn [fold_left]; [exact Hs|].
    apply IHa. now apply K_retract.
  - assert (body ∈ subterms root) as Hbr.
    { apply (subterms_trans _ _ _ He). apply subterms_body, subterms_self. }
    destruct (IH Hbr) as [Hbody _]. split; [|exact Hbody].
    intros st st' HQ. rewrite VisitExpr_function.
    case_bool_decide; [now intros [= <-]|]. intros E.
    apply bind_Ok in E as (st2 & E & [= <-]). apply K_mark.
    apply bind_Ok in E as (st1 & E1 & E).
    apply (Hbody st1 st2); [|exact E]. exact (kept_VisitVars n ps body primitive He st st1 HQ E1).
  - split; [|exact I]. intros st st' HQ. rewrite VisitExpr_op.
    case_bool_decide; intros [= <-]; [exact HQ|now apply K_mark].
Qed.
End VisitKeeps.

Lemma Apply_frame (n : RelayExprNode) (st st' : StorageInfo) :
  ApplyConsumerScopeToInputs n st = Ok st' ->
  forall p, p <> addr n -> storage_scope_ st' !! p = storage_scope_ st !! p.
Proof.
  unfold ApplyConsumerScopeToInputs.
  destruct (consumer_storage_scopes_ st !! addr n); [|now intros [= <-]].
  destruct (has_key _ _); [discriminate|]. intros E.
  apply bind_Ok in E as ([scope vec] & _ & E).
  destruct (found _ _); [destruct vec|]; injection E as <-; cbn; try reflexivity;
    intros p Hp; rewrite lookup_push_back; now rewrite decide_False by congruence.
Qed.

Lemma AssignAndBind_frame (call : RelayExprNode) (params : list Var) (args : list Expr)
    (st st' : StorageInfo) :
  AssignAndBind call params args st = Ok st' ->
  forall p, p <> addr call -> storage_scope_ st' !! p = storage_scope_ st !! p.
Proof.
  unfold AssignAndBind. destruct (primitive_supports_texture_ st); [|now intros [= <-]].
  intros E. apply bind_Ok in E as (st1 & E1 & E).
  apply bind_Ok in E as (table & _ & [= <-]). cbn.
  unfold AssignCallScope in E1. destruct (checked_type_ call) as [shape|fields|];
    [| |discriminate].
  - apply bind_Ok in E1 as (scope & _ & [= <-]). cbn.
    intros p Hp. rewrite lookup_push_back. now rewrite decide_False by congruence.
  - injection E1 as <-. cbn. intros p Hp. rewrite lookup_fold_push_back.
    destruct fields; [reflexivity|]. now rewrite decide_False by congruence.
Qed.

Lemma refused_not_unanimous (demand : list string) :
  refused demand -> GetConsumerScope demand = "global".
Proof.
  intros (x & Hx & Hf). rewrite GetConsumerScope_forallb.
  destruct (forallb _ demand) eqn:Hall; [|reflexivity].
  rewrite forallb_forall in Hall. apply list_elem_of_In in Hx.
  rewrite (Hall x Hx) in Hf. discriminate.
Qed.

Lemma not_unanimous_refused (demand : list string) :
  demand <> [] -> GetConsumerScope demand <> "global.texture" -> refused demand.
Proof.
  intros Hne. rewrite GetConsumerScope_forallb.
  destruct (forallb _ demand) eqn:Hall.
  - destruct demand; [contradiction|]. cbn. intros H. now contradiction H.
  - intros _. clear Hne. induction demand as [|x demand IH]; [discriminate|].
    cbn [forallb] in Hall. destruct (found x texture_tag) eqn:Hx.
    + destruct (IH Hall) as (y & Hy & Hf). exists y. split; [now right|exact Hf].
    + exists x. split; [left|exact Hx].
Qed.

Lemma leaf_candidate_VisitExpr (root leaf : Expr) (st st' : StorageInfo) :
  addresses_identify root -> leaf ∈ subterms root -> is_leaf leaf = true ->
  leaf_candidate (node_of leaf) st -> VisitExpr root st = Ok st' ->
  leaf_candidate (node_of leaf) st'.
Proof.
  intros Hid Hin Hleaf. set (n := node_of leaf).
  assert (forall b s, leaf_candidate n s -> leaf_candidate n (set_flag b s)) as K1.
  { intros b s [H1 H2]. split; assumption. }
  assert (forall p s, leaf_candidate n s -> leaf_candidate n (mark_visited p s)) as K2.
  { intros p s [H1 H2]. split; assumption. }
  assert (forall e s s',
             e ∈ subterms root -> is_leaf e = true -> ptr e ∉ visit_counter_ s ->
             leaf_candidate n s ->
             ApplyConsumerScopeToInputs (node_of e) s = Ok s' -> leaf_candidate n s') as K3.
  { intros e s s' He Hl _ [H1 H2] E. pose proof (Apply_consumer _ _ _ E) as HD.
    split; rewrite HD; [exact H1|].
    destruct (decide (addr (node_of e) = addr n)) as [Heq|Hne];
      [|intros scopes; rewrite (Apply_frame _ _ _ E) by congruence; apply H2].
    assert (e = leaf) as -> by (apply Hid; assumption). fold n in E.
    revert E. unfold ApplyConsumerScopeToInputs.
    destruct (consumer_storage_scopes_ s !! addr n) as [demand|] eqn:Hd;
      [|intros [= <-]; exact H2].
    unfold has_key. case_bool_decide as Hk; [discriminate|].
    assert (storage_scope_ s !! addr n = None) as Hs.
    { destruct (storage_scope_ s !! addr n) eqn:E0; [|reflexivity].
      exfalso. apply Hk. eauto. }
    intros E. apply bind_Ok in E as ([scope vec] & Ho & E).
    pose proof (own_scope_vectorizable _ _ _ Ho) as Hos.
    destruct (found (GetConsumerScope demand) "global.texture") eqn:Hf.
    + destruct vec; injection E as <-; [|exact H2]. cbn. intros scopes.
      unfold push_back. rewrite Hs, lookup_insert_eq. cbn. intros [= <-]. right.
      destruct (checked_type_ n) as [shape| |] eqn:Ht; try (destruct Hos; discriminate).
      destruct Hos as [Hsc Hv]. exists shape, scope. split; [exact Ht|].
      split; [exact Hsc|]. split; [|reflexivity].
      destruct (Scope_cases _ _ _ Hsc) as [->|(Htex & _)]; [discriminate Hv|exact Htex].
    + injection E as <-. cbn. intros scopes.
      unfold push_back. rewrite Hs, lookup_insert_eq. cbn. intros [= <-]. left.
      assert (GetConsumerScope demand <> "global.texture") as Hne.
      { intros Heq'. rewrite Heq' in Hf. discriminate. }
      destruct (GetConsumerScope_cases demand) as [->|?]; [|contradiction].
      split; [reflexivity|]. exists demand. split; [reflexivity|].
      apply not_unanimous_refused; [exact (H1 demand eq_refl)|exact Hne]. }
  assert (forall call fn params body args attrs s s',
             CallNode call (FunctionNode fn params body true) args attrs ∈ subterms root ->
             leaf_candidate n s -> AssignAndBind call params args s = Ok s' ->
             leaf_candidate n s') as K4.
  { intros call fn params body args attrs s s' Hc [H1 H2] E.
    rewrite <- (AssignAndBind_consumer _ _ _ _ _ E) in H1, H2. split; [exact H1|].
    intros scopes. rewrite (AssignAndBind_frame _ _ _ _ _ E); [apply H2|].
    intros Heq.
    assert (leaf = CallNode call (FunctionNode fn params body true) args attrs) as ->
        by (apply Hid; assumption).
    discriminate. }
  assert (forall call arg s s',
             leaf_candidate n s -> RecordConsumerScope call arg s = Ok s' ->
             leaf_candidate n s') as K5.
  { intros call arg s s' [H1 H2] E.
    assert (storage_scope_ s' = storage_scope_ s /\
            exists tag, consumer_storage_scopes_ s'
                        = push_back (ptr arg) tag (consumer_storage_scopes_ s)) as [HS [tag HD]].
    { revert E. unfold RecordConsumerScope. destruct (has_key _ _).
      - intros E. apply bind_Ok in E as (b & _ & E). destruct b; [discriminate|].
        injection E as <-. cbn. eauto.
      - intros [= <-]. cbn. eauto. }
    split; rewrite ?HS, HD.
    + intros demand. rewrite lookup_push_back. case_decide; [|apply H1].
      intros [= <-]. destruct (default [] _); discriminate.
    + intros scopes Hs. destruct (H2 scopes Hs) as [[-> (d & Hd & x & Hx & Hf)]|Hfit];
        [left|now right].
      split; [reflexivity|]. rewrite lookup_push_back. case_decide as Hk.
      * rewrite Hd. cbn. eexists. split; [reflexivity|]. exists x.
        split; [|exact Hf]. apply elem_of_app. now left.
      * exists d. split; [exact Hd|]. exists x. auto. }
  assert (forall s arg, leaf_candidate n s -> leaf_candidate n (RetractArg s arg)) as K6.
  { intros s arg [H1 H2]. split; rewrite RetractArg_consumer; [exact H1|].
    intros scopes Hs. apply RetractArg_subset in Hs. auto. }
  exact (proj1 (VisitExpr_keeps root (leaf_candidate n) K1 K2 K3 K4 K5 K6 root
                  (subterms_self root)) st st').
Qed.

Lemma Legalize_lookup (st0 st : StorageInfo) :
  map_Forall (fun _ scopes => scopes <> []) (storage_scope_ st0) ->
  LegalizeProducerStorage st0 = Ok st ->
  forall p,
    storage_scope_ st !! p =
    match consumer_storage_scopes_ st0 !! p with
    | Some demand => legalized demand <$> storage_scope_ st0 !! p
    | None => storage_scope_ st0 !! p
    end.
Proof.
  intros Hne E.
  destruct (LegalizeProducerStorage_lookup st0) as (table & Et & Hl).
  - intros p demand scopes Hd Hs. split; [exact (Hne _ _ Hs)|]. intros Hm.
    unfold LegalizeProducerStorage in E.
    rewrite (Legalize_loop_mixed _ (NoDup_fst_map_to_list (consumer_storage_scopes_ st0)))
      in E; [discriminate| |].
    + intros q d sq _ Hq. exact (Hne _ _ Hq).
    + exists p, demand, scopes. split; [now apply elem_of_map_to_list|auto].
  - rewrite Et in E. injection E as <-. exact Hl.
Qed.

(** X18.  When addresses identify nodes, a Reference or Literal that still
    has a candidate after the traversal and the legalization has the
    texture scope the evaluator gives for its own type and placement:
    the scope of a leaf is never raised by the legalization.  In the map
    returned such a leaf, unless it is a parameter of a primitive
    function, has that scope or ["global"]. *)
Theorem leaf_scope_fits (expr leaf : Expr) (st : StorageInfo) :
  addresses_identify expr -> leaf ∈ subterms expr -> is_leaf leaf = true ->
  Analyze expr = Ok st ->
  (forall scopes,
      storage_scope_ st !! ptr leaf = Some scopes -> fitted (node_of leaf) scopes) /\
  (forall storage_map scopes,
      GetStorageMap expr = Ok storage_map -> ptr leaf ∉ primitive_params expr ->
      storage_map !! ptr leaf = Some scopes ->
      scopes = ["global"] \/ fitted (node_of leaf) scopes).
Proof.
  intros Hid Hin Hleaf Ha.
  assert (forall scopes,
             storage_scope_ st !! ptr leaf = Some scopes -> fitted (node_of leaf) scopes)
    as Hfit.
  { intros scopes Hs. pose proof Ha as Ha'. unfold Analyze in Ha'.
    apply bind_Ok in Ha' as (st0 & E0 & E).
    assert (leaf_candidate (node_of leaf) st0) as [H1 H2].
    { apply (leaf_candidate_VisitExpr expr leaf StorageInfo_init st0 Hid Hin Hleaf);
        [|exact E0].
      split; intros x Hx; cbn in Hx; rewrite lookup_empty in Hx; discriminate. }
    assert (collected (demand_sites expr) (primitive_calls expr) (primitive_params expr) st0)
      as Hcol.
    { eapply collected_VisitExpr; [reflexivity..|apply collected_init|exact E0]. }
    pose proof (Legalize_lookup st0 st (scope_nonempty _ _ _ _ Hcol) E (ptr leaf)) as Hl.
    assert (consumer_storage_scopes_ st = consumer_storage_scopes_ st0) as HD.
    { unfold LegalizeProducerStorage in E. apply bind_Ok in E as (t & _ & [= <-]).
      reflexivity. }
    rewrite Hs in Hl. change (ptr leaf) with (addr (node_of leaf)) in *.
    destruct (consumer_storage_scopes_ st0 !! addr (node_of leaf)) as [demand|] eqn:Hd.
    - destruct (storage_scope_ st0 !! addr (node_of leaf)) as [scopes0|] eqn:Hs0;
        [|discriminate].
      cbn in Hl. injection Hl as ->.
      destruct (H2 scopes0 eq_refl) as [[-> (d & Hd' & Href)]|Hf].
      + exfalso. injection Hd' as <-.
        assert (storage_scope_ st !! addr (node_of leaf) = None) as Hnone.
        { apply (Analyze_settled expr st Hid Ha _ demand); [now rewrite HD|].
          rewrite (refused_not_unanimous _ Href). discriminate. }
        rewrite Hs in Hnone. discriminate.
      + destruct Hf as (shape & scope & Ht & Hsc & Htex & ->). cbn [legalized].
        assert (is_scope scope) as Hscope by (unfold is_scope; destruct Htex; auto).
        assert (found scope (GetConsumerScope demand) = true) as ->.
        { destruct (GetConsumerScope_cases demand) as [->| ->].
          - now apply found_scope_global.
          - rewrite (found_scope_texture _ Hscope).
            destruct Htex as [->|[->| ->]]; reflexivity. }
        exists shape, scope. auto.
    - symmetry in Hl. destruct (H2 scopes Hl) as [[_ (d & Hd' & _)]|Hf];
        [discriminate|exact Hf]. }
  split; [exact Hfit|].
  intros storage_map scopes Hg Hp Hm.
  rewrite (GetStorageMap_other expr st storage_map _ Ha Hg Hp), FillInputs_lookup in Hm.
  destruct (storage_scope_ st !! ptr leaf) as [s|] eqn:Hs.
  - injection Hm as <-. right. now apply Hfit.
  - destruct (consumer_storage_scopes_ st !! ptr leaf) as [d|]; [|discriminate].
    destruct (CanConsumeTextures d); [|discriminate]. injection Hm as <-. now left.
Qed.

Lemma leaf_scope_fits_witness :
  fitted (mkNode 2 (tensor [1; 1; 8; 8; 4]) vd_adreno) ["global.texture"].
Proof.
  assert (exists st, Analyze scenario_A = Ok st /\
                     storage_scope_ st !! 2%positive = Some ["global.texture"])
    as (st & Ha & Hs).
  { eexists. split; [vm_compute; reflexivity|reflexivity]. }
  apply (proj1 (leaf_scope_fits scenario_A
                  (VarNode (mkVar (mkNode 2 (tensor [1; 1; 8; 8; 4]) vd_adreno) "data")) st
                  scenario_A_addresses ltac:(vm_compute; do 8 right; left) eq_refl Ha)).
  exact Hs.
Defined.

(** ** The parameters of the function analysed *)

Lemma passed_VisitExpr (root e leaf : Expr) (st st' : StorageInfo) :
  addresses_identify root -> e ∈ subterms root ->
  leaf ∈ subterms root -> is_leaf leaf = true ->
  passed (ptr leaf) st -> VisitExpr e st = Ok st' -> passed (ptr leaf) st'.
Proof.
  intros Hid He Hin Hleaf. set (p := ptr leaf).
  assert (forall b s, passed p s -> passed p (set_flag b s)) as K1.
  { intros b s H. exact H. }
  assert (forall q s, passed p s -> passed p (mark_visited q s)) as K2.
  { intros q s [H1 H2]. split; [cbn; set_solver|exact H2]. }
  assert (forall x s s',
             x ∈ subterms root -> is_leaf x = true -> ptr x ∉ visit_counter_ s ->
             passed p s ->
             ApplyConsumerScopeToInputs (node_of x) s = Ok s' -> passed p s') as K3.
  { intros x s s' Hx Hl Hv [H1 H2] E.
    assert (visit_counter_ s' = visit_counter_ s) as HV.
    { revert E. unfold ApplyConsumerScopeToInputs.
      destruct (consumer_storage_scopes_ s !! _); [|now intros [= <-]].
      destruct (has_key _ _); [discriminate|]. intros E.
      apply bind_Ok in E as ([scope vec] & _ & E).
      destruct (found _ _); [destruct vec|]; now injection E as <-. }
    split; [now rewrite HV|]. rewrite (Apply_frame _ _ _ E); [exact H2|].
    intros Heq. apply Hv. change (ptr x) with (addr (node_of x)). now rewrite <- Heq. }
  assert (forall call fn params body args attrs s s',
             CallNode call (FunctionNode fn params body true) args attrs ∈ subterms root ->
             passed p s -> AssignAndBind call params args s = Ok s' -> passed p s') as K4.
  { intros call fn params body args attrs s s' Hc [H1 H2] E.
    assert (visit_counter_ s' = visit_counter_ s) as HV.
    { revert E. unfold AssignAndBind.
      destruct (primitive_supports_texture_ s); [|now intros [= <-]].
      intros E. apply bind_Ok in E as (s1 & E1 & E).
      apply bind_Ok in E as (table & _ & [= <-]). cbn.
      unfold AssignCallScope in E1. destruct (checked_type_ call); [| |discriminate].
      - apply bind_Ok in E1 as (scope & _ & [= <-]). reflexivity.
      - now injection E1 as <-. }
    split; [now rewrite HV|]. rewrite (AssignAndBind_frame _ _ _ _ _ E); [exact H2|].
    intros Heq.
    assert (leaf = CallNode call (FunctionNode fn params body true) args attrs) as ->
        by (apply Hid; assumption).
    discriminate. }
  assert (forall call arg s s',
             passed p s -> RecordConsumerScope call arg s = Ok s' -> passed p s') as K5.
  { intros call arg s s' H E. revert E. unfold RecordConsumerScope. destruct (has_key _ _).
    - intros E. apply bind_Ok in E as (b & _ & E). destruct b; [discriminate|].
      now injection E as <-.
    - now intros [= <-]. }
  assert (forall s arg, passed p s -> passed p (RetractArg s arg)) as K6.
  { intros s arg [H1 H2]. split.
    - pose proof (RetractArgs_visited [arg] s) as HV. cbn in HV. now rewrite HV.
    - apply (lookup_None_subset s); [intros x; apply RetractArg_subset|exact H2]. }
  exact (proj1 (VisitExpr_keeps root (passed p) K1 K2 K3 K4 K5 K6 e He) st st').
Qed.

Lemma VisitVars_fresh (params : list Var) :
  forall st st',
    consumer_storage_scopes_ st = ∅ ->
    foldM VisitVar params st = Ok st' ->
    storage_scope_ st' = storage_scope_ st /\ consumer_storage_scopes_ st' = ∅ /\
    forall v, v ∈ params -> addr (var_node v) ∈ visit_counter_ st'.
Proof.
  induction params as [|v params IH]; intros st st' HD E; cbn [foldM] in E.
  - injection E as <-. split; [reflexivity|]. split; [exact HD|]. intros v Hv. inversion Hv.
  - apply bind_Ok in E as (st1 & E1 & E).
    assert (storage_scope_ st1 = storage_scope_ st /\ consumer_storage_scopes_ st1 = ∅ /\
            addr (var_node v) ∈ visit_counter_ st1) as (HS1 & HD1 & HV1).
    { revert E1. unfold VisitVar. case_bool_decide as Hv; [intros [= <-]; auto|].
      unfold ApplyConsumerScopeToInputs. rewrite HD, lookup_empty. cbn.
      intros [= <-]. cbn. split; [reflexivity|]. split; [exact HD|set_solver]. }
    destruct (IH _ _ HD1 E) as (HS & HD' & HV). split; [congruence|]. split; [exact HD'|].
    intros w Hw. apply elem_of_cons in Hw as [->|Hw]; [|auto].
    assert (visit_counter_ st1 ⊆ visit_counter_ st') as Hg; [|set_solver].
    clear -E. revert st1 E. induction params as [|u params IHp]; intros s E; cbn [foldM] in E.
    + now injection E as <-.
    + apply bind_Ok in E as (s1 & E1 & E). specialize (IHp _ E).
      assert (visit_counter_ s ⊆ visit_counter_ s1); [|set_solver].
      revert E1. unfold VisitVar. case_bool_decide; [now intros [= <-]|].
      intros E1. apply bind_Ok in E1 as (s2 & E2 & [= <-]). cbn.
      assert (visit_counter_ s2 = visit_counter_ s) as ->; [|set_solver].
      revert E2. unfold ApplyConsumerScopeToInputs.
      destruct (consumer_storage_scopes_ s !! _); [|now intros [= <-]].
      destruct (has_key _ _); [discriminate|]. intros E2.
      apply bind_Ok in E2 as ([scope vec] & _ & E2).
      destruct (found _ _); [destruct vec|]; now injection E2 as <-.
Qed.

(** X19.  When the graph analysed is a function and addresses identify
    nodes, its parameters are visited before any demand is recorded and
    never get a candidate: in the map returned a parameter of the
    function, unless it is also a parameter of a primitive function, has
    ["global"] when one of its consumers asked for a texture and no
    entry otherwise. *)
Theorem function_parameters_global (n : RelayExprNode) (params : list Var) (body : Expr)
    (primitive : bool) (st : StorageInfo) (v : Var) :
  let expr := FunctionNode n params body primitive in
  addresses_identify expr -> v ∈ params -> Analyze expr = Ok st ->
  storage_scope_ st !! addr (var_node v) = None /\
  forall storage_map,
    GetStorageMap expr = Ok storage_map ->
    addr (var_node v) ∉ primitive_params expr ->
    storage_map !! addr (var_node v) =
    match consumer_storage_scopes_ st !! addr (var_node v) with
    | Some demand =>
        if bool_decide ("global.texture" ∈ demand) then Some ["global"] else None
    | None => None
    end.
Proof.
  intros expr Hid Hv Ha.
  assert (storage_scope_ st !! addr (var_node v) = None) as Hnone.
  { pose proof Ha as Ha'. unfold Analyze in Ha'. apply bind_Ok in Ha' as (st0 & E0 & E).
    unfold LegalizeProducerStorage in E. apply bind_Ok in E as (table & Et & [= <-]).
    cbn. apply (Legalize_absent _ _ _ Et).
    unfold expr in E0. rewrite VisitExpr_function in E0. cbn in E0.
    apply bind_Ok in E0 as (st2 & E0 & [= <-]). apply bind_Ok in E0 as (st1 & E1 & E2).
    destruct (VisitVars_fresh params StorageInfo_init st1 eq_refl E1) as (HS & _ & HV).
    assert (VarNode v ∈ subterms expr) as Hin by now apply subterms_param.
    assert (passed (ptr (VarNode v)) st2) as [_ H2].
    { apply (passed_VisitExpr expr body (VarNode v) st1 st2 Hid); auto.
      - apply subterms_body, subterms_self.
      - split; [now apply HV|]. rewrite HS. apply lookup_empty. }
    exact H2. }
  split; [exact Hnone|]. intros storage_map Hg Hp.
  rewrite (GetStorageMap_other expr st storage_map _ Ha Hg Hp), FillInputs_lookup, Hnone.
  destruct (consumer_storage_scopes_ st !! addr (var_node v)) as [demand|] eqn:Hd;
    [|reflexivity].
  destruct (collected_Analyze expr st Ha) as [Htags _ _ _ _].
  now rewrite (CanConsumeTextures_tags demand (Htags _ demand Hd)).
Qed.

Lemma scenario_A_function_addresses : addresses_identify (scenario_A_function_on vd_adreno).
Proof.
  intros e1 e2 H1 H2 Hp. vm_compute in H1, H2.
  repeat (apply elem_of_cons in H1 as [->|H1]); try (now inversion H1);
    repeat (apply elem_of_cons in H2 as [->|H2]); try (now inversion H2);
    first [reflexivity | vm_compute in Hp; discriminate].
Qed.

Lemma plain_function_addresses : addresses_identify plain_function.
Proof.
  intros e1 e2 H1 H2 Hp. vm_compute in H1, H2.
  repeat (apply elem_of_cons in H1 as [->|H1]); try (now inversion H1);
    repeat (apply elem_of_cons in H2 as [->|H2]); try (now inversion H2);
    first [reflexivity | vm_compute in Hp; discriminate].
Qed.

Lemma function_parameters_global_witness :
  (exists storage_map,
      GetStorageMap (scenario_A_function_on vd_adreno) = Ok storage_map /\
      storage_map !! 2%positive = Some ["global"]) /\
  (exists storage_map,
      GetStorageMap plain_function = Ok storage_map /\
      storage_map !! 2%positive = None).
Proof.
  split.
  - assert (exists st, Analyze (scenario_A_function_on vd_adreno) = Ok st /\
                       consumer_storage_scopes_ st !! 2%positive = Some ["global.texture"])
      as (st & Ha & Hd).
    { eexists. split; [vm_compute; reflexivity|reflexivity]. }
    assert (exists m, GetStorageMap (scenario_A_function_on vd_adreno) = Ok m) as (m & Hg).
    { eexists. vm_compute. reflexivity. }
    exists m. split; [exact Hg|].
    destruct (function_parameters_global
                (mkNode 20 OtherType vd_adreno)
                [mkVar (mkNode 2 (tensor [1; 1; 8; 8; 4]) vd_adreno) "data";
                 mkVar (mkNode 3 (tensor [1; 1; 3; 3; 4]) vd_adreno) "weight"]
                scenario_A false st
                (mkVar (mkNode 2 (tensor [1; 1; 8; 8; 4]) vd_adreno) "data")
                scenario_A_function_addresses ltac:(left) Ha) as [_ H].
    cbn [var_node addr] in H. rewrite (H m Hg), Hd; [reflexivity|].
    intros Hin. vm_compute in Hin. discriminate Hin.
  - assert (exists st, Analyze plain_function = Ok st /\
                       consumer_storage_scopes_ st !! 2%positive = Some ["global"])
      as (st & Ha & Hd).
    { eexists. split; [vm_compute; reflexivity|reflexivity]. }
    assert (exists m, GetStorageMap plain_function = Ok m) as (m & Hg).
    { eexists. vm_compute. reflexivity. }
    exists m. split; [exact Hg|].
    destruct (function_parameters_global
                (mkNode 20 OtherType vd_adreno)
                [mkVar (mkNode 2 (tensor [1; 1; 8; 8; 4]) vd_adreno) "data"]
                plain_call false st
                (mkVar (mkNode 2 (tensor [1; 1; 8; 8; 4]) vd_adreno) "data")
                plain_function_addresses ltac:(left) Ha) as [_ H].
    cbn [var_node addr] in H. rewrite (H m Hg), Hd; [reflexivity|].
    intros Hin. vm_compute in Hin. discriminate Hin.
Defined.

(** ** What decides the candidate of a call *)

Lemma VisitVar_flag (v : Var) (st st' : StorageInfo) :
  VisitVar v st = Ok st' ->
  primitive_supports_texture_ st' = primitive_supports_texture_ st /\
  forall p, p <> addr (var_node v) -> storage_scope_ st' !! p = storage_scope_ st !! p.
Proof.
  unfold VisitVar. case_bool_decide; [intros [= <-]; auto|].
  intros E. apply bind_Ok in E as (st1 & E1 & [= <-]). cbn.
  split; [|exact (Apply_frame _ _ _ E1)].
  revert E1. unfold ApplyConsumerScopeToInputs.
  destruct (consumer_storage_scopes_ st !! _); [|now intros [= <-]].
  destruct (has_key _ _); [discriminate|]. intros E.
  apply bind_Ok in E as ([scope vec] & _ & E).
  destruct (found _ _); [destruct vec|]; now injection E as <-.
Qed.

Lemma VisitVars_flag (params : list Var) (p : positive) :
  Forall (fun v => addr (var_node v) <> p) params ->
  forall st st',
    foldM VisitVar params st = Ok st' ->
    primitive_supports_texture_ st' = primitive_supports_texture_ st /\
    storage_scope_ st' !! p = storage_scope_ st !! p.
Proof.
  induction 1 as [|v params Hv _ IH]; intros st st' E; cbn [foldM] in E.
  - injection E as <-. auto.
  - apply bind_Ok in E as (st1 & E1 & E). destruct (VisitVar_flag _ _ _ E1) as [F1 S1].
    destruct (IH _ _ E) as [F2 S2]. split; [congruence|]. rewrite S2. apply S1. congruence.
Qed.

Lemma leaves_flag (args : list Expr) (p : positive) :
  Forall (fun a => is_leaf a = true /\ ptr a <> p) args ->
  forall st st',
    foldM Visit args st = Ok st' ->
    primitive_supports_texture_ st' = primitive_supports_texture_ st /\
    storage_scope_ st' !! p = storage_scope_ st !! p.
Proof.
  induction 1 as [|a args [Hl Hp] _ IH]; intros st st' E; cbn [foldM] in E.
  - injection E as <-. auto.
  - apply bind_Ok in E as (st1 & E1 & E). destruct (IH _ _ E) as [F2 S2].
    assert (primitive_supports_texture_ st1 = primitive_supports_texture_ st /\
            storage_scope_ st1 !! p = storage_scope_ st !! p) as [F1 S1].
    { destruct a as [v|n| | |]; try discriminate; cbn [Visit] in E1.
      - rewrite VisitExpr_var in E1. destruct (VisitVar_flag _ _ _ E1) as [F S].
        split; [exact F|]. apply S. exact (not_eq_sym Hp).
      - rewrite VisitExpr_constant in E1. destruct (VisitVar_flag _ _ _ E1) as [F S].
        split; [exact F|]. apply S. exact (not_eq_sym Hp). }
    split; congruence.
Qed.

Lemma RetractLeaves_flag (args : list Expr) (p : positive) :
  Forall (fun a => is_leaf a = true /\ ptr a <> p) args ->
  forall st,
    primitive_supports_texture_ (RetractArgs args st) = primitive_supports_texture_ st /\
    storage_scope_ (RetractArgs args st) !! p = storage_scope_ st !! p.
Proof.
  unfold RetractArgs. induction 1 as [|a args [Hl Hp] _ IH]; intros st; cbn [fold_left];
    [auto|].
  destruct (IH (RetractArg st a)) as [F S]. rewrite F, S. unfold RetractArg.
  destruct (consumer_storage_scopes_ st !! ptr a); [|auto].
  destruct (negb _); [|auto].
  destruct a as [v|n| | |]; try discriminate; cbn; (split; [reflexivity|]);
    now apply lookup_delete_ne.
Qed.

Lemma RecordConsumerScopes_storage (call : RelayExprNode) (args : list Expr) :
  forall st st',
    RecordConsumerScopes call args st = Ok st' -> storage_scope_ st' = storage_scope_ st.
Proof.
  unfold RecordConsumerScopes. induction args as [|a args IH]; intros st st' E;
    cbn [foldM] in E.
  - now injection E as <-.
  - apply bind_Ok in E as (st1 & E1 & E). rewrite (IH _ _ E).
    revert E1. unfold RecordConsumerScope. destruct (has_key _ _).
    + intros E1. apply bind_Ok in E1 as (b & _ & E1). destruct b; [discriminate|].
      now injection E1 as <-.
    + now intros [= <-].
Qed.

(** X20.  What decides the candidate of a call of a primitive function
    whose body is one call of an operator on leaves.  The call gets a
    candidate exactly when the body has not been visited before, the
    attributes of the operator are texture capable, and the type of the
    call is a tensor or a tuple with a field; a second call of the same
    function finds the body visited and gets none. *)
Theorem primitive_candidate (call b : RelayExprNode) (params : list Var) (bop : Expr)
    (bargs : list Expr) (battrs : Attrs) (args : list Expr) (st st' : StorageInfo) :
  is_primitive_function bop = false ->
  Forall (fun a => is_leaf a = true /\ ptr a <> addr call) bargs ->
  Forall (fun v => addr (var_node v) <> addr call) params ->
  storage_scope_ st !! addr call = None ->
  VisitPrimitive call params (CallNode b bop bargs battrs) args st = Ok st' ->
  is_Some (storage_scope_ st' !! addr call) <->
  ((addr b ∉ visit_counter_ st) /\ SupportsTextureStorage battrs = true /\
   gives_entry (checked_type_ call) = true).
Proof.
  intros Hop Hleaves Hparams Hnone E. unfold VisitPrimitive in E.
  apply bind_Ok in E as (sa & Ea & E). apply bind_Ok in E as (sb & Eb & E).
  apply bind_Ok in E as (sc & Ec & E).
  rewrite (RecordConsumerScopes_storage _ _ _ _ E). clear E.
  assert (primitive_supports_texture_ sa
          = (if bool_decide (addr b ∈ visit_counter_ st) then false
             else SupportsTextureStorage battrs) /\
          storage_scope_ sa !! addr call = None) as [Fa Sa].
  { rewrite VisitExpr_call in Ea. cbn [set_flag visit_counter_] in Ea.
    case_bool_decide as Hv; [injection Ea as <-; auto|].
    apply bind_Ok in Ea as (s4 & Ea & [= <-]). cbn.
    unfold DeviceAwareVisitExpr_ in Ea. apply bind_Ok in Ea as (s1 & E1 & Ea).
    apply bind_Ok in Ea as (s3 & E3 & [= <-]).
    assert (s1 = set_flag false st) as ->.
    { destruct bop as [| | |? ? ? prim|]; try (now injection E1 as <-).
      destruct prim; [discriminate|now injection E1 as <-]. }
    destruct (leaves_flag bargs (addr call) Hleaves _ _ E3) as [F3 S3].
    destruct (RetractLeaves_flag bargs (addr call) Hleaves s3) as [F4 S4].
    rewrite F4, S4, F3, S3. auto. }
  destruct (VisitVars_flag params (addr call) Hparams _ _ Eb) as [Fb Sb].
  rewrite Fa in Fb. rewrite Sa in Sb. clear Ea Eb Fa Sa.
  unfold AssignAndBind in Ec. rewrite Fb in Ec.
  case_bool_decide as Hv.
  - injection Ec as <-. rewrite Sb. split; [intros [? ?]; discriminate|].
    intros [Hn _]. contradiction.
  - destruct (SupportsTextureStorage battrs).
    + apply bind_Ok in Ec as (s1 & E1 & Ec). apply bind_Ok in Ec as (table & _ & [= <-]).
      cbn. unfold AssignCallScope in E1.
      destruct (checked_type_ call) as [shape|fields|]; [| |discriminate].
      * apply bind_Ok in E1 as (scope & _ & [= <-]). cbn.
        rewrite lookup_push_back, decide_True by reflexivity. split; [auto|eauto].
      * injection E1 as <-. cbn. rewrite lookup_fold_push_back.
        destruct fields as [|f fields]; cbn.
        -- rewrite Sb. split; [intros [? ?]; discriminate|]. intros (_ & _ & ?). discriminate.
        -- rewrite decide_True by reflexivity. split; [auto|eauto].
    + injection Ec as <-. rewrite Sb. split; [intros [? ?]; discriminate|].
      intros (_ & ? & _). discriminate.
Qed.

Lemma primitive_candidate_witness :
  exists st',
    VisitPrimitive (mkNode 1 (tensor [1; 4; 8; 8; 4]) vd_adreno) [parameter_p0; parameter_p1]
      (CallNode (mkNode 13 (tensor [1; 4; 8; 8; 4]) FullyUnconstrained)
                (OpNode (mkNode 14 OtherType FullyUnconstrained) "nn.conv2d")
                [VarNode parameter_p0; VarNode parameter_p1]
                (Conv2DAttrs "NCHW4c" "OIHW4o"))
      [VarNode (mkVar (mkNode 2 (tensor [1; 1; 8; 8; 4]) vd_adreno) "data");
       VarNode (mkVar (mkNode 3 (tensor [1; 1; 3; 3; 4]) vd_adreno) "weight")]
      StorageInfo_init = Ok st' /\
    is_Some (storage_scope_ st' !! 1%positive).
Proof.
  eexists. split; [vm_compute; reflexivity|].
  eapply (primitive_candidate (mkNode 1 (tensor [1; 4; 8; 8; 4]) vd_adreno)
            (mkNode 13 (tensor [1; 4; 8; 8; 4]) FullyUnconstrained)
            [parameter_p0; parameter_p1]
            (OpNode (mkNode 14 OtherType FullyUnconstrained) "nn.conv2d")
            [VarNode parameter_p0; VarNode parameter_p1]
            (Conv2DAttrs "NCHW4c" "OIHW4o")
            [VarNode (mkVar (mkNode 2 (tensor [1; 1; 8; 8; 4]) vd_adreno) "data");
             VarNode (mkVar (mkNode 3 (tensor [1; 1; 3; 3; 4]) vd_adreno) "weight")]
            StorageInfo_init).
  - reflexivity.
  - repeat constructor; discriminate.
  - repeat constructor; discriminate.
  - reflexivity.
  - vm_compute. reflexivity.
  - split; [apply not_elem_of_empty|split; reflexivity].
Defined.

(** ** The scope of a call *)

Lemma VisitExpr_placed (expr : Expr) (st0 : StorageInfo) :
  addresses_identify expr -> VisitExpr expr StorageInfo_init = Ok st0 -> placed expr ∅ st0.
Proof.
  intros Hid E0.
  assert (stops_with (fun _ _ => True) (placed expr ∅) (VisitExpr expr StorageInfo_init)) as H.
  { apply (VisitExpr_stops (fun _ _ => True) expr Hid).
    - intros e _ _. destruct (own_scope _); exact I.
    - intros call fn params body args attrs _. split.
      + intros st. destruct (AssignCallScope _ _); exact I.
      + intros table. destruct (BindArgsToVars _ _ _); exact I.
    - apply subterms_self.
    - set_solver.
    - split; intros p scopes Hp; cbn in Hp; rewrite lookup_empty in Hp; discriminate. }
  rewrite E0 in H. exact H.
Qed.

(** X21.  When addresses identify nodes, a call that has a candidate
    after the traversal and the legalization is a call of a primitive
    function.  A tensor result has the scope fitting its shape, except
    that a result fitting no texture has ["global.texture"] in place of
    ["global"] when demand was recorded for the call; a tuple result has
    ["global.texture"] for each field. *)
Theorem call_scope_fits (expr : Expr) (st : StorageInfo) (call : RelayExprNode) (op : Expr)
    (args : list Expr) (attrs : Attrs) (scopes : list string) :
  addresses_identify expr -> CallNode call op args attrs ∈ subterms expr ->
  Analyze expr = Ok st -> storage_scope_ st !! addr call = Some scopes ->
  is_primitive_function op = true /\
  match checked_type_ call with
  | TensorType shape =>
      exists scope,
        Scope shape (GetVirtualDevice call) = Ok scope /\
        scopes = [if String.eqb scope "global" &&
                     bool_decide (is_Some (consumer_storage_scopes_ st !! addr call))
                  then "global.texture" else scope]
  | TupleType fields => scopes = replicate (length fields) "global.texture"
  | OtherType => False
  end.
Proof.
  intros Hid Hc Ha Hs. pose proof Ha as Ha'. unfold Analyze in Ha'.
  apply bind_Ok in Ha' as (st0 & E0 & E).
  pose proof (VisitExpr_placed expr st0 Hid E0) as [_ Hshape].
  assert (collected (demand_sites expr) (primitive_calls expr) (primitive_params expr) st0)
    as Hcol.
  { eapply collected_VisitExpr; [reflexivity..|apply collected_init|exact E0]. }
  pose proof (Legalize_lookup st0 st (scope_nonempty _ _ _ _ Hcol) E (addr call)) as Hl.
  assert (consumer_storage_scopes_ st = consumer_storage_scopes_ st0) as HD.
  { unfold LegalizeProducerStorage in E. apply bind_Ok in E as (t & _ & [= <-]).
    reflexivity. }
  rewrite Hs in Hl. rewrite HD.
  assert (exists scopes0,
             storage_scope_ st0 !! addr call = Some scopes0 /\
             scopes = match consumer_storage_scopes_ st0 !! addr call with
                      | Some demand => legalized demand scopes0
                      | None => scopes0
                      end) as (scopes0 & Hs0 & ->).
  { destruct (consumer_storage_scopes_ st0 !! addr call);
      destruct (storage_scope_ st0 !! addr call) as [s0|]; try discriminate;
      exists s0; split; try reflexivity; cbn in Hl; congruence. }
  destruct (Hshape _ _ Hs0) as (e & He & Hp & Hcand).
  assert (e = CallNode call op args attrs) as -> by (apply Hid; assumption).
  cbn [candidate_of] in Hcand. destruct Hcand as [Hprim Hcand]. split; [exact Hprim|].
  destruct (consumer_storage_scopes_ st0 !! addr call) as [demand|] eqn:Hd.
  - assert (GetConsumerScope demand = "global.texture") as Hu.
    { destruct (String.eqb_spec (GetConsumerScope demand) "global.texture") as [|Hne];
        [assumption|].
      rewrite (Analyze_settled expr st Hid Ha (addr call) demand) in Hs;
        [discriminate|now rewrite HD|exact Hne]. }
    rewrite bool_decide_eq_true_2 by eauto.
    destruct (checked_type_ call) as [shape|fields|]; [| |contradiction].
    + destruct Hcand as (scope & Hsc & ->). exists scope. split; [exact Hsc|].
      rewrite andb_true_r. cbn [legalized]. rewrite Hu, (found_scope_texture _ (Scope_is_scope _ _ _ Hsc)).
      destruct (String.eqb scope "global"); reflexivity.
    + destruct Hcand as [Hne ->]. destruct fields as [|f fields]; [contradiction|].
      cbn [length replicate legalized]. rewrite Hu. reflexivity.
  - rewrite bool_decide_eq_false_2 by (intros [? ?]; discriminate).
    destruct (checked_type_ call) as [shape|fields|]; [| |contradiction].
    + destruct Hcand as (scope & Hsc & ->). exists scope. split; [exact Hsc|].
      now rewrite andb_false_r.
    + exact (proj2 Hcand).
Qed.

Lemma call_scope_fits_witness :
  is_primitive_function (conv_primitive "NCHW4c" "OIHW4o" (tensor [1; 4; 8; 8; 4])) = true /\
  exists scope,
    Scope (map IntImm [1; 4; 8; 8; 4]) vd_adreno = Ok scope /\
    ["global.texture"] = [scope].
Proof.
  assert (exists st, Analyze scenario_A = Ok st /\
                     storage_scope_ st !! 1%positive = Some ["global.texture"] /\
                     consumer_storage_scopes_ st !! 1%positive = None)
    as (st & Ha & Hs & Hd).
  { eexists. split; [vm_compute; reflexivity|]. split; reflexivity. }
  destruct (call_scope_fits scenario_A st (mkNode 1 (tensor [1; 4; 8; 8; 4]) vd_adreno)
              (conv_primitive "NCHW4c" "OIHW4o" (tensor [1; 4; 8; 8; 4]))
              [VarNode (mkVar (mkNode 2 (tensor [1; 1; 8; 8; 4]) vd_adreno) "data");
               VarNode (mkVar (mkNode 3 (tensor [1; 1; 3; 3; 4]) vd_adreno) "weight")]
              NoAttrs ["global.texture"] scenario_A_addresses ltac:(left) Ha Hs)
    as [Hprim (scope & Hsc & Heq)].
  split; [exact Hprim|]. exists scope. split; [exact Hsc|].
  cbn [addr] in Heq. rewrite Hd in Heq.
  rewrite bool_decide_eq_false_2 in Heq by (intros [? ?]; discriminate).
  rewrite andb_false_r in Heq. exact Heq.
Defined.
